(** * Heightfield span filters of Recast (RecastFilter.cpp)

    A shallow embedding of the four filter passes of
    [Recast/Source/RecastFilter.cpp] and the properties of their
    specification.

    Representation.  A column of the heightfield is a singly linked chain of
    spans, bottom to top; it is modelled as the list of its spans, so that
    [span->next] is the element at the next position and a span pointer is
    the pair (column index, position in the column).  The filters never
    allocate, free or relink spans: they only overwrite [area].

    Integers.  All [int] arithmetic of the source is carried out in [Z].
    Heights are bit-fields of at most 16 bits read through [(int)] casts,
    the thresholds are non-negative [int]s by the contract of the passes,
    and a chain holds at most ten spans; on such values no operation of the
    filters leaves the range of [int], so no wrap-around is written out for
    them.  The one narrowing store of the file, [span->area = RuggedAreaID]
    ([int] into the area bit-field), is modelled by [area_of_int]. *)

From Stdlib Require Import ZArith QArith Qabs Lia Lqa Bool.
From stdpp Require Import base tactics option list numbers.

Local Open Scope Z_scope.

(** ** Data model *)

(** [MAX_HEIGHTFIELD_HEIGHT = 0xffff], the ceiling of a topmost span. *)
Definition MAX_HEIGHTFIELD_HEIGHT : Z := 65535.

(** Modelled from the spec: [RC_NULL_AREA] is declared in Recast.h, which is
    not part of the sources at hand.  The spec describes an area id as either
    null/unwalkable or a positive walkable id; Recast.h gives the null id the
    value 0. *)
Definition RC_NULL_AREA : Z := 0.

(** Modelled from the spec: [RC_WALKABLE_AREA], the ordinary walkable
    classification, is declared in Recast.h (not part of the sources at
    hand), where it is the largest id of the area field, 63. *)
Definition RC_WALKABLE_AREA : Z := 63.

(** Modelled from the spec: the width of the [area] bit-field of [rcSpan]
    (Recast.h, not part of the sources at hand, declares
    [unsigned int area : 6]). *)
Definition RC_AREA_BITS : Z := 6.

(** Storing an [int] into the [area] bit-field keeps its low bits. *)
Definition area_of_int (v : Z) : Z := v mod 2 ^ RC_AREA_BITS.

(** [rcSpan] without its [next] link, which is the position in the column. *)
Record rcSpan : Type := mkSpan { smin : Z; smax : Z; area : Z }.

(** [rcHeightfield]: [spans] holds one chain per cell, cell (x, z) at index
    [x + z * width]. *)
Record rcHeightfield : Type :=
  mkHeightfield { width : Z; height : Z; spans : list (list rcSpan) }.

#[global] Instance rcSpan_eq_dec : EqDecision rcSpan.
Proof. solve_decision. Defined.

#[global] Instance rcHeightfield_eq_dec : EqDecision rcHeightfield.
Proof. solve_decision. Defined.

(** A span pointer: column index and position in the chain. *)
Definition spanRef : Type := (nat * nat)%type.

(** The chain stored at index [c]; an index outside the array reads as the
    empty chain (the source never leaves the array on a heightfield whose
    array has [width * height] cells). *)
Definition column_at (hf : rcHeightfield) (c : nat) : list rcSpan :=
  default [] (spans hf !! c).

(** [x + z * xSize], the index of cell (x, z). *)
Definition cell_index (xSize x z : Z) : nat := Z.to_nat (x + z * xSize).

Definition span_at (hf : rcHeightfield) (r : spanRef) : option rcSpan :=
  column_at hf r.1 !! r.2.

(** [span->area = a] *)
Definition with_area (a : Z) (s : rcSpan) : rcSpan :=
  {| smin := smin s; smax := smax s; area := a |}.

Definition set_area (hf : rcHeightfield) (r : spanRef) (a : Z) : rcHeightfield :=
  {| width := width hf; height := height hf;
     spans := alter (alter (with_area a) r.2) r.1 (spans hf) |}.

(** [span->next ? (int)span->next->smin : MAX_HEIGHTFIELD_HEIGHT], for the
    span at position [i] of the chain [col]. *)
Definition ceiling_at (col : list rcSpan) (i : nat) : Z :=
  match col !! S i with
  | Some above => smin above
  | None => MAX_HEIGHTFIELD_HEIGHT
  end.

(** The raster loops shared by the passes:
    [for z in 0..zSize) for x in 0..xSize) for span in spans[x + z*xSize]],
    the body running on the heightfield as the earlier iterations left it. *)
Definition for_each_span
    (body : rcHeightfield -> Z -> Z -> nat -> rcHeightfield)
    (hf : rcHeightfield) : rcHeightfield :=
  let xSize := width hf in
  let zSize := height hf in
  foldl (fun hf z =>
    foldl (fun hf x =>
      foldl (fun hf i => body hf x z i) hf
            (seq 0 (length (column_at hf (cell_index xSize x z)))))
      hf (seqZ 0 xSize))
    hf (seqZ 0 zSize).

(** ** rcFilterLowHangingWalkableObstacles *)

(** The loop over one chain; [previousSpan], [previousWasWalkable] and
    [previousAreaID] are the loop-carried variables.  [previousAreaID] is an
    [unsigned char] that only ever holds a value read from an area field. *)
Fixpoint low_obstacles_chain (walkableClimb : Z)
    (previousSpan : option rcSpan) (previousWasWalkable : bool)
    (previousAreaID : Z) (chain : list rcSpan) : list rcSpan :=
  match chain with
  | [] => []
  | span :: rest =>
      let walkable := negb (area span =? RC_NULL_AREA) in
      let span' :=
        if negb walkable && previousWasWalkable &&
           match previousSpan with
           | Some p => smax span - smax p <=? walkableClimb
           | None => false
           end
        then with_area previousAreaID span
        else span in
      span' :: low_obstacles_chain walkableClimb (Some span) walkable
                 (area span') rest
  end.

Definition rcFilterLowHangingWalkableObstacles (walkableClimb : Z)
    (heightfield : rcHeightfield) : rcHeightfield :=
  let xSize := width heightfield in
  let zSize := height heightfield in
  foldl (fun hf z =>
    foldl (fun hf x =>
      {| width := width hf; height := height hf;
         spans := alter (low_obstacles_chain walkableClimb None false RC_NULL_AREA)
                        (cell_index xSize x z) (spans hf) |})
      hf (seqZ 0 xSize))
    heightfield (seqZ 0 zSize).

(** ** rcFilterLedgeSpans *)

(** Modelled from the spec: [rcGetDirOffsetX] and [rcGetDirOffsetY] are
    defined in Recast.h, which is not part of the sources at hand.  The spec
    fixes the neighbourhood as the 4-connected one (±x, ±z); the tables and
    their order are those of Recast.h. *)
Definition rcGetDirOffsetX (direction : Z) : Z :=
  nth (Z.to_nat (Z.land direction 3)) [-1; 0; 1; 0] 0.

Definition rcGetDirOffsetY (direction : Z) : Z :=
  nth (Z.to_nat (Z.land direction 3)) [0; 1; 0; -1] 0.

(** The three running values of the neighbour scan of one span. *)
Record ledgeScan : Type := mkLedgeScan {
  lowestNeighborFloorDifference : Z;
  lowestTraversableNeighborFloor : Z;
  highestTraversableNeighborFloor : Z
}.

(** [for (; neighborSpan != NULL; neighborSpan = neighborSpan->next)]: the
    argument is the rest of the neighbour chain from [neighborSpan] on. *)
Fixpoint scan_neighbor_chain (walkableHeight walkableClimb floor ceiling : Z)
    (neighbor : list rcSpan) (st : ledgeScan) : ledgeScan :=
  match neighbor with
  | [] => st
  | neighborSpan :: rest =>
      let neighborFloor := smax neighborSpan in
      let neighborCeiling :=
        match rest with
        | above :: _ => smin above
        | [] => MAX_HEIGHTFIELD_HEIGHT
        end in
      if Z.min ceiling neighborCeiling - Z.max floor neighborFloor <? walkableHeight
      then scan_neighbor_chain walkableHeight walkableClimb floor ceiling rest st
      else
        let neighborFloorDifference := neighborFloor - floor in
        let lowest := Z.min (lowestNeighborFloorDifference st) neighborFloorDifference in
        if Z.abs neighborFloorDifference <=? walkableClimb
        then scan_neighbor_chain walkableHeight walkableClimb floor ceiling rest
               {| lowestNeighborFloorDifference := lowest;
                  lowestTraversableNeighborFloor :=
                    Z.min (lowestTraversableNeighborFloor st) neighborFloor;
                  highestTraversableNeighborFloor :=
                    Z.max (highestTraversableNeighborFloor st) neighborFloor |}
        else
          let st' :=
            {| lowestNeighborFloorDifference := lowest;
               lowestTraversableNeighborFloor := lowestTraversableNeighborFloor st;
               highestTraversableNeighborFloor := highestTraversableNeighborFloor st |} in
          if neighborFloorDifference <? - walkableClimb
          then st'
          else scan_neighbor_chain walkableHeight walkableClimb floor ceiling rest st'
  end.

(** The sentinel both early exits of the direction loop write. *)
Definition ledge_sentinel (walkableClimb : Z) (st : ledgeScan) : ledgeScan :=
  {| lowestNeighborFloorDifference := - walkableClimb - 1;
     lowestTraversableNeighborFloor := lowestTraversableNeighborFloor st;
     highestTraversableNeighborFloor := highestTraversableNeighborFloor st |}.

(** [neighborX < 0 || neighborZ < 0 || neighborX >= xSize || neighborZ >= zSize] *)
Definition out_of_bounds (xSize zSize neighborX neighborZ : Z) : bool :=
  (neighborX <? 0) || (neighborZ <? 0) || (neighborX >=? xSize) || (neighborZ >=? zSize).

(** [neighborSpan ? (int)neighborSpan->smin : MAX_HEIGHTFIELD_HEIGHT] for the
    head of the neighbour chain: the ceiling of the room under it. *)
Definition under_chain_ceiling (neighbor : list rcSpan) : Z :=
  match neighbor with
  | neighborSpan :: _ => smin neighborSpan
  | [] => MAX_HEIGHTFIELD_HEIGHT
  end.

(** [for (int direction = 0; direction < 4; ++direction)], over the
    directions still to visit; both [break]s return at once. *)
Fixpoint scan_directions (hf : rcHeightfield) (xSize zSize : Z)
    (walkableHeight walkableClimb : Z) (x z floor ceiling : Z)
    (directions : list Z) (st : ledgeScan) : ledgeScan :=
  match directions with
  | [] => st
  | direction :: later =>
      let neighborX := x + rcGetDirOffsetX direction in
      let neighborZ := z + rcGetDirOffsetY direction in
      if out_of_bounds xSize zSize neighborX neighborZ
      then ledge_sentinel walkableClimb st
      else
        let neighborSpan := column_at hf (cell_index xSize neighborX neighborZ) in
        let neighborCeiling := under_chain_ceiling neighborSpan in
        if Z.min ceiling neighborCeiling - floor >=? walkableHeight
        then ledge_sentinel walkableClimb st
        else
          scan_directions hf xSize zSize walkableHeight walkableClimb x z floor ceiling later
            (scan_neighbor_chain walkableHeight walkableClimb floor ceiling neighborSpan st)
  end.

(** The scan of the four neighbours of the span at position [i] of cell
    (x, z), from the initial values of the three running variables. *)
Definition ledge_scan (hf : rcHeightfield) (xSize zSize : Z)
    (walkableHeight walkableClimb : Z) (x z : Z) (i : nat) (span : rcSpan) : ledgeScan :=
  let floor := smax span in
  let ceiling := ceiling_at (column_at hf (cell_index xSize x z)) i in
  scan_directions hf xSize zSize walkableHeight walkableClimb x z floor ceiling (seqZ 0 4)
    {| lowestNeighborFloorDifference := MAX_HEIGHTFIELD_HEIGHT;
       lowestTraversableNeighborFloor := smax span;
       highestTraversableNeighborFloor := smax span |}.

(** The two tests after the scan. *)
Definition ledge_verdict (walkableClimb : Z) (st : ledgeScan) : bool :=
  if lowestNeighborFloorDifference st <? - walkableClimb then true
  else highestTraversableNeighborFloor st - lowestTraversableNeighborFloor st >? walkableClimb.

(** The body of the span loop. *)
Definition ledge_span (xSize zSize walkableHeight walkableClimb : Z)
    (hf : rcHeightfield) (x z : Z) (i : nat) : rcHeightfield :=
  let c := cell_index xSize x z in
  match span_at hf (c, i) with
  | None => hf
  | Some span =>
      if area span =? RC_NULL_AREA then hf
      else if ledge_verdict walkableClimb
                (ledge_scan hf xSize zSize walkableHeight walkableClimb x z i span)
      then set_area hf (c, i) RC_NULL_AREA
      else hf
  end.

Definition rcFilterLedgeSpans (walkableHeight walkableClimb : Z)
    (heightfield : rcHeightfield) : rcHeightfield :=
  for_each_span
    (ledge_span (width heightfield) (height heightfield) walkableHeight walkableClimb)
    heightfield.

(** ** rcFilterWalkableLowHeightSpans *)

Definition low_height_span (xSize walkableHeight : Z)
    (hf : rcHeightfield) (x z : Z) (i : nat) : rcHeightfield :=
  let c := cell_index xSize x z in
  match span_at hf (c, i) with
  | None => hf
  | Some span =>
      let floor := smax span in
      let ceiling := ceiling_at (column_at hf c) i in
      if ceiling - floor <? walkableHeight
      then set_area hf (c, i) RC_NULL_AREA
      else hf
  end.

Definition rcFilterWalkableLowHeightSpans (walkableHeight : Z)
    (heightfield : rcHeightfield) : rcHeightfield :=
  for_each_span (low_height_span (width heightfield) walkableHeight) heightfield.

(** ** Single-precision arithmetic of the rugged-area pass

    [_EvaluateRuggedArea] converts two [int]s to [float], divides them and
    compares the quotient with the [float] threshold.  A finite [float] is a
    rational, and conversion and division are the exact operation followed
    by rounding to the nearest binary32 value, ties to the even mantissa.
    The operands here are [int]s and quotients of [int]s, whose magnitudes
    lie in the normal range of binary32, so neither overflow nor gradual
    underflow is written out.  A threshold is a finite [float], given as the
    rational it denotes. *)

(** [num / den] rounded to the nearest integer, ties to even ([den > 0]). *)
Definition round_half_even (num den : Z) : Z :=
  let q := num / den in
  let r := num mod den in
  if 2 * r <? den then q
  else if den <? 2 * r then q + 1
  else if Z.even q then q else q + 1.

(** The fraction [(p / q) / 2 ^ e]. *)
Definition scale2 (p q e : Z) : Z * Z :=
  if 0 <=? e then (p, q * 2 ^ e) else (p * 2 ^ (- e), q).

(** The binary exponent of [p / q]: [2 ^ e <= p / q < 2 ^ (e + 1)], for
    positive [p] and [q]. *)
Definition f32_exponent (p q : Z) : Z :=
  let e0 := Z.log2 p - Z.log2 q in
  if snd (scale2 p q e0) <=? fst (scale2 p q e0) then e0 else e0 - 1.

(** Rounding to binary32: 24 significant bits. *)
Definition f32_round (x : Q) : Q :=
  let p := Z.abs (Qnum x) in
  let q := Z.pos (Qden x) in
  if p =? 0 then 0%Q
  else
    let e := f32_exponent p q in
    let m := round_half_even (fst (scale2 p q (e - 23))) (snd (scale2 p q (e - 23))) in
    let v := if 0 <=? e - 23
             then inject_Z (m * 2 ^ (e - 23))
             else Qmake m (Z.to_pos (2 ^ (23 - e))) in
    if Qnum x <? 0 then Qopp v else v.

(** [(float)n] *)
Definition f32_of_int (n : Z) : Q := f32_round (inject_Z n).

(** [a / b] on [float]s *)
Definition f32_div (a b : Q) : Q := f32_round (a / b).

(** ** rcFilterRuggedAreaSpans *)

Definition ref_smax (hf : rcHeightfield) (r : spanRef) : Z :=
  from_option smax 0 (span_at hf r).

Definition ref_area (hf : rcHeightfield) (r : spanRef) : Z :=
  from_option area RC_NULL_AREA (span_at hf r).

(** [_InitSpanListInColume(span)]: one single-element chain for [span] and
    for every span above it in its column. *)
Definition _InitSpanListInColume (hf : rcHeightfield) (span : spanRef)
    : list (list spanRef) :=
  (fun j => [(span.1, j)]) <$> seq span.2 (length (column_at hf span.1) - span.2).

(** [for (auto& ConnectedSpanList : ConnectedSpanListsInColume)] with its
    [push_back] and [break]: the first chain whose [back()] is [CurrentSpan]
    receives [NeighborSpan]. *)
Fixpoint extend_first_chain (CurrentSpan NeighborSpan : spanRef)
    (ConnectedSpanListsInColume : list (list spanRef)) : list (list spanRef) :=
  match ConnectedSpanListsInColume with
  | [] => []
  | ConnectedSpanList :: others =>
      if decide (list.last ConnectedSpanList = Some CurrentSpan)
      then (ConnectedSpanList ++ [NeighborSpan]) :: others
      else ConnectedSpanList :: extend_first_chain CurrentSpan NeighborSpan others
  end.

(** The loop over the neighbour column, from position [k] on. *)
Fixpoint neighbor_span_loop (walkableClimb CurrentFloor : Z) (CurrentSpan : spanRef)
    (nc : nat) (k : nat) (neighbor : list rcSpan)
    (chains : list (list spanRef)) : list (list spanRef) :=
  match neighbor with
  | [] => chains
  | NeighborSpan :: rest =>
      if area NeighborSpan =? RC_NULL_AREA
      then neighbor_span_loop walkableClimb CurrentFloor CurrentSpan nc (S k) rest chains
      else
        let NeiborFloor := smax NeighborSpan in
        let difference := Z.abs (CurrentFloor - NeiborFloor) in
        neighbor_span_loop walkableClimb CurrentFloor CurrentSpan nc (S k) rest
          (if difference <=? walkableClimb
           then extend_first_chain CurrentSpan (nc, k) chains
           else chains)
  end.

(** The loop over the current column, from position [j] on; it stops at the
    first span that is not walkable. *)
Fixpoint current_span_loop (walkableClimb : Z) (cc nc : nat) (neighborColumn : list rcSpan)
    (j : nat) (current : list rcSpan)
    (chains : list (list spanRef)) : list (list spanRef) :=
  match current with
  | [] => chains
  | CurrentSpan :: rest =>
      if area CurrentSpan =? RC_NULL_AREA then chains
      else
        current_span_loop walkableClimb cc nc neighborColumn (S j) rest
          (neighbor_span_loop walkableClimb (smax CurrentSpan) (cc, j) nc 0
             neighborColumn chains)
  end.

(** One sample step on the cells [cc] (current) and [nc] (neighbour). *)
Definition sample_step (hf : rcHeightfield) (walkableClimb : Z) (cc nc : nat)
    (chains : list (list spanRef)) : list (list spanRef) :=
  current_span_loop walkableClimb cc nc (column_at hf nc) 0 (column_at hf cc) chains.

(** [for (sampleStep = 0; sampleStep < MAX_SLOPE_SAMPLE_STEP; ++sampleStep)].
    The source writes the loop twice; [cell] maps a sample point to its cell
    index ([p + z * xSize] along X, [x + p * xSize] along Z) and [size] is
    the extent of the grid along the axis. *)
Fixpoint sample_steps (hf : rcHeightfield) (walkableClimb : Z)
    (cell : Z -> nat) (size : Z) (stepsLeft : nat)
    (CurrentSamplePoint NeighborSamplePoint : Z)
    (chains : list (list spanRef)) : list (list spanRef) :=
  match stepsLeft with
  | O => chains
  | S n =>
      if (CurrentSamplePoint <? 0) || (CurrentSamplePoint >=? size) ||
         (NeighborSamplePoint <? 0) || (NeighborSamplePoint >=? size)
      then chains
      else
        sample_steps hf walkableClimb cell size n
          (CurrentSamplePoint + 1) (NeighborSamplePoint + 1)
          (sample_step hf walkableClimb (cell CurrentSamplePoint)
             (cell NeighborSamplePoint) chains)
  end.

Definition MAX_SLOPE_SAMPLE_STEP : nat := 9.

(** [for (int i = 1; i < ConnectedSpanList.size(); ++i)]: [previous] is
    element [i - 1] and [rest] the elements from [i] on. *)
Fixpoint sum_steps (hf : rcHeightfield) (previous : spanRef) (rest : list spanRef)
    (TotalDiff TotalConnectedSpanCount : Z) : Z * Z :=
  match rest with
  | [] => (TotalDiff, TotalConnectedSpanCount)
  | next :: rest' =>
      let CurrentFloor := ref_smax hf previous in
      let NeiborFloor := ref_smax hf next in
      let difference := Z.abs (CurrentFloor - NeiborFloor) in
      sum_steps hf next rest' (TotalDiff + difference) (TotalConnectedSpanCount + 1)
  end.

(** [(float)TotalDiff / (float)TotalConnectedSpanCount] *)
Definition avgSlope (TotalDiff TotalConnectedSpanCount : Z) : Q :=
  f32_div (f32_of_int TotalDiff) (f32_of_int TotalConnectedSpanCount).

(** [ConnectedSpanList[n]->area = RuggedAreaID] for every [n]. *)
Definition mark_chain (RuggedAreaID : Z) (hf : rcHeightfield) (chain : list spanRef)
    : rcHeightfield :=
  foldl (fun hf r => set_area hf r (area_of_int RuggedAreaID)) hf chain.

(** The body of the loop of [_EvaluateRuggedArea]. *)
Definition evaluate_chain (SlopeThreshold : Q) (RuggedAreaID : Z)
    (hf : rcHeightfield) (ConnectedSpanList : list spanRef) : rcHeightfield :=
  match ConnectedSpanList with
  | [] => hf
  | startSpan :: rest =>
      if negb (ref_area hf startSpan =? RC_WALKABLE_AREA) then hf
      else
        let totals := sum_steps hf startSpan rest 0 0 in
        if snd totals >? 0
        then
          if Qle_bool SlopeThreshold (avgSlope (fst totals) (snd totals))
          then mark_chain RuggedAreaID hf ConnectedSpanList
          else hf
        else hf
  end.

Definition _EvaluateRuggedArea (ConnectedSpanListsInColume : list (list spanRef))
    (SlopeThreshold : Q) (RuggedAreaID : Z) (hf : rcHeightfield) : rcHeightfield :=
  foldl (evaluate_chain SlopeThreshold RuggedAreaID) hf ConnectedSpanListsInColume.

(** Chain building and evaluation along one axis from the origin [span]. *)
Definition rugged_axis (hf : rcHeightfield) (walkableClimb : Z) (SlopeThreshold : Q)
    (RuggedAreaID : Z) (cell : Z -> nat) (size : Z) (start : Z) (span : spanRef)
    : rcHeightfield :=
  _EvaluateRuggedArea
    (sample_steps hf walkableClimb cell size MAX_SLOPE_SAMPLE_STEP start (start + 1)
       (_InitSpanListInColume hf span))
    SlopeThreshold RuggedAreaID hf.

(** The body of the span loop. *)
Definition rugged_span (xSize zSize walkableClimb : Z) (SlopeThreshold : Q)
    (RuggedAreaID : Z) (hf : rcHeightfield) (x z : Z) (i : nat) : rcHeightfield :=
  let span := (cell_index xSize x z, i) in
  match span_at hf span with
  | None => hf
  | Some s =>
      if area s =? RC_NULL_AREA then hf
      else
        let hfX := rugged_axis hf walkableClimb SlopeThreshold RuggedAreaID
                     (fun p => cell_index xSize p z) xSize x span in
        if negb (ref_area hfX span =? RuggedAreaID)
        then rugged_axis hfX walkableClimb SlopeThreshold RuggedAreaID
               (fun p => cell_index xSize x p) zSize z span
        else hfX
  end.

Definition rcFilterRuggedAreaSpans (walkableHeight walkableClimb : Z)
    (SlopeThreshold : Q) (RuggedAreaID : Z) (heightfield : rcHeightfield)
    : rcHeightfield :=
  for_each_span
    (rugged_span (width heightfield) (height heightfield) walkableClimb
       SlopeThreshold RuggedAreaID)
    heightfield.

(** ** Specification-side notions *)

(** What the filters never write: the dimensions and, per span, its two
    heights.  The chain structure is the shape of the lists. *)
Definition span_geometry (s : rcSpan) : Z * Z := (smin s, smax s).

Definition geometry (hf : rcHeightfield) : Z * Z * list (list (Z * Z)) :=
  (width hf, height hf, fmap (M:=list) span_geometry <$> spans hf).

(** The spans of the grid in the order the raster loops visit them, as
    (x, z, position). *)
Definition all_spans (hf : rcHeightfield) : list (Z * Z * nat) :=
  z ← seqZ 0 (height hf);
  x ← seqZ 0 (width hf);
  i ← seq 0 (length (column_at hf (cell_index (width hf) x z)));
  [(x, z, i)].

Definition ref_of (xSize : Z) (k : Z * Z * nat) : spanRef :=
  (cell_index xSize k.1.1 k.1.2, k.2).

(** A pass whose body either demotes the visited span or leaves the
    heightfield alone. *)
Definition demote_step (xSize : Z) (dec : rcHeightfield -> Z * Z * nat -> bool)
    (hf : rcHeightfield) (k : Z * Z * nat) : rcHeightfield :=
  if dec hf k then set_area hf (ref_of xSize k) RC_NULL_AREA else hf.

(** Whether the body of [rcFilterLedgeSpans] writes the span [k]. *)
Definition ledge_demotes (xSize zSize walkableHeight walkableClimb : Z)
    (hf : rcHeightfield) (k : Z * Z * nat) : bool :=
  match span_at hf (ref_of xSize k) with
  | None => false
  | Some span =>
      negb (area span =? RC_NULL_AREA) &&
      ledge_verdict walkableClimb
        (ledge_scan hf xSize zSize walkableHeight walkableClimb k.1.1 k.1.2 k.2 span)
  end.

(** The two-phase variant of the ledge pass: every demotion is decided on
    the input heightfield, kept as an immutable snapshot, and only then are
    the demotions applied. *)
Definition rcFilterLedgeSpans_two_phase (walkableHeight walkableClimb : Z)
    (heightfield : rcHeightfield) : rcHeightfield :=
  let snapshot := heightfield in
  let demoted :=
    List.filter
      (ledge_demotes (width snapshot) (height snapshot) walkableHeight walkableClimb snapshot)
      (all_spans snapshot) in
  foldl (fun hf k => set_area hf (ref_of (width heightfield) k) RC_NULL_AREA)
        heightfield demoted.

(** Whether the body of [rcFilterWalkableLowHeightSpans] writes the span [k]. *)
Definition low_height_demotes (xSize walkableHeight : Z)
    (hf : rcHeightfield) (k : Z * Z * nat) : bool :=
  match span_at hf (ref_of xSize k) with
  | None => false
  | Some span =>
      ceiling_at (column_at hf (cell_index xSize k.1.1 k.1.2)) k.2 - smax span <? walkableHeight
  end.

(** Whether the direction loop of the ledge scan leaves at [direction]:
    the neighbour cell lies outside the grid, or the room under the
    neighbour's chain already offers [walkableHeight]. *)
Definition direction_exits (hf : rcHeightfield) (xSize zSize walkableHeight : Z)
    (x z floor ceiling : Z) (direction : Z) : bool :=
  let neighborX := x + rcGetDirOffsetX direction in
  let neighborZ := z + rcGetDirOffsetY direction in
  out_of_bounds xSize zSize neighborX neighborZ ||
  (Z.min ceiling (under_chain_ceiling (column_at hf (cell_index xSize neighborX neighborZ)))
     - floor >=? walkableHeight).

(** The floors of the spans of a neighbour chain whose vertical overlap with
    the current span is at least [walkableHeight]: the qualifying neighbours. *)
Fixpoint qualifying_floors (walkableHeight floor ceiling : Z) (neighbor : list rcSpan)
    : list Z :=
  match neighbor with
  | [] => []
  | neighborSpan :: rest =>
      if Z.min ceiling (under_chain_ceiling rest) - Z.max floor (smax neighborSpan)
           <? walkableHeight
      then qualifying_floors walkableHeight floor ceiling rest
      else smax neighborSpan :: qualifying_floors walkableHeight floor ceiling rest
  end.

(** The qualifying neighbour floors of a span over the in-bounds cells in
    the given directions. *)
Definition neighbor_floors (hf : rcHeightfield) (xSize zSize walkableHeight : Z)
    (x z floor ceiling : Z) (directions : list Z) : list Z :=
  direction ← directions;
  let neighborX := x + rcGetDirOffsetX direction in
  let neighborZ := z + rcGetDirOffsetY direction in
  if out_of_bounds xSize zSize neighborX neighborZ then []
  else qualifying_floors walkableHeight floor ceiling
         (column_at hf (cell_index xSize neighborX neighborZ)).

(** Among them, the traversable ones: at most [walkableClimb] away. *)
Definition traversable_floors (walkableClimb floor : Z) (floors : list Z) : list Z :=
  List.filter (fun f => Z.abs (f - floor) <=? walkableClimb) floors.

(** What one qualifying neighbour floor does to the running values when the
    scan does not leave early. *)
Definition fold_floor (walkableClimb floor : Z) (st : ledgeScan) (f : Z) : ledgeScan :=
  {| lowestNeighborFloorDifference := Z.min (lowestNeighborFloorDifference st) (f - floor);
     lowestTraversableNeighborFloor :=
       if Z.abs (f - floor) <=? walkableClimb
       then Z.min (lowestTraversableNeighborFloor st) f
       else lowestTraversableNeighborFloor st;
     highestTraversableNeighborFloor :=
       if Z.abs (f - floor) <=? walkableClimb
       then Z.max (highestTraversableNeighborFloor st) f
       else highestTraversableNeighborFloor st |}.

(** The cells of the grid in raster order, as indices into [spans]. *)
Definition all_cells (hf : rcHeightfield) : list nat :=
  z ← seqZ 0 (height hf);
  x ← seqZ 0 (width hf);
  [cell_index (width hf) x z].

(** Whether [rcFilterLowHangingWalkableObstacles] rewrites the area of
    [span], in terms of the input: [below] is the span right under it in
    its column, if any. *)
Definition low_obstacle_promoted (walkableClimb : Z) (below : option rcSpan)
    (span : rcSpan) : Prop :=
  area span = RC_NULL_AREA /\
  exists p, below = Some p /\ area p <> RC_NULL_AREA /\ smax span - smax p <= walkableClimb.

(** The loop-carried variables agree with the span below in the input. *)
Definition carried (below : option rcSpan) (previousSpan : option rcSpan)
    (previousWasWalkable : bool) (previousAreaID : Z) : Prop :=
  match below with
  | None => previousWasWalkable = false
  | Some p =>
      previousSpan = Some p /\
      previousWasWalkable = negb (area p =? RC_NULL_AREA) /\
      (previousWasWalkable = true -> previousAreaID = area p)
  end.

(** The sum of the absolute differences of successive floors along a chain. *)
Fixpoint chain_total_diff (hf : rcHeightfield) (chain : list spanRef) : Z :=
  match chain with
  | [] => 0
  | a :: tl =>
      match tl with
      | [] => 0
      | b :: _ => Z.abs (ref_smax hf a - ref_smax hf b) + chain_total_diff hf tl
      end
  end.

(** ** Heightfields of the scenarios *)

(** A 3 by 3 grid of single flat walkable spans at height 0. *)
Definition flat_grid : rcHeightfield :=
  mkHeightfield 3 3 (replicate 9 [mkSpan 0 0 1]).

(** Ten cells along X, one walkable span each, floors rising by 2 per cell. *)
Definition slope_line : rcHeightfield :=
  mkHeightfield 10 1 ((fun k => [mkSpan 0 (2 * k) RC_WALKABLE_AREA]) <$> seqZ 0 10).

(** [slope_line] with every span relabelled. *)
Definition slope_line_relabelled (id : Z) : rcHeightfield :=
  mkHeightfield 10 1 ((fun k => [mkSpan 0 (2 * k) id]) <$> seqZ 0 10).

(** Two cells along X with a single step of height 1 between them. *)
Definition single_step : rcHeightfield :=
  mkHeightfield 2 1 [[mkSpan 0 0 RC_WALKABLE_AREA]; [mkSpan 0 1 RC_WALKABLE_AREA]].

(** A 3 by 3 grid whose only span stands in the centre cell. *)
Definition lone_column : rcHeightfield :=
  mkHeightfield 3 3 (<[4%nat := [mkSpan 0 0 1]]> (replicate 9 [])).

(** One column: a walkable span and two low obstacles stacked on it. *)
Definition stacked_obstacles : rcHeightfield :=
  mkHeightfield 1 1 [[mkSpan 0 0 1; mkSpan 1 1 RC_NULL_AREA; mkSpan 2 2 RC_NULL_AREA]].

(** Three cells along X.  The two spans of the first cell both reach the
    single span of the second, which reaches both spans of the third. *)
Definition converging_chains : rcHeightfield :=
  mkHeightfield 3 1
    [[mkSpan 0 1 RC_WALKABLE_AREA; mkSpan 3 4 RC_WALKABLE_AREA];
     [mkSpan 0 2 RC_WALKABLE_AREA];
     [mkSpan 0 2 RC_WALKABLE_AREA; mkSpan 4 5 RC_WALKABLE_AREA]].


(** A chain after a sample step: as before, or longer by one span of the
    neighbour cell. *)
Definition grown_by_at_most_one (nc : nat) (before after : list spanRef) : Prop :=
  after = before \/ exists k, after = before ++ [(nc, k)].


(** Four cells along X, one walkable span each, with floors 0, 1, 1, 1. *)
Definition gentle_rise : rcHeightfield :=
  mkHeightfield 4 1
    [[mkSpan 0 0 RC_WALKABLE_AREA]; [mkSpan 0 1 RC_WALKABLE_AREA];
     [mkSpan 0 1 RC_WALKABLE_AREA]; [mkSpan 0 1 RC_WALKABLE_AREA]].

(** Three cells along X with floors rising by 2, walkable under the area
    ids 1, 1 and 5 and not under [RC_WALKABLE_AREA]. *)
Definition custom_area_slope : rcHeightfield :=
  mkHeightfield 3 1 [[mkSpan 0 0 1]; [mkSpan 0 2 1]; [mkSpan 0 4 5]].

(** A chain that the evaluation relabels on [hf]: its first span carries
    [RC_WALKABLE_AREA], it has at least one step, and the [float] quotient
    of the sum of its floor differences by the number of its steps is at
    least [SlopeThreshold]. *)
Definition chain_is_rugged (SlopeThreshold : Q) (hf : rcHeightfield)
    (chain : list spanRef) : Prop :=
  match chain with
  | [] => False
  | startSpan :: rest =>
      ref_area hf startSpan = RC_WALKABLE_AREA /\
      (0 < length rest)%nat /\
      (SlopeThreshold <=
         avgSlope (chain_total_diff hf chain) (Z.of_nat (length rest)))%Q
  end.

(** ** Notions for the further properties *)

(** [hf'] differs from [hf] only in spans that were walkable and now carry
    the area [A]. *)
Definition relabelled_only (A : Z) (hf hf' : rcHeightfield) : Prop :=
  forall r,
    span_at hf' r = span_at hf r \/
    exists s, span_at hf r = Some s /\ area s <> RC_NULL_AREA /\
              span_at hf' r = Some (with_area A s).

(** A span pointer whose span, if any, is walkable or already carries [A]. *)
Definition relabel_safe (A : Z) (hf : rcHeightfield) (r : spanRef) : Prop :=
  forall s, span_at hf r = Some s -> area s <> RC_NULL_AREA \/ area s = A.

(** A span pointer to a walkable span. *)
Definition walkable_ref (hf : rcHeightfield) (r : spanRef) : Prop :=
  exists s, span_at hf r = Some s /\ area s <> RC_NULL_AREA.

(** What chain building keeps true of a chain grown from [seed], after [t]
    sample steps from the origin cell [cell start]: the chain starts with
    its seed and holds at most [t] spans more; its [m]-th span lies in the
    cell of sample point [start + m], which is inside the grid for every
    appended span; two successive spans have floors within [walkableClimb],
    the first of them is walkable together with every span below it in its
    column, and the second is walkable. *)
Definition chain_invariant (hf : rcHeightfield) (walkableClimb : Z) (cell : Z -> nat)
    (size start : Z) (t : nat) (seed chain : list spanRef) : Prop :=
  seed `prefix_of` chain /\
  (length chain <= S t)%nat /\
  (forall m r, chain !! m = Some r ->
     r.1 = cell (start + Z.of_nat m) /\ ((0 < m)%nat -> start + Z.of_nat m < size)) /\
  (forall m a b, chain !! m = Some a -> chain !! S m = Some b ->
     Z.abs (ref_smax hf a - ref_smax hf b) <= walkableClimb /\
     (forall j, (j <= a.2)%nat -> walkable_ref hf (a.1, j)) /\
     walkable_ref hf b).

(** Two cells along X whose spans are all unwalkable. *)
Definition unwalkable_stack : rcHeightfield :=
  mkHeightfield 2 1
    [[mkSpan 0 1 RC_NULL_AREA; mkSpan 2 3 RC_NULL_AREA]; [mkSpan 0 2 RC_NULL_AREA]].

(** Two cells along X, each with a walkable span above an unwalkable bottom
    span; the walkable floors are 2 apart. *)
Definition blocked_slope : rcHeightfield :=
  mkHeightfield 2 1
    [[mkSpan 0 0 RC_NULL_AREA; mkSpan 1 2 RC_WALKABLE_AREA];
     [mkSpan 0 0 RC_NULL_AREA; mkSpan 1 4 RC_WALKABLE_AREA]].

(** Three cells along X, one walkable span each, all with floor 1. *)
Definition level_line : rcHeightfield :=
  mkHeightfield 3 1
    [[mkSpan 0 1 RC_WALKABLE_AREA]; [mkSpan 0 1 RC_WALKABLE_AREA];
     [mkSpan 0 1 RC_WALKABLE_AREA]].

(** * Properties *)

(** ** Lists and folds *)

Lemma foldl_bind {A B C} (f : A -> C -> A) (g : B -> list C) (l : list B) (a : A) :
  foldl f a (l ≫= g) = foldl (fun a x => foldl f a (g x)) a l.
Proof.
  revert a. induction l as [|x l IH]; intros a; [done|].
  rewrite bind_cons, foldl_app. apply IH.
Qed.

Lemma foldl_ext_inv {A B} (P : A -> Prop) (f g : A -> B -> A) (l : list B) (a : A) :
  P a ->
  (forall a x, P a -> x ∈ l -> f a x = g a x /\ P (g a x)) ->
  foldl f a l = foldl g a l /\ P (foldl g a l).
Proof.
  revert a. induction l as [|x l IH]; intros a Ha Hstep; [done|].
  simpl. destruct (Hstep a x Ha) as [-> Hx]; [left|].
  apply IH; [done|]. intros a' y Ha' Hy. apply Hstep; [done | by right].
Qed.

(** ** Reading and writing spans *)

Lemma span_at_set_area hf r a r' :
  span_at (set_area hf r a) r' =
  if decide (r = r') then with_area a <$> span_at hf r' else span_at hf r'.
Proof.
  destruct r as [c i], r' as [c' i']. unfold span_at, column_at, set_area. simpl.
  destruct (decide (c = c')) as [->|Hc].
  - rewrite list_lookup_alter_eq. destruct (spans hf !! c') as [col|] eqn:Hcol; simpl.
    + destruct (decide (i = i')) as [->|Hi].
      * rewrite decide_True by done. apply list_lookup_alter_eq.
      * rewrite decide_False by congruence. by apply list_lookup_alter_ne.
    + by destruct (decide _).
  - rewrite list_lookup_alter_ne by done. rewrite decide_False by congruence. done.
Qed.

Lemma fmap_alter_invisible {A B} (f : A -> B) (g : A -> A) (i : nat) (l : list A) :
  (forall x, f (g x) = f x) -> f <$> alter g i l = f <$> l.
Proof.
  intros Hfg. rewrite (list_fmap_alter f g id).
  - by apply list_alter_id.
  - apply Forall_forall. intros x _. apply Hfg.
Qed.

Lemma geometry_set_area hf r a : geometry (set_area hf r a) = geometry hf.
Proof.
  unfold geometry, set_area. simpl. f_equal.
  apply fmap_alter_invisible. intros col.
  by apply fmap_alter_invisible.
Qed.

Lemma geometry_width hf hf' : geometry hf = geometry hf' -> width hf = width hf'.
Proof. unfold geometry. congruence. Qed.

Lemma geometry_height hf hf' : geometry hf = geometry hf' -> height hf = height hf'.
Proof. unfold geometry. congruence. Qed.

Lemma geometry_column hf hf' c :
  geometry hf = geometry hf' ->
  span_geometry <$> column_at hf c = span_geometry <$> column_at hf' c.
Proof.
  unfold geometry, column_at. intros H.
  assert (Hs : (fmap (M:=list) span_geometry <$> spans hf) !! c
             = (fmap (M:=list) span_geometry <$> spans hf') !! c) by congruence.
  rewrite !list_lookup_fmap in Hs.
  destruct (spans hf !! c), (spans hf' !! c); simpl in *; congruence.
Qed.

Lemma geometry_column_length hf hf' c :
  geometry hf = geometry hf' -> length (column_at hf c) = length (column_at hf' c).
Proof.
  intros H. apply (geometry_column _ _ c) in H.
  apply (f_equal length) in H. by rewrite !length_fmap in H.
Qed.

Lemma geometry_span_at hf hf' r :
  geometry hf = geometry hf' ->
  span_geometry <$> span_at hf r = span_geometry <$> span_at hf' r.
Proof.
  intros H. unfold span_at. rewrite <- !list_lookup_fmap.
  by rewrite (geometry_column _ _ _ H).
Qed.

(** ** The raster loops as one fold over the spans of the input *)

Section raster.
Context (body : rcHeightfield -> Z -> Z -> nat -> rcHeightfield).
Hypothesis body_geometry : forall hf x z i, geometry (body hf x z i) = geometry hf.

Lemma for_each_span_flat hf :
  for_each_span body hf = foldl (fun hf k => body hf k.1.1 k.1.2 k.2) hf (all_spans hf)
  /\ geometry (for_each_span body hf) = geometry hf.
Proof.
  unfold for_each_span, all_spans.
  set (P := fun a => geometry a = geometry hf).
  rewrite foldl_bind.
  assert (H : forall l a, P a ->
    let g := fun (a : rcHeightfield) (z : Z) =>
      foldl (fun hf k => body hf k.1.1 k.1.2 k.2) a
        (seqZ 0 (width hf) ≫= fun x =>
          seq 0 (length (column_at hf (cell_index (width hf) x z))) ≫= fun i => [(x, z, i)]) in
    foldl (fun a z =>
      foldl (fun a x =>
        foldl (fun a i => body a x z i) a
          (seq 0 (length (column_at a (cell_index (width hf) x z)))))
        a (seqZ 0 (width hf))) a l = foldl g a l /\ P (foldl g a l)).
  { intros l a Ha g. apply (foldl_ext_inv P); [done|].
    clear a Ha. intros a z Ha _. subst g. simpl. rewrite foldl_bind.
    apply (foldl_ext_inv P); [done|].
    clear a Ha. intros a x Ha _. rewrite foldl_bind.
    rewrite (geometry_column_length a hf _ Ha).
    apply (foldl_ext_inv P); [done|].
    clear a Ha. intros a i Ha _. simpl. split; [done|].
    unfold P. by rewrite body_geometry. }
  destruct (H (seqZ 0 (height hf)) hf eq_refl) as [H1 H2].
  split; [exact H1|]. rewrite H1. exact H2.
Qed.
End raster.

Lemma all_spans_geometry hf hf' : geometry hf = geometry hf' -> all_spans hf = all_spans hf'.
Proof.
  intros H. unfold all_spans.
  rewrite (geometry_width _ _ H), (geometry_height _ _ H).
  apply list_bind_ext; [|done]. intros z.
  apply list_bind_ext; [|done]. intros x.
  by rewrite (geometry_column_length _ _ _ H).
Qed.

Lemma cell_index_inj xSize x z x' z' :
  0 <= x < xSize -> 0 <= z -> 0 <= x' < xSize -> 0 <= z' ->
  cell_index xSize x z = cell_index xSize x' z' -> x = x' /\ z = z'.
Proof.
  unfold cell_index. intros Hx Hz Hx' Hz' H.
  apply Z2Nat.inj in H; [|nia|nia].
  assert (z = z') by nia. subst. lia.
Qed.

Lemma elem_of_all_spans hf k :
  k ∈ all_spans hf <->
  0 <= k.1.2 < height hf /\ 0 <= k.1.1 < width hf /\
  (k.2 < length (column_at hf (cell_index (width hf) k.1.1 k.1.2)))%nat.
Proof.
  destruct k as [[x z] i]. unfold all_spans. simpl.
  rewrite list_elem_of_bind. split.
  - intros (z' & Hin & Hz). apply elem_of_seqZ in Hz.
    apply list_elem_of_bind in Hin as (x' & Hin & Hx). apply elem_of_seqZ in Hx.
    apply list_elem_of_bind in Hin as (i' & Hin & Hi). apply elem_of_seq in Hi.
    apply list_elem_of_singleton in Hin. simplify_eq. lia.
  - intros (Hz & Hx & Hi). exists z. split; [|apply elem_of_seqZ; lia].
    apply list_elem_of_bind. exists x. split; [|apply elem_of_seqZ; lia].
    apply list_elem_of_bind. exists i. split; [by apply list_elem_of_singleton|].
    apply elem_of_seq. lia.
Qed.

Lemma ref_of_inj_all_spans hf k k' :
  k ∈ all_spans hf -> k' ∈ all_spans hf ->
  ref_of (width hf) k = ref_of (width hf) k' -> k = k'.
Proof.
  intros (Hz & Hx & _)%elem_of_all_spans (Hz' & Hx' & _)%elem_of_all_spans.
  destruct k as [[x z] i], k' as [[x' z'] i']. unfold ref_of. simpl in *.
  intros [= Hc ->].
  apply cell_index_inj in Hc as [-> ->]; [done|lia..].
Qed.

Lemma NoDup_all_spans hf : NoDup (all_spans hf).
Proof.
  unfold all_spans. apply NoDup_bind; [| |apply NoDup_seqZ].
  - intros z1 z2 k _ _ H1 H2.
    apply list_elem_of_bind in H1 as (x1 & H1 & _).
    apply list_elem_of_bind in H1 as (i1 & H1 & _).
    apply list_elem_of_bind in H2 as (x2 & H2 & _).
    apply list_elem_of_bind in H2 as (i2 & H2 & _).
    apply list_elem_of_singleton in H1, H2. congruence.
  - intros z _. apply NoDup_bind; [| |apply NoDup_seqZ].
    + intros x1 x2 k _ _ H1 H2.
      apply list_elem_of_bind in H1 as (i1 & H1 & _).
      apply list_elem_of_bind in H2 as (i2 & H2 & _).
      apply list_elem_of_singleton in H1, H2. congruence.
    + intros x _. apply NoDup_bind; [| |apply NoDup_seq].
      * intros i1 i2 k _ _ H1 H2.
        apply list_elem_of_singleton in H1, H2. congruence.
      * intros i _. apply NoDup_singleton.
Qed.

Lemma NoDup_all_spans_refs hf : NoDup (ref_of (width hf) <$> all_spans hf).
Proof.
  apply NoDup_fmap_2_strong; [|apply NoDup_all_spans].
  intros k k'. apply ref_of_inj_all_spans.
Qed.

Lemma with_area_idem a (o : option rcSpan) :
  with_area a <$> (with_area a <$> o) = with_area a <$> o.
Proof. by destruct o. Qed.

Lemma span_at_foldl_set_area xSize a (L : list (Z * Z * nat)) hf r :
  span_at (foldl (fun hf k => set_area hf (ref_of xSize k) a) hf L) r =
  if decide (r ∈ ref_of xSize <$> L) then with_area a <$> span_at hf r else span_at hf r.
Proof.
  revert hf. induction L as [|k L IH]; intros hf.
  - rewrite decide_False; [done|]. apply not_elem_of_nil.
  - rewrite fmap_cons. cbn [foldl]. rewrite IH, span_at_set_area.
    destruct (decide (ref_of xSize k = r)) as [Heq|Hne];
      destruct (decide (r ∈ ref_of xSize <$> L)) as [Hin|Hin].
    + rewrite decide_True by (rewrite <- Heq; left). apply with_area_idem.
    + by rewrite decide_True by (rewrite <- Heq; left).
    + by rewrite decide_True by (by right).
    + rewrite decide_False; [done|]. intros [?|?]%elem_of_cons; congruence.
Qed.

Lemma geometry_foldl_set_area xSize a (L : list (Z * Z * nat)) hf :
  geometry (foldl (fun hf k => set_area hf (ref_of xSize k) a) hf L) = geometry hf.
Proof.
  revert hf. induction L as [|k L IH]; intros hf; simpl; [done|].
  by rewrite IH, geometry_set_area.
Qed.

(** ** Passes that only demote the visited span *)

Section demotion.
Context (xSize : Z) (dec : rcHeightfield -> Z * Z * nat -> bool).
Hypothesis dec_local : forall hf hf' k,
  geometry hf = geometry hf' ->
  span_at hf (ref_of xSize k) = span_at hf' (ref_of xSize k) ->
  dec hf k = dec hf' k.

Lemma geometry_demote_step hf k : geometry (demote_step xSize dec hf k) = geometry hf.
Proof. unfold demote_step. destruct (dec hf k); [apply geometry_set_area | done]. Qed.

Lemma demote_fold_snapshot L hf0 :
  NoDup (ref_of xSize <$> L) ->
  foldl (demote_step xSize dec) hf0 L =
  foldl (fun hf k => set_area hf (ref_of xSize k) RC_NULL_AREA) hf0 (List.filter (dec hf0) L).
Proof.
  intros Hnd.
  assert (H : forall hf,
    geometry hf = geometry hf0 ->
    (forall k, k ∈ L -> span_at hf (ref_of xSize k) = span_at hf0 (ref_of xSize k)) ->
    foldl (demote_step xSize dec) hf L =
    foldl (fun hf k => set_area hf (ref_of xSize k) RC_NULL_AREA) hf (List.filter (dec hf0) L)).
  { induction L as [|k L IH]; intros hf Hg Hs; [done|].
    simpl in Hnd. apply list.NoDup_cons in Hnd as [Hk Hnd].
    simpl. unfold demote_step at 2.
    rewrite (dec_local hf hf0 k Hg) by (apply Hs; left).
    assert (Hrest : forall hf', (hf' = hf \/ hf' = set_area hf (ref_of xSize k) RC_NULL_AREA) ->
              geometry hf' = geometry hf0 /\
              forall k', k' ∈ L -> span_at hf' (ref_of xSize k') = span_at hf0 (ref_of xSize k')).
    { intros hf' [->| ->].
      - split; [done|]. intros k' Hk'. apply Hs. by right.
      - split; [by rewrite geometry_set_area|]. intros k' Hk'.
        rewrite span_at_set_area, decide_False; [apply Hs; by right|].
        intros Heq. apply Hk. rewrite Heq. by apply list_elem_of_fmap_2. }
    destruct (dec hf0 k); simpl.
    - destruct (Hrest (set_area hf (ref_of xSize k) RC_NULL_AREA)) as [? ?]; auto.
    - destruct (Hrest hf) as [? ?]; auto. }
  by apply H.
Qed.

Lemma demote_pass_snapshot hf0 :
  xSize = width hf0 ->
  for_each_span (fun hf x z i => demote_step xSize dec hf (x, z, i)) hf0 =
  foldl (fun hf k => set_area hf (ref_of xSize k) RC_NULL_AREA) hf0
    (List.filter (dec hf0) (all_spans hf0)).
Proof.
  intros Hx.
  destruct (for_each_span_flat (fun hf x z i => demote_step xSize dec hf (x, z, i))) with (hf := hf0)
    as [-> _].
  { intros. apply geometry_demote_step. }
  rewrite <- demote_fold_snapshot.
  - apply foldl_ext_inv with (P := fun _ => True); [done|].
    by intros a [[x z] i] _ _.
  - rewrite Hx. apply NoDup_all_spans_refs.
Qed.

Lemma demote_pass_geometry hf0 :
  geometry (for_each_span (fun hf x z i => demote_step xSize dec hf (x, z, i)) hf0) = geometry hf0.
Proof.
  apply (for_each_span_flat (fun hf x z i => demote_step xSize dec hf (x, z, i))).
  intros. apply geometry_demote_step.
Qed.

Lemma demote_pass_span_at hf0 k :
  xSize = width hf0 ->
  0 <= k.1.1 < width hf0 -> 0 <= k.1.2 < height hf0 ->
  span_at (for_each_span (fun hf x z i => demote_step xSize dec hf (x, z, i)) hf0) (ref_of xSize k) =
  if dec hf0 k then with_area RC_NULL_AREA <$> span_at hf0 (ref_of xSize k)
  else span_at hf0 (ref_of xSize k).
Proof.
  intros Hx Hkx Hkz. rewrite demote_pass_snapshot by done.
  rewrite span_at_foldl_set_area.
  destruct (decide (_ ∈ _)) as [Hin|Hin].
  - apply list_elem_of_fmap in Hin as (k' & Heq & Hk').
    apply list_elem_of_In, filter_In in Hk' as [Hk' Hdec].
    apply list_elem_of_In in Hk'.
    assert (k = k') as <-.
    { pose proof Hk' as (Hz' & Hx' & _)%elem_of_all_spans.
      destruct k as [[x z] i], k' as [[x' z'] i']. unfold ref_of in Heq. simpl in *.
      injection Heq as Hc ->. rewrite Hx in Hc.
      apply cell_index_inj in Hc as [-> ->]; [done|lia..]. }
    by rewrite Hdec.
  - destruct (dec hf0 k) eqn:Hdec; [|done].
    destruct (span_at hf0 (ref_of xSize k)) as [s|] eqn:Hs; [|done].
    exfalso. apply Hin. apply list_elem_of_fmap. exists k. split; [done|].
    apply list_elem_of_In, filter_In. split; [|done].
    apply list_elem_of_In, elem_of_all_spans. split_and!; [lia..|].
    apply lookup_lt_Some in Hs. rewrite <- Hx. exact Hs.
Qed.
End demotion.

(** ** rcFilterLedgeSpans reads geometry only *)

Lemma fmap_geometry_cons_inv (s : rcSpan) (l l' : list rcSpan) :
  span_geometry <$> s :: l = span_geometry <$> l' ->
  exists s' r', l' = s' :: r' /\ smin s = smin s' /\ smax s = smax s' /\
                span_geometry <$> l = span_geometry <$> r'.
Proof.
  destruct l' as [|s' r']; [done|]. rewrite !fmap_cons. intros [= H1 H2 H3].
  by exists s', r'.
Qed.

Lemma under_chain_ceiling_geometry col col' :
  span_geometry <$> col = span_geometry <$> col' ->
  under_chain_ceiling col = under_chain_ceiling col'.
Proof.
  destruct col as [|s l]; intros H.
  - by destruct col'.
  - apply fmap_geometry_cons_inv in H as (s' & r' & -> & H1 & _ & _). done.
Qed.

Lemma scan_neighbor_chain_geometry wh wc floor ceiling col col' st :
  span_geometry <$> col = span_geometry <$> col' ->
  scan_neighbor_chain wh wc floor ceiling col st =
  scan_neighbor_chain wh wc floor ceiling col' st.
Proof.
  revert col' st. induction col as [|s l IH]; intros col' st H.
  - by destruct col'.
  - apply fmap_geometry_cons_inv in H as (s' & r' & -> & H1 & H2 & H3).
    simpl. rewrite <- H2.
    replace (match r' with [] => MAX_HEIGHTFIELD_HEIGHT | above :: _ => smin above end)
      with (match l with [] => MAX_HEIGHTFIELD_HEIGHT | above :: _ => smin above end)
      by (apply (under_chain_ceiling_geometry l r' H3)).
    rewrite !(IH r') by done. done.
Qed.

Lemma ceiling_at_geometry col col' i :
  span_geometry <$> col = span_geometry <$> col' -> ceiling_at col i = ceiling_at col' i.
Proof.
  intros H. unfold ceiling_at.
  assert (Hl : (span_geometry <$> col) !! S i = (span_geometry <$> col') !! S i) by congruence.
  rewrite !list_lookup_fmap in Hl.
  unfold span_geometry in Hl.
  destruct (col !! S i), (col' !! S i); simpl in Hl; congruence.
Qed.

Lemma scan_directions_geometry hf hf' xSize zSize wh wc x z floor ceiling dirs st :
  geometry hf = geometry hf' ->
  scan_directions hf xSize zSize wh wc x z floor ceiling dirs st =
  scan_directions hf' xSize zSize wh wc x z floor ceiling dirs st.
Proof.
  intros H. revert st. induction dirs as [|d dirs IH]; intros st; [done|].
  simpl. destruct (out_of_bounds _ _ _ _); [done|].
  rewrite (under_chain_ceiling_geometry _ _ (geometry_column hf hf' _ H)).
  destruct (_ >=? _); [done|].
  rewrite (scan_neighbor_chain_geometry _ _ _ _ _ _ _ (geometry_column hf hf' _ H)).
  apply IH.
Qed.

Lemma ledge_scan_geometry hf hf' xSize zSize wh wc x z i span :
  geometry hf = geometry hf' ->
  ledge_scan hf xSize zSize wh wc x z i span = ledge_scan hf' xSize zSize wh wc x z i span.
Proof.
  intros H. unfold ledge_scan.
  rewrite (ceiling_at_geometry _ _ i (geometry_column hf hf' _ H)).
  by apply scan_directions_geometry.
Qed.

Lemma ledge_demotes_local xSize zSize wh wc hf hf' k :
  geometry hf = geometry hf' ->
  span_at hf (ref_of xSize k) = span_at hf' (ref_of xSize k) ->
  ledge_demotes xSize zSize wh wc hf k = ledge_demotes xSize zSize wh wc hf' k.
Proof.
  intros Hg Hs. unfold ledge_demotes. rewrite Hs.
  destruct (span_at hf' _) as [span|]; [|done].
  by rewrite (ledge_scan_geometry hf hf' _ _ _ _ _ _ _ _ Hg).
Qed.

Lemma ledge_span_demote_step xSize zSize wh wc hf x z i :
  ledge_span xSize zSize wh wc hf x z i =
  demote_step xSize (ledge_demotes xSize zSize wh wc) hf (x, z, i).
Proof.
  unfold ledge_span, demote_step, ledge_demotes, ref_of. simpl.
  destruct (span_at hf _) as [span|]; [|done].
  destruct (area span =? RC_NULL_AREA); [done|]. simpl.
  by destruct (ledge_verdict _ _).
Qed.

Lemma rcFilterLedgeSpans_demote_pass wh wc hf :
  rcFilterLedgeSpans wh wc hf =
  for_each_span
    (fun hf' x z i =>
       demote_step (width hf) (ledge_demotes (width hf) (height hf) wh wc) hf' (x, z, i)) hf.
Proof.
  unfold rcFilterLedgeSpans, for_each_span.
  apply foldl_ext_inv with (P := fun _ => True); [done|]. intros a z _ _. split; [|done].
  apply foldl_ext_inv with (P := fun _ => True); [done|]. intros a' x _ _. split; [|done].
  apply foldl_ext_inv with (P := fun _ => True); [done|]. intros a'' i _ _. split; [|done].
  apply ledge_span_demote_step.
Qed.

Lemma rcFilterLedgeSpans_geometry wh wc hf :
  geometry (rcFilterLedgeSpans wh wc hf) = geometry hf.
Proof. rewrite rcFilterLedgeSpans_demote_pass. apply demote_pass_geometry. Qed.

Lemma rcFilterLedgeSpans_span_at wh wc hf x z i :
  0 <= x < width hf -> 0 <= z < height hf ->
  span_at (rcFilterLedgeSpans wh wc hf) (cell_index (width hf) x z, i) =
  if ledge_demotes (width hf) (height hf) wh wc hf (x, z, i)
  then with_area RC_NULL_AREA <$> span_at hf (cell_index (width hf) x z, i)
  else span_at hf (cell_index (width hf) x z, i).
Proof.
  intros Hx Hz. rewrite rcFilterLedgeSpans_demote_pass.
  apply (demote_pass_span_at (width hf) _ (ledge_demotes_local _ _ _ _) hf (x, z, i)); done.
Qed.

(** ** Equality of heightfields, span by span *)

Lemma heightfield_ext hf hf' :
  geometry hf = geometry hf' ->
  (forall r, span_at hf r = span_at hf' r) ->
  hf = hf'.
Proof.
  intros Hg Hs. destruct hf as [w h sp], hf' as [w' h' sp'].
  unfold geometry in Hg. simpl in Hg. injection Hg as -> -> Hsp. f_equal.
  apply list_eq. intros c.
  assert (Hc : (fmap (M:=list) span_geometry <$> sp) !! c
             = (fmap (M:=list) span_geometry <$> sp') !! c) by congruence.
  rewrite !list_lookup_fmap in Hc.
  destruct (sp !! c) as [col|] eqn:E, (sp' !! c) as [col'|] eqn:E'; simpl in Hc; try done.
  f_equal. apply list_eq. intros i.
  specialize (Hs (c, i)). unfold span_at, column_at in Hs. simpl in Hs.
  by rewrite E, E' in Hs.
Qed.

(** ** rcFilterWalkableLowHeightSpans *)

Lemma low_height_demotes_geometry xSize wh hf hf' k :
  geometry hf = geometry hf' ->
  low_height_demotes xSize wh hf k = low_height_demotes xSize wh hf' k.
Proof.
  intros Hg. unfold low_height_demotes.
  pose proof (geometry_span_at hf hf' (ref_of xSize k) Hg) as Hs.
  rewrite (ceiling_at_geometry _ _ k.2 (geometry_column hf hf' _ Hg)).
  destruct (span_at hf _) as [s|], (span_at hf' _) as [s'|]; simpl in Hs; try done.
  unfold span_geometry in Hs. by injection Hs as _ ->.
Qed.

Lemma low_height_span_demote_step xSize wh hf x z i :
  low_height_span xSize wh hf x z i =
  demote_step xSize (low_height_demotes xSize wh) hf (x, z, i).
Proof.
  unfold low_height_span, demote_step, low_height_demotes, ref_of. simpl.
  by destruct (span_at hf _) as [span|].
Qed.

Lemma rcFilterWalkableLowHeightSpans_demote_pass wh hf :
  rcFilterWalkableLowHeightSpans wh hf =
  for_each_span
    (fun hf' x z i => demote_step (width hf) (low_height_demotes (width hf) wh) hf' (x, z, i)) hf.
Proof.
  unfold rcFilterWalkableLowHeightSpans, for_each_span.
  apply foldl_ext_inv with (P := fun _ => True); [done|]. intros a z _ _. split; [|done].
  apply foldl_ext_inv with (P := fun _ => True); [done|]. intros a' x _ _. split; [|done].
  apply foldl_ext_inv with (P := fun _ => True); [done|]. intros a'' i _ _. split; [|done].
  apply low_height_span_demote_step.
Qed.

Lemma rcFilterWalkableLowHeightSpans_geometry wh hf :
  geometry (rcFilterWalkableLowHeightSpans wh hf) = geometry hf.
Proof. rewrite rcFilterWalkableLowHeightSpans_demote_pass. apply demote_pass_geometry. Qed.

Lemma rcFilterWalkableLowHeightSpans_snapshot wh hf :
  rcFilterWalkableLowHeightSpans wh hf =
  foldl (fun hf' k => set_area hf' (ref_of (width hf) k) RC_NULL_AREA) hf
    (List.filter (low_height_demotes (width hf) wh hf) (all_spans hf)).
Proof.
  rewrite rcFilterWalkableLowHeightSpans_demote_pass.
  apply demote_pass_snapshot; [|done].
  intros h1 h2 k Hg _. by apply low_height_demotes_geometry.
Qed.

Lemma rcFilterWalkableLowHeightSpans_span_at wh hf x z i :
  0 <= x < width hf -> 0 <= z < height hf ->
  span_at (rcFilterWalkableLowHeightSpans wh hf) (cell_index (width hf) x z, i) =
  if low_height_demotes (width hf) wh hf (x, z, i)
  then with_area RC_NULL_AREA <$> span_at hf (cell_index (width hf) x z, i)
  else span_at hf (cell_index (width hf) x z, i).
Proof.
  intros Hx Hz. rewrite rcFilterWalkableLowHeightSpans_demote_pass.
  apply (demote_pass_span_at (width hf) _) with (k := (x, z, i)); [|done..].
  intros h1 h2 k Hg _. by apply low_height_demotes_geometry.
Qed.

Lemma rcFilterWalkableLowHeightSpans_idempotent wh hf :
  rcFilterWalkableLowHeightSpans wh (rcFilterWalkableLowHeightSpans wh hf) =
  rcFilterWalkableLowHeightSpans wh hf.
Proof.
  pose proof (rcFilterWalkableLowHeightSpans_geometry wh hf) as Hg.
  rewrite (rcFilterWalkableLowHeightSpans_snapshot wh (rcFilterWalkableLowHeightSpans wh hf)).
  rewrite (all_spans_geometry _ _ Hg), (geometry_width _ _ Hg).
  rewrite (filter_ext _ _ (fun k => low_height_demotes_geometry (width hf) wh _ hf k Hg)).
  rewrite (rcFilterWalkableLowHeightSpans_snapshot wh hf).
  set (L := List.filter _ _).
  apply heightfield_ext.
  - by rewrite !geometry_foldl_set_area.
  - intros r. rewrite !span_at_foldl_set_area.
    destruct (decide _); [apply with_area_idem | done].
Qed.

(** ** rcFilterLedgeSpans, run twice *)

Lemma rcFilterLedgeSpans_snapshot wh wc hf :
  rcFilterLedgeSpans wh wc hf = rcFilterLedgeSpans_two_phase wh wc hf.
Proof.
  rewrite rcFilterLedgeSpans_demote_pass. unfold rcFilterLedgeSpans_two_phase.
  apply demote_pass_snapshot; [|done]. apply ledge_demotes_local.
Qed.

Lemma rcFilterLedgeSpans_settled wh wc hf k :
  k ∈ all_spans hf ->
  ledge_demotes (width hf) (height hf) wh wc (rcFilterLedgeSpans wh wc hf) k = false.
Proof.
  intros (Hz & Hx & _)%elem_of_all_spans.
  destruct k as [[x z] i]. simpl in *.
  pose proof (rcFilterLedgeSpans_span_at wh wc hf x z i Hx Hz) as Hs.
  destruct (ledge_demotes _ _ wh wc hf (x, z, i)) eqn:Hdec.
  - unfold ledge_demotes, ref_of. simpl. rewrite Hs.
    by destruct (span_at hf _).
  - rewrite <- Hdec. apply ledge_demotes_local; [apply rcFilterLedgeSpans_geometry | done].
Qed.

Lemma rcFilterLedgeSpans_idempotent wh wc hf :
  rcFilterLedgeSpans wh wc (rcFilterLedgeSpans wh wc hf) = rcFilterLedgeSpans wh wc hf.
Proof.
  pose proof (rcFilterLedgeSpans_geometry wh wc hf) as Hg.
  rewrite (rcFilterLedgeSpans_snapshot wh wc (rcFilterLedgeSpans wh wc hf)).
  unfold rcFilterLedgeSpans_two_phase.
  rewrite (all_spans_geometry _ _ Hg), (geometry_width _ _ Hg), (geometry_height _ _ Hg).
  rewrite (filter_ext_in _ (fun _ => false)), filter_false; [done|].
  intros k Hk. apply rcFilterLedgeSpans_settled. by apply list_elem_of_In.
Qed.

(** ** The neighbour scan of rcFilterLedgeSpans *)

Section ledge_scan_facts.
Context (wh wc floor ceiling : Z).

Lemma scan_neighbor_chain_lowest_le col st :
  lowestNeighborFloorDifference (scan_neighbor_chain wh wc floor ceiling col st)
  <= lowestNeighborFloorDifference st.
Proof.
  revert st. induction col as [|n rest IH]; intros st; simpl; [lia|].
  destruct (_ <? wh); [apply IH|].
  destruct (_ <=? wc); [etrans; [apply IH | simpl; lia]|].
  destruct (_ <? - wc); [simpl; lia|].
  etrans; [apply IH | simpl; lia].
Qed.

Lemma scan_neighbor_chain_fold col st :
  (forall f, f ∈ qualifying_floors wh floor ceiling col -> - wc <= f - floor) ->
  scan_neighbor_chain wh wc floor ceiling col st =
  foldl (fold_floor wc floor) st (qualifying_floors wh floor ceiling col).
Proof.
  revert st. induction col as [|n rest IH]; intros st Hq; [done|].
  simpl in *. fold (under_chain_ceiling rest) in *.
  destruct (_ <? wh) eqn:Hov; [by apply IH|].
  assert (Hn : - wc <= smax n - floor) by (apply Hq; left).
  assert (Hrest : forall f, f ∈ qualifying_floors wh floor ceiling rest -> - wc <= f - floor)
    by (intros f Hf; apply Hq; by right).
  simpl. unfold fold_floor at 2.
  destruct (Z.abs (smax n - floor) <=? wc) eqn:Habs.
  - by rewrite IH.
  - destruct (smax n - floor <? - wc) eqn:Hlt; [lia|]. by rewrite IH.
Qed.

Lemma scan_neighbor_chain_drop col st :
  (exists f, f ∈ qualifying_floors wh floor ceiling col /\ f - floor < - wc) ->
  lowestNeighborFloorDifference (scan_neighbor_chain wh wc floor ceiling col st) < - wc.
Proof.
  revert st. induction col as [|n rest IH]; intros st (f & Hf & Hlt).
  - by apply elem_of_nil in Hf.
  - simpl in *. fold (under_chain_ceiling rest) in *.
    destruct (_ <? wh) eqn:Hov; [apply IH; eauto|].
    apply elem_of_cons in Hf as [->|Hf].
    + destruct (Z.abs (smax n - floor) <=? wc) eqn:Habs; [lia|].
      destruct (smax n - floor <? - wc) eqn:Hlt'; [simpl; lia | lia].
    + destruct (Z.abs (smax n - floor) <=? wc) eqn:Habs; [apply IH; eauto|].
      destruct (smax n - floor <? - wc) eqn:Hlt'; [simpl; lia | apply IH; eauto].
Qed.

Lemma foldl_fold_floor_lowest st fs :
  lowestNeighborFloorDifference (foldl (fold_floor wc floor) st fs) =
  foldl Z.min (lowestNeighborFloorDifference st) ((fun f => f - floor) <$> fs).
Proof. revert st. induction fs as [|f fs IH]; intros st; [done|]. simpl. by rewrite IH. Qed.

Lemma foldl_fold_floor_low st fs :
  lowestTraversableNeighborFloor (foldl (fold_floor wc floor) st fs) =
  foldl Z.min (lowestTraversableNeighborFloor st) (traversable_floors wc floor fs).
Proof.
  revert st. induction fs as [|f fs IH]; intros st; [done|]. simpl. rewrite IH. simpl.
  by destruct (_ <=? wc).
Qed.

Lemma foldl_fold_floor_high st fs :
  highestTraversableNeighborFloor (foldl (fold_floor wc floor) st fs) =
  foldl Z.max (highestTraversableNeighborFloor st) (traversable_floors wc floor fs).
Proof.
  revert st. induction fs as [|f fs IH]; intros st; [done|]. simpl. rewrite IH. simpl.
  by destruct (_ <=? wc).
Qed.

Context (hf : rcHeightfield) (xSize zSize x z : Z).

Lemma scan_directions_cons d later st :
  scan_directions hf xSize zSize wh wc x z floor ceiling (d :: later) st =
  if direction_exits hf xSize zSize wh x z floor ceiling d
  then ledge_sentinel wc st
  else scan_directions hf xSize zSize wh wc x z floor ceiling later
         (scan_neighbor_chain wh wc floor ceiling
            (column_at hf (cell_index xSize (x + rcGetDirOffsetX d) (z + rcGetDirOffsetY d))) st).
Proof.
  unfold direction_exits. simpl. destruct (out_of_bounds _ _ _ _); [done|]. simpl.
  by destruct (_ >=? wh).
Qed.

Lemma scan_directions_exit dirs st :
  (exists d, d ∈ dirs /\ direction_exits hf xSize zSize wh x z floor ceiling d = true) ->
  lowestNeighborFloorDifference
    (scan_directions hf xSize zSize wh wc x z floor ceiling dirs st) = - wc - 1.
Proof.
  revert st. induction dirs as [|d later IH]; intros st (d' & Hd' & Hex).
  - by apply elem_of_nil in Hd'.
  - rewrite scan_directions_cons.
    destruct (direction_exits _ _ _ _ _ _ _ _ d) eqn:Hd; [done|].
    apply IH. exists d'. split; [|done].
    apply elem_of_cons in Hd' as [->|?]; [congruence | done].
Qed.

Lemma scan_directions_traversable_unchanged dirs st :
  neighbor_floors hf xSize zSize wh x z floor ceiling dirs = [] ->
  lowestTraversableNeighborFloor
    (scan_directions hf xSize zSize wh wc x z floor ceiling dirs st)
    = lowestTraversableNeighborFloor st /\
  highestTraversableNeighborFloor
    (scan_directions hf xSize zSize wh wc x z floor ceiling dirs st)
    = highestTraversableNeighborFloor st.
Proof.
  revert st. induction dirs as [|d later IH]; intros st Hn; [done|].
  rewrite scan_directions_cons.
  destruct (direction_exits _ _ _ _ _ _ _ _ d) eqn:Hd; [done|].
  unfold neighbor_floors in Hn. rewrite bind_cons in Hn.
  apply app_eq_nil in Hn as [Hq Hn].
  unfold direction_exits in Hd. apply orb_false_iff in Hd as [Hoob _].
  rewrite Hoob in Hq.
  rewrite scan_neighbor_chain_fold by (rewrite Hq; intros f Hf; by apply elem_of_nil in Hf).
  rewrite Hq. simpl. by apply IH.
Qed.

Lemma scan_directions_keeps_drop dirs st :
  lowestNeighborFloorDifference st < - wc ->
  lowestNeighborFloorDifference
    (scan_directions hf xSize zSize wh wc x z floor ceiling dirs st) < - wc.
Proof.
  revert st. induction dirs as [|d later IH]; intros st Hst; [done|].
  rewrite scan_directions_cons.
  destruct (direction_exits _ _ _ _ _ _ _ _ d); [simpl; lia|].
  apply IH. eapply Z.le_lt_trans; [apply scan_neighbor_chain_lowest_le | done].
Qed.

Lemma scan_directions_drop dirs st :
  (exists f, f ∈ neighbor_floors hf xSize zSize wh x z floor ceiling dirs /\ f - floor < - wc) ->
  lowestNeighborFloorDifference
    (scan_directions hf xSize zSize wh wc x z floor ceiling dirs st) < - wc.
Proof.
  revert st. induction dirs as [|d later IH]; intros st (f & Hf & Hlt).
  - by apply elem_of_nil in Hf.
  - rewrite scan_directions_cons.
    destruct (direction_exits _ _ _ _ _ _ _ _ d) eqn:Hd; [simpl; lia|].
    unfold neighbor_floors in Hf. rewrite bind_cons in Hf.
    unfold direction_exits in Hd. apply orb_false_iff in Hd as [Hoob _].
    rewrite Hoob in Hf. apply elem_of_app in Hf as [Hf|Hf].
    + apply scan_directions_keeps_drop, scan_neighbor_chain_drop. eauto.
    + apply IH. eauto.
Qed.

Lemma scan_directions_fold dirs st :
  (forall d, d ∈ dirs -> direction_exits hf xSize zSize wh x z floor ceiling d = false) ->
  (forall f, f ∈ neighbor_floors hf xSize zSize wh x z floor ceiling dirs -> - wc <= f - floor) ->
  scan_directions hf xSize zSize wh wc x z floor ceiling dirs st =
  foldl (fold_floor wc floor) st (neighbor_floors hf xSize zSize wh x z floor ceiling dirs).
Proof.
  revert st. induction dirs as [|d later IH]; intros st Hex Hfs; [done|].
  rewrite scan_directions_cons, (Hex d) by left.
  unfold neighbor_floors in *. rewrite bind_cons in *.
  pose proof (Hex d ltac:(left)) as Hd.
  unfold direction_exits in Hd. apply orb_false_iff in Hd as [Hoob _].
  rewrite Hoob in *. rewrite foldl_app.
  rewrite scan_neighbor_chain_fold by (intros f Hf; apply Hfs, elem_of_app; by left).
  apply IH.
  - intros d' Hd'. apply Hex. by right.
  - intros f Hf. apply Hfs, elem_of_app. by right.
Qed.
End ledge_scan_facts.

Lemma ledge_verdict_true wc st :
  ledge_verdict wc st = true <->
  lowestNeighborFloorDifference st < - wc \/
  highestTraversableNeighborFloor st - lowestTraversableNeighborFloor st > wc.
Proof.
  unfold ledge_verdict. destruct (_ <? - wc) eqn:H1.
  - split; [left; lia | done].
  - rewrite Z.gtb_gt. split; [right; lia | intros [?|?]; lia].
Qed.

Lemma foldl_min_lower_bound (b a : Z) (l : list Z) :
  b <= a -> (forall v, v ∈ l -> b <= v) -> b <= foldl Z.min a l.
Proof.
  revert a. induction l as [|v l IH]; intros a Ha Hl; [done|]. simpl.
  apply IH; [|intros; apply Hl; by right].
  apply Z.min_glb; [done|]. apply Hl. left.
Qed.

Lemma exists_or_forall_false {A} (p : A -> bool) (l : list A) :
  (exists v, v ∈ l /\ p v = true) \/ (forall v, v ∈ l -> p v = false).
Proof.
  induction l as [|v l [(w & Hw & Hp)|IH]].
  - right. intros v Hv. by apply elem_of_nil in Hv.
  - left. exists w. split; [by right | done].
  - destruct (p v) eqn:Hv.
    + left. exists v. split; [left | done].
    + right. intros w [->|Hw]%elem_of_cons; [done | by apply IH].
Qed.

(** The outcome of the scan, in terms of the neighbourhood of the span. *)
Lemma ledge_scan_lowest_iff hf xSize zSize wh wc x z floor ceiling st :
  - wc <= lowestNeighborFloorDifference st ->
  let final := scan_directions hf xSize zSize wh wc x z floor ceiling (seqZ 0 4) st in
  let floors := neighbor_floors hf xSize zSize wh x z floor ceiling (seqZ 0 4) in
  (lowestNeighborFloorDifference final < - wc <->
     (exists d, d ∈ seqZ 0 4 /\ direction_exits hf xSize zSize wh x z floor ceiling d = true) \/
     (exists f, f ∈ floors /\ f - floor < - wc)) /\
  (~ lowestNeighborFloorDifference final < - wc ->
     final = foldl (fold_floor wc floor) st floors).
Proof.
  intros Hst final floors.
  destruct (exists_or_forall_false
              (direction_exits hf xSize zSize wh x z floor ceiling) (seqZ 0 4)) as [Hex|Hno].
  { assert (lowestNeighborFloorDifference final = - wc - 1)
      by (by apply scan_directions_exit).
    split; [split; [auto | lia] | lia]. }
  destruct (exists_or_forall_false (fun f => f - floor <? - wc) floors) as [Hdrop|Hall].
  { assert (lowestNeighborFloorDifference final < - wc).
    { apply scan_directions_drop. destruct Hdrop as (f & Hf & Hlt). exists f. split; [done | lia]. }
    split; [split; [|done] | done].
    intros _. right. destruct Hdrop as (f & Hf & Hlt). exists f. split; [done | lia]. }
  assert (Hall' : forall f, f ∈ floors -> - wc <= f - floor).
  { intros f Hf. specialize (Hall f Hf). simpl in Hall. lia. }
  assert (Hfold : final = foldl (fold_floor wc floor) st floors)
    by (by apply scan_directions_fold).
  assert (Hge : - wc <= lowestNeighborFloorDifference final).
  { rewrite Hfold, foldl_fold_floor_lowest. apply foldl_min_lower_bound; [done|].
    intros v (f & -> & Hf)%list_elem_of_fmap. by apply Hall'. }
  split; [|done]. split; [lia|].
  intros [(d & Hd & Hexit)|(f & Hf & Hlt)].
  - rewrite (Hno d Hd) in Hexit. done.
  - specialize (Hall' f Hf). lia.
Qed.

Lemma ledge_demotes_verdict wh wc hf x z i span :
  span_at hf (cell_index (width hf) x z, i) = Some span ->
  area span <> RC_NULL_AREA ->
  ledge_demotes (width hf) (height hf) wh wc hf (x, z, i) =
  ledge_verdict wc (ledge_scan hf (width hf) (height hf) wh wc x z i span).
Proof.
  intros Hs Ha. unfold ledge_demotes, ref_of. simpl. rewrite Hs.
  apply Z.eqb_neq in Ha. by rewrite Ha.
Qed.

(** C1.  A walkable span is set to the unwalkable area by
    [rcFilterLedgeSpans] exactly when, after the scan of its four
    neighbours, the lowest neighbour floor difference recorded is below
    [-walkableClimb] or the highest and lowest traversable neighbour floors
    recorded are more than [walkableClimb] apart; otherwise the span is left
    as it was.  The lowest difference recorded is below [-walkableClimb]
    exactly when a direction left the scan early or a neighbour with enough
    overlap lies more than [walkableClimb] lower; when it is not, the three
    recorded values are the minimum of the differences of all neighbours
    with enough overlap (from [MAX_HEIGHTFIELD_HEIGHT]) and the minimum and
    maximum of the traversable neighbour floors (both from the span's own
    floor).  A span without any neighbour of enough overlap keeps its own
    floor as both, and is demoted only by the first test. *)
Theorem rcFilterLedgeSpans_demotes_iff
    (walkableHeight walkableClimb : Z) (hf : rcHeightfield)
    (x z : Z) (i : nat) (span : rcSpan) :
  0 <= walkableHeight -> 0 <= walkableClimb ->
  0 <= x < width hf -> 0 <= z < height hf ->
  span_at hf (cell_index (width hf) x z, i) = Some span ->
  area span <> RC_NULL_AREA ->
  let floor := smax span in
  let ceiling := ceiling_at (column_at hf (cell_index (width hf) x z)) i in
  let st := ledge_scan hf (width hf) (height hf) walkableHeight walkableClimb x z i span in
  let floors :=
    neighbor_floors hf (width hf) (height hf) walkableHeight x z floor ceiling (seqZ 0 4) in
  let demoted :=
    lowestNeighborFloorDifference st < - walkableClimb \/
    highestTraversableNeighborFloor st - lowestTraversableNeighborFloor st > walkableClimb in
  (exists span',
     span_at (rcFilterLedgeSpans walkableHeight walkableClimb hf)
       (cell_index (width hf) x z, i) = Some span' /\
     smin span' = smin span /\ smax span' = smax span /\
     (area span' = RC_NULL_AREA <-> demoted) /\
     (~ demoted -> area span' = area span)) /\
  (lowestNeighborFloorDifference st < - walkableClimb <->
     (exists d, d ∈ seqZ 0 4 /\
        direction_exits hf (width hf) (height hf) walkableHeight x z floor ceiling d = true) \/
     (exists f, f ∈ floors /\ f - floor < - walkableClimb)) /\
  (~ lowestNeighborFloorDifference st < - walkableClimb ->
     lowestNeighborFloorDifference st =
       foldl Z.min MAX_HEIGHTFIELD_HEIGHT ((fun f => f - floor) <$> floors) /\
     lowestTraversableNeighborFloor st =
       foldl Z.min floor (traversable_floors walkableClimb floor floors) /\
     highestTraversableNeighborFloor st =
       foldl Z.max floor (traversable_floors walkableClimb floor floors)) /\
  (floors = [] ->
     lowestTraversableNeighborFloor st = floor /\
     highestTraversableNeighborFloor st = floor /\
     (demoted <-> lowestNeighborFloorDifference st < - walkableClimb)).
Proof.
  intros Hwh Hwc Hx Hz Hs Ha floor ceiling st floors demoted.
  pose proof (rcFilterLedgeSpans_span_at walkableHeight walkableClimb hf x z i Hx Hz) as Hres.
  rewrite (ledge_demotes_verdict _ _ _ _ _ _ span Hs Ha), Hs in Hres.
  fold st in Hres.
  pose proof (ledge_verdict_true walkableClimb st) as Hv. fold demoted in Hv.
  assert (Hinit : - walkableClimb <= lowestNeighborFloorDifference
            {| lowestNeighborFloorDifference := MAX_HEIGHTFIELD_HEIGHT;
               lowestTraversableNeighborFloor := smax span;
               highestTraversableNeighborFloor := smax span |}).
  { simpl. unfold MAX_HEIGHTFIELD_HEIGHT. lia. }
  assert (Hscan :
    (lowestNeighborFloorDifference st < - walkableClimb <->
       (exists d, d ∈ seqZ 0 4 /\
          direction_exits hf (width hf) (height hf) walkableHeight x z floor ceiling d = true) \/
       (exists f, f ∈ floors /\ f - floor < - walkableClimb)) /\
    (~ lowestNeighborFloorDifference st < - walkableClimb ->
       st = foldl (fold_floor walkableClimb floor)
              {| lowestNeighborFloorDifference := MAX_HEIGHTFIELD_HEIGHT;
                 lowestTraversableNeighborFloor := smax span;
                 highestTraversableNeighborFloor := smax span |} floors))
    by exact (ledge_scan_lowest_iff hf (width hf) (height hf) walkableHeight walkableClimb
                x z floor ceiling _ Hinit).
  destruct Hscan as [Hlow Hfold].
  split_and!.
  - destruct (ledge_verdict walkableClimb st) eqn:Hverdict.
    + exists (with_area RC_NULL_AREA span). simpl. split_and!; try done.
      * by split; [intros _; apply Hv|].
      * intros Hn. destruct Hn. by apply Hv.
    + exists span. split_and!; try done.
      split; [done|]. intros Hd. apply Hv in Hd. done.
  - exact Hlow.
  - intros Hn. rewrite (Hfold Hn).
    by rewrite foldl_fold_floor_lowest, foldl_fold_floor_low, foldl_fold_floor_high.
  - intros Hnone.
    assert (Hkeep : lowestTraversableNeighborFloor st = floor /\
                    highestTraversableNeighborFloor st = floor)
      by exact (scan_directions_traversable_unchanged walkableHeight walkableClimb floor ceiling
                  hf (width hf) (height hf) x z (seqZ 0 4)
                  {| lowestNeighborFloorDifference := MAX_HEIGHTFIELD_HEIGHT;
                     lowestTraversableNeighborFloor := smax span;
                     highestTraversableNeighborFloor := smax span |} Hnone).
    destruct Hkeep as [Hl Hh].
    split_and!; [done..|]. unfold demoted. rewrite Hl, Hh. lia.
Qed.






(** C8.  [rcFilterWalkableLowHeightSpans] sets the area of a span to the
    unwalkable area exactly when its ceiling minus its floor is below
    [walkableHeight], whatever the span's area was, and leaves every other
    span as it was.  The floor is the span's [smax]; the ceiling is the
    [smin] of the next span of the column, and 0xffff = 65535 for the
    topmost span.  The outcome for a column depends on that column alone. *)
Theorem rcFilterWalkableLowHeightSpans_demotes_iff
    (walkableHeight : Z) (hf : rcHeightfield) (x z : Z) :
  0 <= x < width hf -> 0 <= z < height hf ->
  let c := cell_index (width hf) x z in
  let after := column_at (rcFilterWalkableLowHeightSpans walkableHeight hf) c in
  (forall i span next,
     column_at hf c !! i = Some span ->
     column_at hf c !! S i = Some next ->
     after !! i =
     Some (if decide (smin next - smax span < walkableHeight)
           then with_area RC_NULL_AREA span else span)) /\
  (forall i span,
     column_at hf c !! i = Some span ->
     column_at hf c !! S i = None ->
     after !! i =
     Some (if decide (65535 - smax span < walkableHeight)
           then with_area RC_NULL_AREA span else span)) /\
  length after = length (column_at hf c) /\
  (forall hf',
     width hf' = width hf -> height hf' = height hf ->
     column_at hf' c = column_at hf c ->
     column_at (rcFilterWalkableLowHeightSpans walkableHeight hf') c = after).
Proof.
  intros Hx Hz c after.
  assert (Hpoint : forall h, width h = width hf -> height h = height hf ->
            forall i, column_at (rcFilterWalkableLowHeightSpans walkableHeight h) c !! i =
              (fun span => if decide (ceiling_at (column_at h c) i - smax span < walkableHeight)
                           then with_area RC_NULL_AREA span else span) <$> column_at h c !! i).
  { intros h Hw Hh i.
    pose proof (rcFilterWalkableLowHeightSpans_span_at walkableHeight h x z i) as H.
    rewrite Hw, Hh in H. specialize (H Hx Hz). fold c in H.
    unfold span_at in H. simpl in H. rewrite H.
    unfold low_height_demotes, span_at, ref_of. simpl. fold c.
    destruct (column_at h c !! i) as [span|]; [|done]. simpl.
    destruct (_ <? walkableHeight) eqn:Hlt.
    - rewrite decide_True by lia. done.
    - rewrite decide_False by lia. done. }
  split_and!.
  - intros i span next Hs Hn. subst after. rewrite (Hpoint hf) by done. rewrite Hs.
    unfold ceiling_at. by rewrite Hn.
  - intros i span Hs Hn. subst after. rewrite (Hpoint hf) by done. rewrite Hs.
    unfold ceiling_at. by rewrite Hn.
  - apply geometry_column_length, rcFilterWalkableLowHeightSpans_geometry.
  - intros hf' Hw Hh Hc. apply list_eq. intros i. subst after.
    rewrite (Hpoint hf'), (Hpoint hf) by done. by rewrite Hc.
Qed.

Lemma foldl_set_null_only_demotes xSize (L : list (Z * Z * nat)) hf r s' :
  span_at (foldl (fun hf k => set_area hf (ref_of xSize k) RC_NULL_AREA) hf L) r = Some s' ->
  exists s, span_at hf r = Some s /\ smin s' = smin s /\ smax s' = smax s /\
            (area s' = area s \/ area s' = RC_NULL_AREA).
Proof.
  rewrite span_at_foldl_set_area. destruct (decide _) as [_|_].
  - destruct (span_at hf r) as [s|]; [|done]. intros [= <-]. exists s. simpl. auto.
  - intros Hs. exists s'. auto.
Qed.

(** C9.  Running [rcFilterWalkableLowHeightSpans] twice with the same
    [walkableHeight] gives the heightfield of one run, and so does running
    [rcFilterLedgeSpans] twice with the same parameters.  Either pass
    leaves a span with its area or with the unwalkable area, and with its
    heights. *)
Theorem low_height_and_ledge_idempotent
    (walkableHeight walkableClimb : Z) (hf : rcHeightfield) :
  rcFilterWalkableLowHeightSpans walkableHeight
    (rcFilterWalkableLowHeightSpans walkableHeight hf)
  = rcFilterWalkableLowHeightSpans walkableHeight hf /\
  rcFilterLedgeSpans walkableHeight walkableClimb
    (rcFilterLedgeSpans walkableHeight walkableClimb hf)
  = rcFilterLedgeSpans walkableHeight walkableClimb hf /\
  (forall r s',
     span_at (rcFilterWalkableLowHeightSpans walkableHeight hf) r = Some s' \/
     span_at (rcFilterLedgeSpans walkableHeight walkableClimb hf) r = Some s' ->
     exists s, span_at hf r = Some s /\ smin s' = smin s /\ smax s' = smax s /\
               (area s' = area s \/ area s' = RC_NULL_AREA)).
Proof.
  split_and!.
  - apply rcFilterWalkableLowHeightSpans_idempotent.
  - apply rcFilterLedgeSpans_idempotent.
  - intros r s' [H|H].
    + rewrite rcFilterWalkableLowHeightSpans_snapshot in H.
      by apply foldl_set_null_only_demotes in H.
    + rewrite rcFilterLedgeSpans_snapshot in H. unfold rcFilterLedgeSpans_two_phase in H.
      by apply foldl_set_null_only_demotes in H.
Qed.

(** C10.  [rcFilterLedgeSpans], which writes areas while it walks the grid,
    yields the heightfield of the two-phase variant that decides every
    demotion on the untouched input and applies the demotions afterwards:
    the decision for a span reads the heights and the chain structure of
    the heightfield and the area of that span only. *)
Theorem rcFilterLedgeSpans_refines_two_phase
    (walkableHeight walkableClimb : Z) (hf : rcHeightfield) :
  rcFilterLedgeSpans walkableHeight walkableClimb hf
  = rcFilterLedgeSpans_two_phase walkableHeight walkableClimb hf /\
  (forall hf' k,
     geometry hf = geometry hf' ->
     span_at hf (ref_of (width hf) k) = span_at hf' (ref_of (width hf) k) ->
     ledge_demotes (width hf) (height hf) walkableHeight walkableClimb hf k =
     ledge_demotes (width hf) (height hf) walkableHeight walkableClimb hf' k).
Proof.
  split.
  - apply rcFilterLedgeSpans_snapshot.
  - intros hf' k. apply ledge_demotes_local.
Qed.

(** ** rcFilterLowHangingWalkableObstacles *)

Lemma foldl_alter_lookup {A} (f : A -> A) (cs : list nat) (l : list A) (c : nat) :
  NoDup cs ->
  foldl (fun l c => alter f c l) l cs !! c =
  if decide (c ∈ cs) then f <$> l !! c else l !! c.
Proof.
  revert l. induction cs as [|c0 cs IH]; intros l Hnd.
  - rewrite decide_False; [done|]. apply not_elem_of_nil.
  - apply list.NoDup_cons in Hnd as [Hc0 Hnd]. cbn [foldl]. rewrite IH by done.
    destruct (decide (c = c0)) as [->|Hne].
    + rewrite decide_False by done. rewrite decide_True by left.
      apply list_lookup_alter_eq.
    + rewrite list_lookup_alter_ne by done.
      destruct (decide (c ∈ cs)) as [Hin|Hin].
      * by rewrite decide_True by (by right).
      * rewrite decide_False; [done|]. intros [?|?]%elem_of_cons; done.
Qed.

Lemma NoDup_all_cells hf : NoDup (all_cells hf).
Proof.
  unfold all_cells. apply NoDup_bind; [| |apply NoDup_seqZ].
  - intros z1 z2 c Hz1 Hz2 H1 H2.
    apply elem_of_seqZ in Hz1, Hz2.
    apply list_elem_of_bind in H1 as (x1 & H1 & Hx1%elem_of_seqZ).
    apply list_elem_of_bind in H2 as (x2 & H2 & Hx2%elem_of_seqZ).
    apply list_elem_of_singleton in H1, H2. subst c.
    apply cell_index_inj in H2 as [_ ?]; [done|lia..].
  - intros z Hz. apply elem_of_seqZ in Hz. apply NoDup_bind; [| |apply NoDup_seqZ].
    + intros x1 x2 c Hx1%elem_of_seqZ Hx2%elem_of_seqZ H1 H2.
      apply list_elem_of_singleton in H1, H2. subst c.
      apply cell_index_inj in H2 as [? _]; [done|lia..].
    + intros x _. apply NoDup_singleton.
Qed.

Lemma elem_of_all_cells hf x z :
  0 <= x < width hf -> 0 <= z < height hf -> cell_index (width hf) x z ∈ all_cells hf.
Proof.
  intros Hx Hz. unfold all_cells.
  apply list_elem_of_bind. exists z. split; [|apply elem_of_seqZ; lia].
  apply list_elem_of_bind. exists x. split; [|apply elem_of_seqZ; lia].
  by apply list_elem_of_singleton.
Qed.

Lemma rcFilterLowHangingWalkableObstacles_flat walkableClimb hf :
  rcFilterLowHangingWalkableObstacles walkableClimb hf =
  {| width := width hf; height := height hf;
     spans := foldl (fun l c => alter (low_obstacles_chain walkableClimb None false RC_NULL_AREA) c l)
                    (spans hf) (all_cells hf) |}.
Proof.
  unfold rcFilterLowHangingWalkableObstacles, all_cells.
  set (f := low_obstacles_chain walkableClimb None false RC_NULL_AREA).
  set (g := fun l c => alter f c l).
  set (xSize := width hf).
  assert (H : forall (zs : list Z) (a : rcHeightfield),
    foldl (fun hf' z =>
      foldl (fun hf'' x =>
        {| width := width hf''; height := height hf'';
           spans := alter f (cell_index xSize x z) (spans hf'') |}) hf' (seqZ 0 xSize)) a zs =
    {| width := width a; height := height a;
       spans := foldl g (spans a) (zs ≫= fun z => seqZ 0 xSize ≫= fun x => [cell_index xSize x z]) |}).
  { induction zs as [|z zs IH]; intros a; [by destruct a|].
    cbn [foldl]. rewrite IH, bind_cons, foldl_app. clear IH.
    assert (Hrow : forall (xs : list Z) (b : rcHeightfield),
      foldl (fun hf'' x =>
        {| width := width hf''; height := height hf'';
           spans := alter f (cell_index xSize x z) (spans hf'') |}) b xs =
      {| width := width b; height := height b;
         spans := foldl g (spans b) (xs ≫= fun x => [cell_index xSize x z]) |}).
    { induction xs as [|x xs IHx]; intros b; [by destruct b|].
      cbn [foldl]. by rewrite IHx. }
    by rewrite Hrow. }
  apply H.
Qed.

Lemma rcFilterLowHangingWalkableObstacles_column walkableClimb hf x z :
  0 <= x < width hf -> 0 <= z < height hf ->
  column_at (rcFilterLowHangingWalkableObstacles walkableClimb hf) (cell_index (width hf) x z) =
  low_obstacles_chain walkableClimb None false RC_NULL_AREA
    (column_at hf (cell_index (width hf) x z)).
Proof.
  intros Hx Hz. rewrite rcFilterLowHangingWalkableObstacles_flat.
  unfold column_at. simpl.
  rewrite foldl_alter_lookup by apply NoDup_all_cells.
  rewrite decide_True by (by apply elem_of_all_cells).
  by destruct (spans hf !! _).
Qed.

Lemma low_obstacles_chain_lookup walkableClimb chain :
  forall below previousSpan previousWasWalkable previousAreaID i span,
  carried below previousSpan previousWasWalkable previousAreaID ->
  chain !! i = Some span ->
  let under := match i with O => below | S j => chain !! j end in
  exists span',
    low_obstacles_chain walkableClimb previousSpan previousWasWalkable previousAreaID chain !! i
      = Some span' /\
    smin span' = smin span /\ smax span' = smax span /\
    (low_obstacle_promoted walkableClimb under span ->
       forall p, under = Some p -> area span' = area p) /\
    (~ low_obstacle_promoted walkableClimb under span -> span' = span).
Proof.
  induction chain as [|s rest IH]; intros below ps pw pa i span Hc Hi under; [done|].
  destruct i as [|i].
  - simpl in Hi. injection Hi as ->. subst under. simpl.
    eexists. split; [done|].
    destruct (area span =? RC_NULL_AREA) eqn:Ha; simpl.
    2:{ apply Z.eqb_neq in Ha. repeat split; try done.
        all: by intros (Ha' & _). }
    apply Z.eqb_eq in Ha.
    destruct below as [p|]; simpl in Hc.
    2:{ subst pw. simpl. repeat split; try done.
        all: by intros (_ & p' & ? & _). }
    destruct Hc as (-> & -> & Hpa).
    destruct (area p =? RC_NULL_AREA) eqn:Hp; simpl.
    { apply Z.eqb_eq in Hp. repeat split; try done.
      all: by intros (_ & p' & [= <-] & Hp' & _). }
    apply Z.eqb_neq in Hp.
    destruct (smax span - smax p <=? walkableClimb) eqn:Hstep.
    + repeat split; try done.
      * intros _ p' [= <-]. simpl. by apply Hpa.
      * intros Hn. exfalso. apply Hn. split; [done|]. exists p.
        split_and!; [done..|lia].
    + repeat split; try done.
      all: intros (_ & p' & [= <-] & _ & Hle); lia.
  - simpl in Hi. cbn [low_obstacles_chain]. rewrite lookup_cons_ne_0 by done. simpl.
    set (walkable := negb (area s =? RC_NULL_AREA)).
    match goal with |- context [low_obstacles_chain _ (Some s) walkable ?pa' rest] =>
      set (pa'' := pa') end.
    assert (Hc' : carried (Some s) (Some s) walkable pa'').
    { simpl. split_and!; try done. intros Hw. subst pa'' walkable.
      apply negb_true_iff in Hw. rewrite Hw. done. }
    destruct (IH (Some s) (Some s) walkable pa'' i span Hc' Hi) as (span' & H1 & H2 & H3 & H4 & H5).
    exists span'. split; [done|]. split; [done|]. split; [done|].
    subst under. replace ((s :: rest) !! i) with (match i with O => Some s | S j => rest !! j end)
      by (by destruct i).
    done.
Qed.

Lemma low_obstacle_promoted_dec walkableClimb below span :
  low_obstacle_promoted walkableClimb below span \/
  ~ low_obstacle_promoted walkableClimb below span.
Proof.
  unfold low_obstacle_promoted.
  destruct (decide (area span = RC_NULL_AREA)) as [Ha|Ha]; [|right; by intros [? _]].
  destruct below as [p|]; [|right; by intros (_ & p & ? & _)].
  destruct (decide (area p = RC_NULL_AREA)) as [Hp|Hp].
  { right. by intros (_ & p' & [= <-] & ? & _). }
  destruct (decide (smax span - smax p <= walkableClimb)) as [Hle|Hle].
  - left. eauto.
  - right. by intros (_ & p' & [= <-] & _ & ?).
Qed.

(** C2.  Walking a column bottom to top,
    [rcFilterLowHangingWalkableObstacles] changes the area of a span exactly
    when the span is not walkable, the span right below it was walkable in
    the input and [smax] of the span minus [smax] of the one below is at
    most [walkableClimb]; the span then takes the area of the span below,
    and its heights stay.  The walkability carried to the next span is the
    one of the input, so a span above a span that was not walkable in the
    input is left as it was, whether or not that span was promoted. *)
Theorem rcFilterLowHangingWalkableObstacles_promotes_iff
    (walkableClimb : Z) (hf : rcHeightfield) (x z : Z) (i : nat) (span : rcSpan) :
  0 <= x < width hf -> 0 <= z < height hf ->
  let c := cell_index (width hf) x z in
  column_at hf c !! i = Some span ->
  let below := match i with O => None | S j => column_at hf c !! j end in
  exists span',
    column_at (rcFilterLowHangingWalkableObstacles walkableClimb hf) c !! i = Some span' /\
    smin span' = smin span /\ smax span' = smax span /\
    (area span' <> area span <->
       area span = RC_NULL_AREA /\
       exists p, below = Some p /\ area p <> RC_NULL_AREA /\
                 smax span - smax p <= walkableClimb) /\
    (forall p, below = Some p -> area span' <> area span ->
       area span' = area p /\
       exists p', column_at (rcFilterLowHangingWalkableObstacles walkableClimb hf) c
                    !! pred i = Some p' /\ area p' = area p) /\
    (forall p, below = Some p -> area p = RC_NULL_AREA -> span' = span).
Proof.
  intros Hx Hz c Hs below.
  pose proof (rcFilterLowHangingWalkableObstacles_column walkableClimb hf x z Hx Hz) as Hcol.
  fold c in Hcol. rewrite Hcol. clear Hcol.
  destruct (low_obstacles_chain_lookup walkableClimb (column_at hf c)
              None None false RC_NULL_AREA i span eq_refl Hs)
    as (span' & Hl & Hmin & Hmax & Hyes & Hno).
  fold below in Hyes, Hno.
  fold (low_obstacle_promoted walkableClimb below span).
  assert (Hiff : area span' <> area span <-> low_obstacle_promoted walkableClimb below span).
  { split.
    - intros Hne. destruct (low_obstacle_promoted_dec walkableClimb below span) as [?|Hn]; [done|].
      rewrite (Hno Hn) in Hne. done.
    - intros Hp. pose proof Hp as (Ha & p & Hb & Hpa & _).
      rewrite (Hyes Hp p Hb), Ha. done. }
  exists span'. split_and!; try done.
  - intros p Hb Hne. apply Hiff in Hne. split; [by apply Hyes|].
    destruct i as [|j]; [done|]. simpl. subst below.
    destruct Hne as (_ & p0 & Hb0 & Hp0 & _). rewrite Hb in Hb0. injection Hb0 as <-.
    destruct (low_obstacles_chain_lookup walkableClimb (column_at hf c)
                None None false RC_NULL_AREA j p eq_refl Hb)
      as (p' & Hl' & _ & _ & _ & Hno').
    exists p'. split; [done|]. rewrite Hno'; [done|]. by intros (? & _).
  - intros p Hb Hp. apply Hno. intros (_ & p0 & Hb0 & Hp0 & _).
    rewrite Hb in Hb0. by injection Hb0 as <-.
Qed.


(** ** Single-precision rounding

    The rounded value is within half a unit in the last place of its
    argument, conversion is exact on integers below [2 ^ 24], and so the
    quotient the pass compares with its threshold is within a relative
    error of [2 ^ -24] of the exact average. *)

Lemma round_half_even_near n d :
  0 < d -> 2 * Z.abs (n - round_half_even n d * d) <= d.
Proof.
  intros Hd. unfold round_half_even.
  pose proof (Z.div_mod n d ltac:(lia)) as Hdm.
  pose proof (Z.mod_pos_bound n d Hd) as Hr.
  destruct (2 * (n mod d) <? d) eqn:H1; [nia|].
  destruct (d <? 2 * (n mod d)) eqn:H2; [nia|].
  destruct (Z.even (n / d)); nia.
Qed.

Lemma round_half_even_unit n : round_half_even n 1 = n.
Proof.
  unfold round_half_even. rewrite Z.div_1_r, Z.mod_1_r. reflexivity.
Qed.

Lemma f32_exponent_le p q :
  0 < p -> 0 < q ->
  snd (scale2 p q (f32_exponent p q)) <= fst (scale2 p q (f32_exponent p q)).
Proof.
  intros Hp Hq. unfold f32_exponent.
  set (e0 := Z.log2 p - Z.log2 q).
  destruct (snd (scale2 p q e0) <=? fst (scale2 p q e0)) eqn:Ht; [lia|].
  pose proof (Z.log2_spec p Hp) as [Hp1 Hp2].
  pose proof (Z.log2_spec q Hq) as [Hq1 Hq2].
  pose proof (Z.log2_nonneg p) as Hlp. pose proof (Z.log2_nonneg q) as Hlq.
  unfold scale2. destruct (0 <=? e0 - 1) eqn:He; simpl.
  - assert (Z.log2 p = Z.log2 q + 1 + (e0 - 1)) as Heq by (subst e0; lia).
    rewrite Heq in Hp1. rewrite Z.pow_add_r in Hp1 by lia.
    rewrite Z.pow_succ_r in Hq2 by lia.
    assert (0 < 2 ^ (e0 - 1)) by (apply Z.pow_pos_nonneg; lia).
    rewrite Z.pow_add_r in Hp1 by lia. nia.
  - assert (Z.log2 q + 1 = Z.log2 p + - (e0 - 1)) as Heq by (subst e0; lia).
    rewrite Z.pow_succ_r in Hq2 by lia.
    replace (2 * 2 ^ Z.log2 q) with (2 ^ (Z.log2 q + 1)) in Hq2
      by (rewrite Z.pow_add_r by lia; lia).
    rewrite Heq in Hq2. rewrite Z.pow_add_r in Hq2 by lia.
    assert (0 < 2 ^ (- (e0 - 1))) by (apply Z.pow_pos_nonneg; lia).
    nia.
Qed.

Lemma scale2_mantissa p q e :
  0 < p -> 0 < q ->
  snd (scale2 p q e) <= fst (scale2 p q e) ->
  0 < snd (scale2 p q (e - 23)) /\
  2 ^ 23 * snd (scale2 p q (e - 23)) <= fst (scale2 p q (e - 23)).
Proof.
  intros Hp Hq. unfold scale2.
  destruct (0 <=? e) eqn:He; destruct (0 <=? e - 23) eqn:He'; simpl; intros H; try lia.
  - assert (0 < 2 ^ (e - 23)) by (apply Z.pow_pos_nonneg; lia).
    replace e with (23 + (e - 23)) in H at 1 by lia.
    rewrite Z.pow_add_r in H by lia. split; nia.
  - assert (0 < 2 ^ (- (e - 23))) by (apply Z.pow_pos_nonneg; lia).
    assert (2 ^ 23 = 2 ^ e * 2 ^ (- (e - 23))) as ->
      by (rewrite <- Z.pow_add_r by lia; f_equal; lia).
    assert (0 < 2 ^ e) by (apply Z.pow_pos_nonneg; lia).
    split; [lia|nia].
  - assert (0 < 2 ^ (- e)) by (apply Z.pow_pos_nonneg; lia).
    replace (- (e - 23)) with (23 + - e) by lia.
    rewrite Z.pow_add_r by lia. split; [lia|nia].
Qed.

Lemma f32_round_rel_error (x : Q) :
  0 < Qnum x -> (Qabs (f32_round x - x) <= x * (1 # 16777216))%Q.
Proof.
  destruct x as [p q']. simpl. intros Hp.
  unfold f32_round. simpl Qnum. simpl Qden.
  rewrite (Z.abs_eq p) by lia.
  destruct (p =? 0) eqn:Hp0; [lia|].
  destruct (p <? 0) eqn:Hneg; [lia|].
  set (q := Z.pos q').
  assert (Hq : 0 < q) by (subst q; lia).
  set (e := f32_exponent p q).
  pose proof (f32_exponent_le p q Hp Hq) as Hle. fold e in Hle.
  pose proof (scale2_mantissa p q e Hp Hq Hle) as [Hd Hn].
  pose proof (round_half_even_near (fst (scale2 p q (e - 23))) _ Hd) as Hnear.
  set (m := round_half_even _ _) in *.
  unfold scale2 in Hd, Hn, Hnear.
  apply Qabs_Qle_condition.
  destruct (0 <=? e - 23) eqn:He; simpl in Hd, Hn, Hnear.
  - set (T := 2 ^ (e - 23)) in *.
    assert (0 < T) by (subst T; apply Z.pow_pos_nonneg; lia).
    unfold Qle, Qminus, Qplus, Qopp, Qmult, inject_Z. simpl.
    fold q. rewrite ?Pos2Z.inj_mul. fold q. nia.
  - set (U := 2 ^ (- (e - 23))) in *.
    assert (0 < U) by (subst U; apply Z.pow_pos_nonneg; lia).
    replace (23 - e) with (- (e - 23)) by lia. fold U.
    unfold Qle, Qminus, Qplus, Qopp, Qmult. simpl.
    rewrite ?Pos2Z.inj_mul. fold q. rewrite ?Z2Pos.id by lia. nia.
Qed.

Lemma f32_exponent_int a : 0 < a -> f32_exponent a 1 = Z.log2 a.
Proof.
  intros Ha. unfold f32_exponent. change (Z.log2 1) with 0. rewrite Z.sub_0_r.
  pose proof (Z.log2_nonneg a) as Hl. pose proof (Z.log2_spec a Ha) as [H1 _].
  unfold scale2. destruct (0 <=? Z.log2 a) eqn:He; [|lia]. simpl.
  destruct (1 * 2 ^ Z.log2 a <=? a) eqn:Ht; [done|lia].
Qed.

Lemma f32_of_int_exact a :
  0 <= a < 2 ^ 24 -> (f32_of_int a == inject_Z a)%Q.
Proof.
  intros [Ha0 Ha]. unfold f32_of_int, f32_round. simpl Qnum. simpl Qden.
  rewrite (Z.abs_eq a) by lia.
  destruct (a =? 0) eqn:Hz; [apply Z.eqb_eq in Hz; by subst|].
  apply Z.eqb_neq in Hz. destruct (a <? 0) eqn:Hneg; [lia|].
  rewrite f32_exponent_int by lia.
  assert (He : Z.log2 a < 24) by (apply Z.log2_lt_pow2; lia).
  pose proof (Z.log2_nonneg a) as Hl.
  unfold scale2. destruct (0 <=? Z.log2 a - 23) eqn:Hc; simpl.
  - replace (Z.log2 a - 23) with 0 by lia. rewrite Z.pow_0_r, Z.mul_1_r.
    rewrite round_half_even_unit. unfold Qeq. simpl. lia.
  - rewrite round_half_even_unit.
    assert (0 < 2 ^ (23 - Z.log2 a)) by (apply Z.pow_pos_nonneg; lia).
    replace (- (Z.log2 a - 23)) with (23 - Z.log2 a) by lia.
    unfold Qeq. simpl. rewrite Z2Pos.id by lia. lia.
Qed.

Lemma avgSlope_rel_error a b :
  0 <= a < 2 ^ 24 -> 0 < b < 2 ^ 24 ->
  (Qabs (avgSlope a b - inject_Z a / inject_Z b)
   <= (inject_Z a / inject_Z b) * (1 # 16777216))%Q.
Proof.
  intros Ha Hb. unfold avgSlope, f32_div.
  pose proof (f32_of_int_exact a Ha) as Hfa.
  pose proof (f32_of_int_exact b ltac:(lia)) as Hfb.
  set (x := (f32_of_int a / f32_of_int b)%Q).
  assert (Hx : (x == inject_Z a / inject_Z b)%Q) by (subst x; by rewrite Hfa, Hfb).
  clearbody x.
  destruct (decide (a = 0)) as [->|Hne].
  - assert (Hx0 : Qnum x = 0).
    { assert (x == 0)%Q as H0 by (rewrite Hx; unfold Qdiv; by rewrite Qmult_0_l).
      unfold Qeq in H0. simpl in H0. lia. }
    unfold f32_round. rewrite Hx0. simpl.
    unfold Qdiv. rewrite !Qmult_0_l. done.
  - assert (Hpos : 0 < Qnum x).
    { assert (0 < x)%Q as H0.
      { rewrite Hx. apply Qlt_shift_div_l; [unfold Qlt; simpl; lia|].
        rewrite Qmult_0_l. unfold Qlt. simpl. lia. }
      unfold Qlt in H0. simpl in H0. lia. }
    pose proof (f32_round_rel_error x Hpos) as H.
    set (r := f32_round x) in *. by rewrite Hx in H.
Qed.

Lemma avgSlope_threshold a b (thr : Q) :
  0 <= a < 2 ^ 24 -> 0 < b < 2 ^ 24 ->
  let exact := (inject_Z a / inject_Z b)%Q in
  ((thr <= exact * (1 - (1 # 16777216)))%Q -> (thr <= avgSlope a b)%Q) /\
  ((thr <= avgSlope a b)%Q -> (thr <= exact * (1 + (1 # 16777216)))%Q).
Proof.
  intros Ha Hb exact.
  pose proof (avgSlope_rel_error a b Ha Hb) as H. fold exact in H.
  apply Qabs_Qle_condition in H as [H1 H2].
  split; intros Ht; lra.
Qed.

Lemma chain_total_diff_nonneg hf chain : 0 <= chain_total_diff hf chain.
Proof.
  induction chain as [|a tl IH]; [done|]. cbn [chain_total_diff].
  destruct tl as [|b tl']; [done|]. lia.
Qed.

(** ** rcFilterRuggedAreaSpans *)

Lemma span_at_mark_chain id hf chain r :
  span_at (mark_chain id hf chain) r =
  if decide (r ∈ chain) then with_area (area_of_int id) <$> span_at hf r else span_at hf r.
Proof.
  unfold mark_chain. revert hf. induction chain as [|r0 chain IH]; intros hf.
  - rewrite decide_False; [done|]. apply not_elem_of_nil.
  - cbn [foldl]. rewrite IH, span_at_set_area.
    destruct (decide (r0 = r)) as [Heq|Hne];
      destruct (decide (r ∈ chain)) as [Hin|Hin].
    + rewrite decide_True by (rewrite <- Heq; left). apply with_area_idem.
    + by rewrite decide_True by (rewrite <- Heq; left).
    + by rewrite decide_True by (by right).
    + rewrite decide_False; [done|]. intros [?|?]%elem_of_cons; congruence.
Qed.

Lemma geometry_mark_chain id hf chain : geometry (mark_chain id hf chain) = geometry hf.
Proof.
  unfold mark_chain. revert hf. induction chain as [|r chain IH]; intros hf; [done|].
  cbn [foldl]. by rewrite IH, geometry_set_area.
Qed.

Lemma sum_steps_total hf previous rest TotalDiff Count :
  sum_steps hf previous rest TotalDiff Count =
  (TotalDiff + chain_total_diff hf (previous :: rest), Count + Z.of_nat (length rest)).
Proof.
  revert previous TotalDiff Count. induction rest as [|r rest IH]; intros previous T C.
  - simpl. f_equal; lia.
  - cbn [sum_steps]. rewrite IH. cbn [chain_total_diff length]. f_equal; lia.
Qed.

Lemma area_of_int_id v : 0 <= v < 2 ^ RC_AREA_BITS -> area_of_int v = v.
Proof. intros H. unfold area_of_int. by apply Z.mod_small. Qed.

Lemma geometry_evaluate_chain thr id hf chain :
  geometry (evaluate_chain thr id hf chain) = geometry hf.
Proof.
  unfold evaluate_chain. destruct chain as [|start rest]; [done|].
  repeat case_match; try done. apply geometry_mark_chain.
Qed.

Lemma geometry_EvaluateRuggedArea chains thr id hf :
  geometry (_EvaluateRuggedArea chains thr id hf) = geometry hf.
Proof.
  unfold _EvaluateRuggedArea. revert hf.
  induction chains as [|ch chains IH]; intros hf; [done|].
  cbn [foldl]. by rewrite IH, geometry_evaluate_chain.
Qed.

Lemma geometry_rugged_span xSize zSize wc thr id hf x z i :
  geometry (rugged_span xSize zSize wc thr id hf x z i) = geometry hf.
Proof.
  unfold rugged_span, rugged_axis.
  repeat case_match; try done; by rewrite ?geometry_EvaluateRuggedArea.
Qed.

(** First match only, and one more span at most per chain and step. *)
Lemma extend_first_chain_first_match CurrentSpan NeighborSpan chains :
  (Forall (fun ch => list.last ch <> Some CurrentSpan) chains /\
   extend_first_chain CurrentSpan NeighborSpan chains = chains) \/
  (exists before ch after,
     chains = before ++ ch :: after /\
     Forall (fun ch => list.last ch <> Some CurrentSpan) before /\
     list.last ch = Some CurrentSpan /\
     extend_first_chain CurrentSpan NeighborSpan chains =
       before ++ (ch ++ [NeighborSpan]) :: after).
Proof.
  induction chains as [|ch chains IH]; [left; by split|].
  simpl. destruct (decide (list.last ch = Some CurrentSpan)) as [Hl|Hl].
  - right. exists [], ch, chains. by split_and!.
  - destruct IH as [[Hall Heq]|(before & ch' & after & -> & Hall & Hl' & Heq)].
    + left. split; [by constructor|]. by rewrite Heq.
    + right. exists (ch :: before), ch', after. rewrite Heq.
      split_and!; try done. by constructor.
Qed.

Lemma extend_first_chain_grows cc nc j k (chains0 chains : list (list spanRef)) :
  cc <> nc ->
  Forall2 (grown_by_at_most_one nc) chains0 chains ->
  Forall2 (grown_by_at_most_one nc) chains0 (extend_first_chain (cc, j) (nc, k) chains).
Proof.
  intros Hne H. induction H as [|ch0 ch chains0 chains Hg H IH]; [constructor|].
  simpl. case_decide as Hl.
  - constructor; [|done]. destruct Hg as [->|(k' & ->)].
    + right. by exists k.
    + rewrite last_snoc in Hl. by injection Hl as ->.
  - by constructor.
Qed.

Lemma neighbor_span_loop_grows wc floor cc nc j neighbor :
  cc <> nc ->
  forall k (chains0 chains : list (list spanRef)),
  Forall2 (grown_by_at_most_one nc) chains0 chains ->
  Forall2 (grown_by_at_most_one nc) chains0
    (neighbor_span_loop wc floor (cc, j) nc k neighbor chains).
Proof.
  intros Hne. induction neighbor as [|n rest IH]; intros k chains0 chains H; [done|].
  simpl. destruct (area n =? RC_NULL_AREA); [by apply IH|].
  apply IH. destruct (_ <=? wc); [by apply extend_first_chain_grows | done].
Qed.

Lemma sample_step_grows hf wc cc nc chains :
  cc <> nc ->
  Forall2 (grown_by_at_most_one nc) chains (sample_step hf wc cc nc chains).
Proof.
  intros Hne. unfold sample_step.
  assert (H : forall current j (chains0 chains' : list (list spanRef)),
    Forall2 (grown_by_at_most_one nc) chains0 chains' ->
    Forall2 (grown_by_at_most_one nc) chains0
      (current_span_loop wc cc nc (column_at hf nc) j current chains')).
  { induction current as [|s rest IH]; intros j chains0 chains' H; [done|].
    simpl. destruct (area s =? RC_NULL_AREA); [done|].
    apply IH. by apply neighbor_span_loop_grows. }
  apply H. apply Forall2_same_length_lookup. split; [done|].
  intros i ch ch' H1 H2. left. congruence.
Qed.

Lemma grown_by_at_most_one_length nc before after :
  grown_by_at_most_one nc before after -> (length after <= S (length before))%nat.
Proof. intros [->|(k & ->)]; [lia|]. rewrite length_app. simpl. lia. Qed.

(** After [n] sample steps a chain holds at most [n] spans more. *)
Lemma sample_steps_length hf wc cell size n :
  (forall p, 0 <= p -> cell p <> cell (p + 1)) ->
  forall start (chains : list (list spanRef)),
  0 <= start ->
  Forall2 (fun before after => (length after <= length before + n)%nat) chains
    (sample_steps hf wc cell size n start (start + 1) chains).
Proof.
  intros Hcell. induction n as [|n IH]; intros start chains Hstart.
  - simpl. apply Forall2_same_length_lookup. split; [done|].
    intros i ch ch' H1 H2. assert (ch = ch') as -> by congruence. lia.
  - simpl. destruct (_ || _).
    + apply Forall2_same_length_lookup. split; [done|].
      intros i ch ch' H1 H2. assert (ch = ch') as -> by congruence. lia.
    + pose proof (sample_step_grows hf wc (cell start) (cell (start + 1)) chains
                    (Hcell start Hstart)) as Hstep.
      pose proof (IH (start + 1) (sample_step hf wc (cell start) (cell (start + 1)) chains)
                    ltac:(lia)) as Hrest.
      apply Forall2_same_length_lookup. split.
      * etrans; [eapply Forall2_length, Hstep | eapply Forall2_length, Hrest].
      * intros i ch ch' H1 H2.
        destruct (Forall2_lookup_l _ _ _ _ _ Hstep H1) as (mid & Hmid & Hg).
        destruct (Forall2_lookup_l _ _ _ _ _ Hrest Hmid) as (ch'' & Hch'' & Hl).
        assert (ch'' = ch') as -> by congruence.
        apply grown_by_at_most_one_length in Hg. lia.
Qed.

(** The chains of an origin span hold at most ten spans each, along X and
    along Z. *)
Lemma rugged_chains_length hf wc xSize x z size span chain :
  0 <= x < xSize -> 0 <= z ->
  chain ∈ sample_steps hf wc (fun p => cell_index xSize p z) size MAX_SLOPE_SAMPLE_STEP
            x (x + 1) (_InitSpanListInColume hf span) \/
  chain ∈ sample_steps hf wc (fun p => cell_index xSize x p) size MAX_SLOPE_SAMPLE_STEP
            z (z + 1) (_InitSpanListInColume hf span) ->
  (length chain <= 10)%nat.
Proof.
  intros Hx Hz Hin.
  assert (Hgen : forall cell start,
    (forall p, 0 <= p -> cell p <> cell (p + 1)) -> 0 <= start ->
    chain ∈ sample_steps hf wc cell size MAX_SLOPE_SAMPLE_STEP start (start + 1)
              (_InitSpanListInColume hf span) ->
    (length chain <= 10)%nat).
  { intros cell start Hcell Hstart (i & Hi)%list_elem_of_lookup.
    pose proof (sample_steps_length hf wc cell size MAX_SLOPE_SAMPLE_STEP Hcell start
                  (_InitSpanListInColume hf span) Hstart) as Hlen.
    destruct (Forall2_lookup_r _ _ _ _ _ Hlen Hi) as (ch0 & Hch0 & Hl).
    unfold _InitSpanListInColume in Hch0.
    apply list_lookup_fmap_Some in Hch0 as (j & -> & _).
    simpl in Hl. unfold MAX_SLOPE_SAMPLE_STEP in Hl. lia. }
  destruct Hin as [Hin|Hin]; (eapply Hgen; [|shelve|exact Hin]).
  - intros p Hp. unfold cell_index. intros Heq. apply Z2Nat.inj in Heq; nia.
  - intros p Hp. unfold cell_index. intros Heq. apply Z2Nat.inj in Heq; nia.
  Unshelve. all: lia.
Qed.

(** With heights up to [MAX_HEIGHTFIELD_HEIGHT], the sum along a chain of at
    most ten spans stays below [2 ^ 24]. *)
Lemma chain_total_diff_bound hf chain :
  (forall r s, span_at hf r = Some s -> 0 <= smax s <= MAX_HEIGHTFIELD_HEIGHT) ->
  chain_total_diff hf chain <= MAX_HEIGHTFIELD_HEIGHT * Z.of_nat (pred (length chain)).
Proof.
  intros Hh.
  assert (Hr : forall r, 0 <= ref_smax hf r <= MAX_HEIGHTFIELD_HEIGHT).
  { intros r. unfold ref_smax. destruct (span_at hf r) as [s|] eqn:Hs; simpl.
    - by apply (Hh r).
    - unfold MAX_HEIGHTFIELD_HEIGHT. lia. }
  induction chain as [|a tl IH]; [simpl; lia|]. cbn [chain_total_diff].
  destruct tl as [|b tl']; [simpl; lia|].
  pose proof (Hr a). pose proof (Hr b).
  cbn [length pred] in *. unfold MAX_HEIGHTFIELD_HEIGHT in *. lia.
Qed.

Lemma evaluate_chain_cases thr id hf startSpan rest :
  let chain := startSpan :: rest in
  let steps := Z.of_nat (length chain) - 1 in
  let relabelled :=
    ref_area hf startSpan = RC_WALKABLE_AREA /\ 0 < steps /\
    (thr <= avgSlope (chain_total_diff hf chain) steps)%Q in
  (relabelled -> evaluate_chain thr id hf chain = mark_chain id hf chain) /\
  (~ relabelled -> evaluate_chain thr id hf chain = hf).
Proof.
  intros chain steps relabelled. subst relabelled chain. unfold evaluate_chain.
  rewrite sum_steps_total. cbn [fst snd].
  replace (0 + Z.of_nat (length rest)) with steps
    by (subst steps; cbn [length]; lia).
  rewrite Z.add_0_l.
  destruct (ref_area hf startSpan =? RC_WALKABLE_AREA) eqn:Ha; simpl.
  2:{ apply Z.eqb_neq in Ha. split; [by intros [? _] | done]. }
  apply Z.eqb_eq in Ha.
  destruct (steps >? 0) eqn:Hs.
  2:{ split; [|done]. intros (_ & ? & _). lia. }
  destruct (Qle_bool thr _) eqn:Hq.
  - apply Qle_bool_iff in Hq. split; [done|]. intros Hn. destruct Hn.
    split_and!; [done|lia|done].
  - split; [|done]. intros (_ & _ & Hle).
    apply Qle_bool_iff in Hle. congruence.
Qed.

Lemma small_range_cases (P : Z -> Prop) (n : nat) :
  (forall k, (k < n)%nat -> P (Z.of_nat k)) -> forall v, 0 <= v < Z.of_nat n -> P v.
Proof. intros H v Hv. rewrite <- (Z2Nat.id v) by lia. apply H. lia. Qed.

Lemma rugged_scenarios_checked :
  forallb
    (fun id =>
       bool_decide (rcFilterRuggedAreaSpans 0 3 (3 # 2) id slope_line
                    = slope_line_relabelled id) &&
       bool_decide (rcFilterRuggedAreaSpans 0 3 (3 # 2) id single_step = single_step))
    (seqZ 0 64) = true.
Proof. vm_compute. reflexivity. Qed.

(** [walkableHeight] is a parameter the pass never reads. *)
Lemma rcFilterRuggedAreaSpans_walkableHeight wh wc thr id hf :
  rcFilterRuggedAreaSpans wh wc thr id hf = rcFilterRuggedAreaSpans 0 wc thr id hf.
Proof. reflexivity. Qed.

(** C4.  On ten single-span walkable columns along X whose floors rise by 2
    per cell, with [walkableClimb = 3] and [SlopeThreshold = 1.5],
    [rcFilterRuggedAreaSpans] gives all ten spans the area [RuggedAreaID]:
    the nine sample steps append one span each to the seed of the first
    origin, so its chain holds ten spans, with nine steps of average 2, and
    the whole chain is relabelled.  On two cells with a single step of
    height 1 the average step is 1 and no span changes. *)
Theorem rcFilterRuggedAreaSpans_scenario (walkableHeight RuggedAreaID : Z) :
  0 <= RuggedAreaID < 2 ^ RC_AREA_BITS ->
  (forall x, 0 <= x < 10 ->
     span_at slope_line (cell_index 10 x 0, 0%nat)
       = Some (mkSpan 0 (2 * x) RC_WALKABLE_AREA) /\
     span_at (rcFilterRuggedAreaSpans walkableHeight 3 (3 # 2) RuggedAreaID slope_line)
       (cell_index 10 x 0, 0%nat) = Some (mkSpan 0 (2 * x) RuggedAreaID)) /\
  rcFilterRuggedAreaSpans walkableHeight 3 (3 # 2) RuggedAreaID slope_line
    = slope_line_relabelled RuggedAreaID /\
  sample_steps slope_line 3 (fun p => cell_index 10 p 0) 10 MAX_SLOPE_SAMPLE_STEP 0 1
    (_InitSpanListInColume slope_line (0%nat, 0%nat))
    = [(fun c => (c, 0%nat)) <$> seq 0 10] /\
  chain_total_diff slope_line ((fun c => (c, 0%nat)) <$> seq 0 10) = 18 /\
  (avgSlope (chain_total_diff slope_line ((fun c => (c, 0%nat)) <$> seq 0 10)) 9 == 2)%Q /\
  rcFilterRuggedAreaSpans walkableHeight 3 (3 # 2) RuggedAreaID single_step = single_step /\
  sample_steps single_step 3 (fun p => cell_index 2 p 0) 2 MAX_SLOPE_SAMPLE_STEP 0 1
    (_InitSpanListInColume single_step (0%nat, 0%nat))
    = [[(0%nat, 0%nat); (1%nat, 0%nat)]] /\
  (avgSlope (chain_total_diff single_step [(0%nat, 0%nat); (1%nat, 0%nat)]) 1 == 1)%Q.
Proof.
  intros Hid.
  assert (Hin : In RuggedAreaID (seqZ 0 64)).
  { apply list_elem_of_In, elem_of_seqZ. unfold RC_AREA_BITS in Hid. lia. }
  pose proof (proj1 (forallb_forall _ _) rugged_scenarios_checked _ Hin) as Hc.
  cbv beta in Hc. apply andb_true_iff in Hc as [H1 H2].
  apply bool_decide_eq_true in H1. apply bool_decide_eq_true in H2.
  rewrite !(rcFilterRuggedAreaSpans_walkableHeight walkableHeight).
  split_and!.
  - intros x Hx. rewrite H1. revert x Hx.
    apply (small_range_cases _ 10). intros k Hk.
    do 10 (destruct k as [|k]; [split; vm_compute; reflexivity|]). lia.
  - exact H1.
  - vm_compute. reflexivity.
  - vm_compute. reflexivity.
  - vm_compute. reflexivity.
  - exact H2.
  - vm_compute. reflexivity.
  - vm_compute. reflexivity.
Qed.

(** The pass does not stop at nine spans.  On [slope_line], with
    [walkableClimb = 3], [SlopeThreshold = 1.5] and [RuggedAreaID = 5], the
    chain of the first origin has ten spans, not nine, and the span of the
    tenth cell, walkable before, carries the area 5 afterwards: the spans
    relabelled are not the first nine only. *)
Lemma rcFilterRuggedAreaSpans_scenario_counterexample :
  (forall chain,
     chain ∈ sample_steps slope_line 3 (fun p => cell_index 10 p 0) 10
               MAX_SLOPE_SAMPLE_STEP 0 1 (_InitSpanListInColume slope_line (0%nat, 0%nat)) ->
     length chain = 10%nat /\ (cell_index 10 9 0, 0%nat) ∈ chain) /\
  span_at slope_line (cell_index 10 9 0, 0%nat) = Some (mkSpan 0 18 RC_WALKABLE_AREA) /\
  span_at (rcFilterRuggedAreaSpans 2 3 (3 # 2) 5 slope_line) (cell_index 10 9 0, 0%nat)
    = Some (mkSpan 0 18 5) /\
  ~ (forall x, 0 <= x < 10 ->
       (ref_area (rcFilterRuggedAreaSpans 2 3 (3 # 2) 5 slope_line) (cell_index 10 x 0, 0%nat)
        = 5 <-> x < 9)).
Proof.
  split_and!.
  - intros chain Hin.
    assert (Hch : sample_steps slope_line 3 (fun p => cell_index 10 p 0) 10
                    MAX_SLOPE_SAMPLE_STEP 0 1 (_InitSpanListInColume slope_line (0%nat, 0%nat))
                  = [(fun c => (c, 0%nat)) <$> seq 0 10]) by (vm_compute; reflexivity).
    rewrite Hch in Hin. apply list_elem_of_singleton in Hin as ->.
    split; [reflexivity|]. vm_compute. do 9 right. left.
  - reflexivity.
  - vm_compute. reflexivity.
  - intros H. specialize (H 9 ltac:(lia)). destruct H as [H _].
    assert (H9 : ref_area (rcFilterRuggedAreaSpans 2 3 (3 # 2) 5 slope_line)
                   (cell_index 10 9 0, 0%nat) = 5) by (vm_compute; reflexivity).
    specialize (H H9). lia.
Qed.


(** ** The theorems at concrete heightfields *)

Lemma rcFilterLedgeSpans_demotes_iff_witness :
  (0 <= 2 /\ 0 <= 1 /\ 0 <= 1 < width flat_grid /\ 0 <= 1 < height flat_grid /\
   span_at flat_grid (cell_index (width flat_grid) 1 1, 0%nat) = Some (mkSpan 0 0 1) /\
   area (mkSpan 0 0 1) <> RC_NULL_AREA) /\
  let hf := flat_grid in
  let span := mkSpan 0 0 1 in
  let floor := smax span in
  let ceiling := ceiling_at (column_at hf (cell_index (width hf) 1 1)) 0 in
  let st := ledge_scan hf (width hf) (height hf) 2 1 1 1 0 span in
  let floors := neighbor_floors hf (width hf) (height hf) 2 1 1 floor ceiling (seqZ 0 4) in
  let demoted :=
    lowestNeighborFloorDifference st < - 1 \/
    highestTraversableNeighborFloor st - lowestTraversableNeighborFloor st > 1 in
  (exists span',
     span_at (rcFilterLedgeSpans 2 1 hf) (cell_index (width hf) 1 1, 0%nat) = Some span' /\
     smin span' = smin span /\ smax span' = smax span /\
     (area span' = RC_NULL_AREA <-> demoted) /\
     (~ demoted -> area span' = area span)) /\
  (lowestNeighborFloorDifference st < - 1 <->
     (exists d, d ∈ seqZ 0 4 /\
        direction_exits hf (width hf) (height hf) 2 1 1 floor ceiling d = true) \/
     (exists f, f ∈ floors /\ f - floor < - 1)) /\
  (~ lowestNeighborFloorDifference st < - 1 ->
     lowestNeighborFloorDifference st =
       foldl Z.min MAX_HEIGHTFIELD_HEIGHT ((fun f => f - floor) <$> floors) /\
     lowestTraversableNeighborFloor st =
       foldl Z.min floor (traversable_floors 1 floor floors) /\
     highestTraversableNeighborFloor st =
       foldl Z.max floor (traversable_floors 1 floor floors)) /\
  (floors = [] ->
     lowestTraversableNeighborFloor st = floor /\
     highestTraversableNeighborFloor st = floor /\
     (demoted <-> lowestNeighborFloorDifference st < - 1)).
Proof.
  assert (H1 : 0 <= 2) by lia.
  assert (H2 : 0 <= 1) by lia.
  assert (H3 : 0 <= 1 < width flat_grid) by (simpl; lia).
  assert (H4 : 0 <= 1 < height flat_grid) by (simpl; lia).
  assert (H5 : span_at flat_grid (cell_index (width flat_grid) 1 1, 0%nat)
               = Some (mkSpan 0 0 1)) by reflexivity.
  assert (H6 : area (mkSpan 0 0 1) <> RC_NULL_AREA) by (simpl; unfold RC_NULL_AREA; lia).
  split; [by split_and!|].
  exact (rcFilterLedgeSpans_demotes_iff 2 1 flat_grid 1 1 0 (mkSpan 0 0 1) H1 H2 H3 H4 H5 H6).
Defined.

Lemma rcFilterLowHangingWalkableObstacles_promotes_iff_witness :
  (0 <= 0 < width stacked_obstacles /\ 0 <= 0 < height stacked_obstacles /\
   column_at stacked_obstacles (cell_index (width stacked_obstacles) 0 0) !! 1%nat
     = Some (mkSpan 1 1 RC_NULL_AREA)) /\
  let hf := stacked_obstacles in
  let span := mkSpan 1 1 RC_NULL_AREA in
  let c := cell_index (width hf) 0 0 in
  let below := column_at hf c !! 0%nat in
  exists span',
    column_at (rcFilterLowHangingWalkableObstacles 1 hf) c !! 1%nat = Some span' /\
    smin span' = smin span /\ smax span' = smax span /\
    (area span' <> area span <->
       area span = RC_NULL_AREA /\
       exists p, below = Some p /\ area p <> RC_NULL_AREA /\ smax span - smax p <= 1) /\
    (forall p, below = Some p -> area span' <> area span ->
       area span' = area p /\
       exists p', column_at (rcFilterLowHangingWalkableObstacles 1 hf) c !! pred 1 = Some p' /\
                  area p' = area p) /\
    (forall p, below = Some p -> area p = RC_NULL_AREA -> span' = span).
Proof.
  assert (H1 : 0 <= 0 < width stacked_obstacles) by (simpl; lia).
  assert (H2 : 0 <= 0 < height stacked_obstacles) by (simpl; lia).
  assert (H3 : column_at stacked_obstacles (cell_index (width stacked_obstacles) 0 0) !! 1%nat
               = Some (mkSpan 1 1 RC_NULL_AREA)) by reflexivity.
  split; [by split_and!|].
  exact (rcFilterLowHangingWalkableObstacles_promotes_iff 1 stacked_obstacles 0 0 1
           (mkSpan 1 1 RC_NULL_AREA) H1 H2 H3).
Defined.

(** The column of [stacked_obstacles] after the pass: the lower obstacle
    is promoted, the upper one is not. *)
Example rcFilterLowHangingWalkableObstacles_no_cascade :
  rcFilterLowHangingWalkableObstacles 1 stacked_obstacles =
  mkHeightfield 1 1 [[mkSpan 0 0 1; mkSpan 1 1 1; mkSpan 2 2 RC_NULL_AREA]].
Proof. reflexivity. Qed.

Lemma rcFilterRuggedAreaSpans_scenario_witness :
  0 <= 5 < 2 ^ RC_AREA_BITS /\
  ((forall x, 0 <= x < 10 ->
      span_at slope_line (cell_index 10 x 0, 0%nat)
        = Some (mkSpan 0 (2 * x) RC_WALKABLE_AREA) /\
      span_at (rcFilterRuggedAreaSpans 2 3 (3 # 2) 5 slope_line)
        (cell_index 10 x 0, 0%nat) = Some (mkSpan 0 (2 * x) 5)) /\
   rcFilterRuggedAreaSpans 2 3 (3 # 2) 5 slope_line = slope_line_relabelled 5 /\
   sample_steps slope_line 3 (fun p => cell_index 10 p 0) 10 MAX_SLOPE_SAMPLE_STEP 0 1
     (_InitSpanListInColume slope_line (0%nat, 0%nat))
     = [(fun c => (c, 0%nat)) <$> seq 0 10] /\
   chain_total_diff slope_line ((fun c => (c, 0%nat)) <$> seq 0 10) = 18 /\
   (avgSlope (chain_total_diff slope_line ((fun c => (c, 0%nat)) <$> seq 0 10)) 9 == 2)%Q /\
   rcFilterRuggedAreaSpans 2 3 (3 # 2) 5 single_step = single_step /\
   sample_steps single_step 3 (fun p => cell_index 2 p 0) 2 MAX_SLOPE_SAMPLE_STEP 0 1
     (_InitSpanListInColume single_step (0%nat, 0%nat))
     = [[(0%nat, 0%nat); (1%nat, 0%nat)]] /\
   (avgSlope (chain_total_diff single_step [(0%nat, 0%nat); (1%nat, 0%nat)]) 1 == 1)%Q).
Proof.
  assert (H1 : 0 <= 5 < 2 ^ RC_AREA_BITS) by (unfold RC_AREA_BITS; lia).
  split; [exact H1|].
  exact (rcFilterRuggedAreaSpans_scenario 2 5 H1).
Defined.



Lemma rcFilterWalkableLowHeightSpans_demotes_iff_witness :
  (0 <= 0 < width stacked_obstacles /\ 0 <= 0 < height stacked_obstacles) /\
  (column_at stacked_obstacles (cell_index (width stacked_obstacles) 0 0)
     = [mkSpan 0 0 1; mkSpan 1 1 RC_NULL_AREA; mkSpan 2 2 RC_NULL_AREA] /\
   column_at (rcFilterWalkableLowHeightSpans 2 stacked_obstacles)
     (cell_index (width stacked_obstacles) 0 0)
     = [mkSpan 0 0 RC_NULL_AREA; mkSpan 1 1 RC_NULL_AREA; mkSpan 2 2 RC_NULL_AREA]) /\
  let hf := stacked_obstacles in
  let c := cell_index (width hf) 0 0 in
  let after := column_at (rcFilterWalkableLowHeightSpans 2 hf) c in
  (forall i span next,
     column_at hf c !! i = Some span ->
     column_at hf c !! S i = Some next ->
     after !! i =
     Some (if decide (smin next - smax span < 2)
           then with_area RC_NULL_AREA span else span)) /\
  (forall i span,
     column_at hf c !! i = Some span ->
     column_at hf c !! S i = None ->
     after !! i =
     Some (if decide (65535 - smax span < 2)
           then with_area RC_NULL_AREA span else span)) /\
  length after = length (column_at hf c) /\
  (forall hf',
     width hf' = width hf -> height hf' = height hf ->
     column_at hf' c = column_at hf c ->
     column_at (rcFilterWalkableLowHeightSpans 2 hf') c = after).
Proof.
  assert (H1 : 0 <= 0 < width stacked_obstacles) by (simpl; lia).
  assert (H2 : 0 <= 0 < height stacked_obstacles) by (simpl; lia).
  split; [exact (conj H1 H2)|].
  split; [split; reflexivity|].
  exact (rcFilterWalkableLowHeightSpans_demotes_iff 2 stacked_obstacles 0 0 H1 H2).
Defined.

(** The column of [stacked_obstacles] after the low-height pass with
    [walkableHeight = 2]: the walkable bottom span has the next span 1 above
    its floor and is set to the unwalkable area; so is the middle span; the
    topmost span has 65535 - 2 above its floor and keeps its area, which is
    the unwalkable one already. *)
Example rcFilterWalkableLowHeightSpans_reads_next_span :
  rcFilterWalkableLowHeightSpans 2 stacked_obstacles =
    mkHeightfield 1 1
      [[mkSpan 0 0 RC_NULL_AREA; mkSpan 1 1 RC_NULL_AREA; mkSpan 2 2 RC_NULL_AREA]] /\
  rcFilterWalkableLowHeightSpans 2
    (mkHeightfield 1 1 [[mkSpan 0 0 1; mkSpan 5 5 1]]) =
    mkHeightfield 1 1 [[mkSpan 0 0 1; mkSpan 5 5 1]] /\
  rcFilterWalkableLowHeightSpans 65534
    (mkHeightfield 1 1 [[mkSpan 0 0 1; mkSpan 5 5 1]]) =
    mkHeightfield 1 1 [[mkSpan 0 0 RC_NULL_AREA; mkSpan 5 5 RC_NULL_AREA]] /\
  rcFilterWalkableLowHeightSpans 65530
    (mkHeightfield 1 1 [[mkSpan 0 0 1; mkSpan 5 5 1]]) =
    mkHeightfield 1 1 [[mkSpan 0 0 RC_NULL_AREA; mkSpan 5 5 1]].
Proof. split_and!; reflexivity. Qed.


(** ** The scenarios of the specification, evaluated *)

(** On [lone_column] every neighbour column of the centre span is empty:
    the room under an empty column is 65535 high, the first direction ends
    the scan, and the span is set to the unwalkable area. *)
Example lone_column_scenario :
  lowestNeighborFloorDifference (ledge_scan lone_column 3 3 2 1 1 1 0 (mkSpan 0 0 1)) = - 2 /\
  rcFilterLedgeSpans 2 1 lone_column =
    mkHeightfield 3 3 (<[4%nat := [mkSpan 0 0 RC_NULL_AREA]]> (replicate 9 [])).
Proof. split; reflexivity. Qed.

(** On the flat 3 by 3 grid the low-height pass changes nothing and the
    ledge pass keeps the centre span only. *)
Example flat_grid_scenario :
  rcFilterWalkableLowHeightSpans 2 flat_grid = flat_grid /\
  rcFilterLedgeSpans 2 1 flat_grid =
    mkHeightfield 3 3 (<[4%nat := [mkSpan 0 0 1]]> (replicate 9 [mkSpan 0 0 RC_NULL_AREA])).
Proof. split; reflexivity. Qed.

(** Two adjacent columns with floors 0 and 5: the ledge pass demotes both. *)
Example two_columns_scenario :
  rcFilterLedgeSpans 2 1 (mkHeightfield 2 1 [[mkSpan 0 0 1]; [mkSpan 0 5 1]]) =
  mkHeightfield 2 1 [[mkSpan 0 0 RC_NULL_AREA]; [mkSpan 0 5 RC_NULL_AREA]].
Proof. reflexivity. Qed.

(** Rounding to binary32 at a few values: one third and one tenth are not
    representable, 2 ^ 24 + 1 is a tie that goes to the even mantissa, and
    small integers and their halves are exact. *)
Example f32_round_values :
  f32_round (1 # 3) = 11184811 # 33554432 /\
  f32_round (1 # 10) = 13421773 # 134217728 /\
  (f32_of_int 16777217 == 16777216)%Q /\
  (f32_of_int 16777219 == 16777220)%Q /\
  (f32_of_int (-7) == -7)%Q /\
  (f32_div (f32_of_int 3) (f32_of_int 2) == 3 # 2)%Q /\
  (avgSlope 18 9 == 2)%Q /\
  (avgSlope 1 3 == 11184811 # 33554432)%Q.
Proof. split_and!; vm_compute; reflexivity. Qed.

(** * Further properties of the passes *)

(** ** Demotion passes at an arbitrary span pointer *)

Lemma elem_of_demoted_refs (dec : Z * Z * nat -> bool) hf r :
  r ∈ ref_of (width hf) <$> List.filter dec (all_spans hf) <->
  exists k, k ∈ all_spans hf /\ ref_of (width hf) k = r /\ dec k = true.
Proof.
  rewrite list_elem_of_fmap. split.
  - intros (k & -> & Hk). apply list_elem_of_In, filter_In in Hk as [Hk Hd].
    exists k. by rewrite list_elem_of_In.
  - intros (k & Hk & <- & Hd). exists k. split; [done|].
    apply list_elem_of_In, filter_In. by rewrite <- list_elem_of_In.
Qed.

Lemma rcFilterLedgeSpans_span_at_ref wh wc hf r :
  span_at (rcFilterLedgeSpans wh wc hf) r =
  if decide (r ∈ ref_of (width hf) <$>
               List.filter (ledge_demotes (width hf) (height hf) wh wc hf) (all_spans hf))
  then with_area RC_NULL_AREA <$> span_at hf r else span_at hf r.
Proof.
  rewrite rcFilterLedgeSpans_snapshot. unfold rcFilterLedgeSpans_two_phase.
  apply span_at_foldl_set_area.
Qed.

Lemma rcFilterWalkableLowHeightSpans_span_at_ref wh hf r :
  span_at (rcFilterWalkableLowHeightSpans wh hf) r =
  if decide (r ∈ ref_of (width hf) <$>
               List.filter (low_height_demotes (width hf) wh hf) (all_spans hf))
  then with_area RC_NULL_AREA <$> span_at hf r else span_at hf r.
Proof.
  rewrite rcFilterWalkableLowHeightSpans_snapshot. apply span_at_foldl_set_area.
Qed.

Lemma low_height_refs_geometry wh hf hf' r :
  geometry hf = geometry hf' ->
  r ∈ ref_of (width hf) <$> List.filter (low_height_demotes (width hf) wh hf) (all_spans hf) <->
  r ∈ ref_of (width hf') <$> List.filter (low_height_demotes (width hf') wh hf') (all_spans hf').
Proof.
  intros Hg. rewrite <- (all_spans_geometry _ _ Hg), <- (geometry_width _ _ Hg).
  rewrite (filter_ext _ _ (fun k => low_height_demotes_geometry (width hf) wh hf hf' k Hg)).
  done.
Qed.

(** X1.  [rcFilterLedgeSpans] and [rcFilterWalkableLowHeightSpans] commute:
    run in either order, with any parameters, they leave the same
    heightfield.  Each decides from the heights alone, which neither
    changes. *)
Theorem ledge_low_height_commute (walkableHeight walkableClimb lowHeight : Z) (hf : rcHeightfield) :
  rcFilterLedgeSpans walkableHeight walkableClimb (rcFilterWalkableLowHeightSpans lowHeight hf)
  = rcFilterWalkableLowHeightSpans lowHeight (rcFilterLedgeSpans walkableHeight walkableClimb hf).
Proof.
  set (H := rcFilterWalkableLowHeightSpans lowHeight hf).
  set (L := rcFilterLedgeSpans walkableHeight walkableClimb hf).
  assert (HgH : geometry H = geometry hf) by apply rcFilterWalkableLowHeightSpans_geometry.
  assert (HgL : geometry L = geometry hf) by apply rcFilterLedgeSpans_geometry.
  apply heightfield_ext.
  { by rewrite rcFilterLedgeSpans_geometry, rcFilterWalkableLowHeightSpans_geometry, HgH, HgL. }
  intros r.
  rewrite rcFilterLedgeSpans_span_at_ref, rcFilterWalkableLowHeightSpans_span_at_ref.
  assert (HrH : r ∈ ref_of (width L) <$>
                  List.filter (low_height_demotes (width L) lowHeight L) (all_spans L) <->
                r ∈ ref_of (width hf) <$>
                  List.filter (low_height_demotes (width hf) lowHeight hf) (all_spans hf))
    by (by apply low_height_refs_geometry).
  pose proof (rcFilterWalkableLowHeightSpans_span_at_ref lowHeight hf r) as HsH. fold H in HsH.
  pose proof (rcFilterLedgeSpans_span_at_ref walkableHeight walkableClimb hf r) as HsL.
  fold L in HsL.
  destruct (decide (r ∈ ref_of (width hf) <$>
              List.filter (low_height_demotes (width hf) lowHeight hf) (all_spans hf)))
    as [HinH|HninH].
  - rewrite (decide_True (P := r ∈ ref_of (width L) <$> _)) by (by apply HrH).
    rewrite HsH, HsL.
    destruct (decide _), (decide _); by rewrite ?with_area_idem.
  - rewrite (decide_False (P := r ∈ ref_of (width L) <$> _)) by (by rewrite HrH).
    rewrite HsH, HsL.
    assert (Hiff : r ∈ ref_of (width H) <$>
                     List.filter (ledge_demotes (width H) (height H) walkableHeight walkableClimb H)
                       (all_spans H) <->
                   r ∈ ref_of (width hf) <$>
                     List.filter (ledge_demotes (width hf) (height hf) walkableHeight walkableClimb hf)
                       (all_spans hf)).
    { rewrite !elem_of_demoted_refs.
      rewrite (all_spans_geometry _ _ HgH), (geometry_width _ _ HgH), (geometry_height _ _ HgH).
      split; intros (k & Hk & Hr & Hd); exists k; split_and!; try done.
      - rewrite <- Hd. symmetry. apply ledge_demotes_local; [done|].
        rewrite Hr, HsH. done.
      - rewrite <- Hd. apply ledge_demotes_local; [done|].
        rewrite Hr, HsH. done. }
    destruct (decide (r ∈ ref_of (width hf) <$> List.filter (ledge_demotes _ _ _ _ hf) _)) as [Hl|Hl].
    + rewrite decide_True by (by apply Hiff). done.
    + rewrite decide_False by (by rewrite Hiff). done.
Qed.

Lemma low_height_demotes_max xSize h1 h2 hf k :
  low_height_demotes xSize (Z.max h1 h2) hf k =
  low_height_demotes xSize h1 hf k || low_height_demotes xSize h2 hf k.
Proof.
  unfold low_height_demotes. destruct (span_at hf _) as [s|]; [|done].
  destruct (_ <? h1) eqn:H1, (_ <? h2) eqn:H2, (_ <? Z.max h1 h2) eqn:H3; simpl; lia.
Qed.

(** X2.  Running [rcFilterWalkableLowHeightSpans] with [h1] and then with
    [h2] gives the heightfield one run with the larger of the two heights
    gives. *)
Theorem low_height_twice_is_max (h1 h2 : Z) (hf : rcHeightfield) :
  rcFilterWalkableLowHeightSpans h2 (rcFilterWalkableLowHeightSpans h1 hf)
  = rcFilterWalkableLowHeightSpans (Z.max h1 h2) hf.
Proof.
  set (H1 := rcFilterWalkableLowHeightSpans h1 hf).
  assert (Hg : geometry H1 = geometry hf) by apply rcFilterWalkableLowHeightSpans_geometry.
  apply heightfield_ext.
  { by rewrite !rcFilterWalkableLowHeightSpans_geometry. }
  intros r. rewrite !rcFilterWalkableLowHeightSpans_span_at_ref.
  pose proof (low_height_refs_geometry h2 H1 hf r Hg) as Hr2.
  pose proof (rcFilterWalkableLowHeightSpans_span_at_ref h1 hf r) as Hs1. fold H1 in Hs1.
  assert (Hmax : r ∈ ref_of (width hf) <$>
                   List.filter (low_height_demotes (width hf) (Z.max h1 h2) hf) (all_spans hf) <->
                 r ∈ ref_of (width hf) <$>
                   List.filter (low_height_demotes (width hf) h1 hf) (all_spans hf) \/
                 r ∈ ref_of (width hf) <$>
                   List.filter (low_height_demotes (width hf) h2 hf) (all_spans hf)).
  { rewrite !elem_of_demoted_refs. split.
    - intros (k & Hk & Hr & Hd). rewrite low_height_demotes_max in Hd.
      apply orb_true_iff in Hd as [Hd|Hd]; [left|right]; by exists k.
    - intros [(k & Hk & Hr & Hd)|(k & Hk & Hr & Hd)]; exists k; split_and!; try done;
        rewrite low_height_demotes_max, Hd; [done | apply orb_true_r]. }
  rewrite Hs1.
  destruct (decide (r ∈ ref_of (width hf) <$>
              List.filter (low_height_demotes (width hf) h1 hf) (all_spans hf))) as [Ha|Ha];
  destruct (decide (r ∈ ref_of (width hf) <$>
              List.filter (low_height_demotes (width hf) h2 hf) (all_spans hf))) as [Hb|Hb].
  - rewrite decide_True by (by apply Hr2). rewrite decide_True by (apply Hmax; auto).
    apply with_area_idem.
  - rewrite decide_False by (by rewrite Hr2). rewrite decide_True by (apply Hmax; auto). done.
  - rewrite decide_True by (by apply Hr2). rewrite decide_True by (apply Hmax; auto). done.
  - rewrite decide_False by (by rewrite Hr2). rewrite decide_False; [done|].
    rewrite Hmax. tauto.
Qed.

(** ** Narrow grids *)

Lemma with_area_same (s : rcSpan) : with_area (area s) s = s.
Proof. by destruct s. Qed.


(** ** rcFilterLowHangingWalkableObstacles at an arbitrary column *)

Lemma rcFilterLowHangingWalkableObstacles_column_at climb hf c :
  column_at (rcFilterLowHangingWalkableObstacles climb hf) c =
  if decide (c ∈ all_cells hf)
  then low_obstacles_chain climb None false RC_NULL_AREA (column_at hf c)
  else column_at hf c.
Proof.
  rewrite rcFilterLowHangingWalkableObstacles_flat. unfold column_at. simpl.
  rewrite foldl_alter_lookup by apply NoDup_all_cells.
  destruct (decide _); [|done]. by destruct (spans hf !! c).
Qed.

Lemma low_obstacles_chain_geometry climb ps pw pa chain :
  span_geometry <$> low_obstacles_chain climb ps pw pa chain = span_geometry <$> chain.
Proof.
  revert ps pw pa. induction chain as [|s rest IH]; intros ps pw pa; [done|].
  cbn [low_obstacles_chain]. rewrite !fmap_cons, IH. f_equal.
  by destruct (_ && _).
Qed.

Lemma geometry_foldl_alter (f : list rcSpan -> list rcSpan) (cs : list nat)
    (l : list (list rcSpan)) :
  (forall col, span_geometry <$> f col = span_geometry <$> col) ->
  fmap (M:=list) span_geometry <$> foldl (fun l c => alter f c l) l cs
  = fmap (M:=list) span_geometry <$> l.
Proof.
  intros Hf. revert l. induction cs as [|c cs IH]; intros l; [done|].
  cbn [foldl]. rewrite IH. by apply fmap_alter_invisible.
Qed.

Lemma rcFilterLowHangingWalkableObstacles_geometry climb hf :
  geometry (rcFilterLowHangingWalkableObstacles climb hf) = geometry hf.
Proof.
  rewrite rcFilterLowHangingWalkableObstacles_flat. unfold geometry. simpl. f_equal.
  apply geometry_foldl_alter. intros col. apply low_obstacles_chain_geometry.
Qed.

Lemma rcFilterRuggedAreaSpans_geometry wh wc thr id hf :
  geometry (rcFilterRuggedAreaSpans wh wc thr id hf) = geometry hf.
Proof.
  unfold rcFilterRuggedAreaSpans.
  apply (for_each_span_flat (rugged_span (width hf) (height hf) wc thr id)).
  intros. apply geometry_rugged_span.
Qed.

Lemma low_obstacles_chain_length climb ps pw pa chain :
  length (low_obstacles_chain climb ps pw pa chain) = length chain.
Proof.
  pose proof (f_equal length (low_obstacles_chain_geometry climb ps pw pa chain)) as H.
  by rewrite !length_fmap in H.
Qed.

(** X4.  [rcFilterLowHangingWalkableObstacles] only promotes: every span
    keeps its heights, a walkable span is returned unchanged, a span that is
    unwalkable afterwards is unchanged, and the bottom span of a column is
    never changed. *)
Theorem rcFilterLowHangingWalkableObstacles_only_promotes
    (walkableClimb : Z) (hf : rcHeightfield) (r : spanRef) (span : rcSpan) :
  span_at hf r = Some span ->
  exists span',
    span_at (rcFilterLowHangingWalkableObstacles walkableClimb hf) r = Some span' /\
    smin span' = smin span /\ smax span' = smax span /\
    (area span <> RC_NULL_AREA -> span' = span) /\
    (area span' = RC_NULL_AREA -> span' = span) /\
    (r.2 = 0%nat -> span' = span).
Proof.
  intros Hs. unfold span_at in *.
  rewrite rcFilterLowHangingWalkableObstacles_column_at.
  destruct (decide _) as [_|_]; [|exists span; by split_and!].
  destruct (low_obstacles_chain_lookup walkableClimb (column_at hf r.1)
              None None false RC_NULL_AREA r.2 span eq_refl Hs)
    as (span' & Hl & Hmin & Hmax & Hyes & Hno).
  cbv zeta in Hyes, Hno.
  exists span'. split_and!; try done.
  - intros Ha. apply Hno. by intros (? & _).
  - intros Ha'.
    destruct (low_obstacle_promoted_dec walkableClimb
                (match r.2 with O => None | S j => column_at hf r.1 !! j end) span)
      as [Hp|Hn]; [|by apply Hno].
    pose proof Hp as (_ & p & Hb & Hpa & _).
    rewrite (Hyes Hp p Hb) in Ha'. done.
  - intros H0. apply Hno. rewrite H0. by intros (_ & p & ? & _).
Qed.


Lemma foldl_fixed {A B} (f : A -> B -> A) (a : A) (l : list B) :
  (forall b, b ∈ l -> f a b = a) -> foldl f a l = a.
Proof.
  induction l as [|b l IH]; intros H; [done|]. cbn [foldl].
  rewrite (H b) by left. apply IH. intros b' Hb'. apply H. by right.
Qed.

Lemma for_each_span_fixed body hf :
  (forall hf x z i, geometry (body hf x z i) = geometry hf) ->
  (forall k, k ∈ all_spans hf -> body hf k.1.1 k.1.2 k.2 = hf) ->
  for_each_span body hf = hf.
Proof.
  intros Hgeo Hfix.
  destruct (for_each_span_flat body Hgeo hf) as [-> _].
  by apply foldl_fixed.
Qed.

Lemma EvaluateRuggedArea_fixed chains thr id hf :
  (forall chain, chain ∈ chains -> evaluate_chain thr id hf chain = hf) ->
  _EvaluateRuggedArea chains thr id hf = hf.
Proof. intros H. unfold _EvaluateRuggedArea. by apply foldl_fixed. Qed.

Lemma evaluate_chain_not_walkable thr id hf chain :
  (forall r, ref_area hf r <> RC_WALKABLE_AREA) -> evaluate_chain thr id hf chain = hf.
Proof.
  intros H. unfold evaluate_chain. destruct chain as [|start rest]; [done|].
  specialize (H start). apply Z.eqb_neq in H. by rewrite H.
Qed.

Lemma rugged_span_fixed xSize zSize wc thr id hf x z i :
  (forall cell size start span,
     rugged_axis hf wc thr id cell size start span = hf) ->
  rugged_span xSize zSize wc thr id hf x z i = hf.
Proof.
  intros H. unfold rugged_span. destruct (span_at hf _) as [s|]; [|done].
  destruct (area s =? RC_NULL_AREA); [done|]. rewrite !H. by destruct (negb _).
Qed.

Lemma rugged_span_not_walkable xSize zSize wc thr id hf x z i :
  (forall r, ref_area hf r <> RC_WALKABLE_AREA) ->
  rugged_span xSize zSize wc thr id hf x z i = hf.
Proof.
  intros Href. apply rugged_span_fixed. intros cell size start span.
  unfold rugged_axis. apply EvaluateRuggedArea_fixed.
  intros chain _. by apply evaluate_chain_not_walkable.
Qed.

(** X6.  [_EvaluateRuggedArea] skips every chain whose first span does not
    carry [RC_WALKABLE_AREA], so on a heightfield without a span of that area
    [rcFilterRuggedAreaSpans] changes nothing, even where spans are walkable
    under other area ids. *)
Theorem rcFilterRuggedAreaSpans_needs_walkable_area
    (walkableHeight walkableClimb : Z) (SlopeThreshold : Q) (RuggedAreaID : Z)
    (hf : rcHeightfield) :
  (forall r s, span_at hf r = Some s -> area s <> RC_WALKABLE_AREA) ->
  rcFilterRuggedAreaSpans walkableHeight walkableClimb SlopeThreshold RuggedAreaID hf = hf.
Proof.
  intros Hno.
  assert (Href : forall r, ref_area hf r <> RC_WALKABLE_AREA).
  { intros r. unfold ref_area. destruct (span_at hf r) as [s|] eqn:Hs; simpl.
    - by apply (Hno r).
    - done. }
  unfold rcFilterRuggedAreaSpans. apply for_each_span_fixed.
  - intros. apply geometry_rugged_span.
  - intros k _. by apply rugged_span_not_walkable.
Qed.

Lemma low_obstacles_chain_unwalkable climb ps pa chain :
  Forall (fun s => area s = RC_NULL_AREA) chain ->
  low_obstacles_chain climb ps false pa chain = chain.
Proof.
  intros H. revert ps pa. induction H as [|s rest Hs H IH]; intros ps pa; [done|].
  cbn [low_obstacles_chain]. apply Z.eqb_eq in Hs. rewrite Hs. simpl.
  by rewrite IH.
Qed.

Lemma with_area_null_fmap (o : option rcSpan) :
  (forall s, o = Some s -> area s = RC_NULL_AREA) -> with_area RC_NULL_AREA <$> o = o.
Proof.
  intros H. destruct o as [s|]; [|done]. simpl. rewrite <- (H s eq_refl).
  by rewrite with_area_same.
Qed.

(** X7.  A heightfield whose spans are all unwalkable is a fixed point of
    each of the four passes. *)
Theorem unwalkable_heightfield_fixed
    (walkableHeight walkableClimb : Z) (SlopeThreshold : Q) (RuggedAreaID : Z)
    (hf : rcHeightfield) :
  (forall r s, span_at hf r = Some s -> area s = RC_NULL_AREA) ->
  rcFilterLowHangingWalkableObstacles walkableClimb hf = hf /\
  rcFilterLedgeSpans walkableHeight walkableClimb hf = hf /\
  rcFilterWalkableLowHeightSpans walkableHeight hf = hf /\
  rcFilterRuggedAreaSpans walkableHeight walkableClimb SlopeThreshold RuggedAreaID hf = hf.
Proof.
  intros Hnull. split_and!.
  - apply heightfield_ext; [apply rcFilterLowHangingWalkableObstacles_geometry|].
    intros r. unfold span_at. rewrite rcFilterLowHangingWalkableObstacles_column_at.
    destruct (decide _); [|done].
    rewrite low_obstacles_chain_unwalkable; [done|].
    apply Forall_lookup. intros i s Hs. by apply (Hnull (r.1, i)).
  - apply heightfield_ext; [apply rcFilterLedgeSpans_geometry|].
    intros r. rewrite rcFilterLedgeSpans_span_at_ref.
    destruct (decide _); [|done]. apply with_area_null_fmap, Hnull.
  - apply heightfield_ext; [apply rcFilterWalkableLowHeightSpans_geometry|].
    intros r. rewrite rcFilterWalkableLowHeightSpans_span_at_ref.
    destruct (decide _); [|done]. apply with_area_null_fmap, Hnull.
  - unfold rcFilterRuggedAreaSpans. apply for_each_span_fixed.
    { intros. apply geometry_rugged_span. }
    intros k _. apply rugged_span_not_walkable.
    intros r. unfold ref_area. destruct (span_at hf r) as [s|] eqn:Hs; simpl.
    + rewrite (Hnull r s Hs). done.
    + done.
Qed.

(** X8.  Each of the four passes writes areas only: the result has the
    width, the height and the number of columns of the input, every column
    keeps its length, and the span at any position keeps [smin] and
    [smax]. *)
Theorem filters_keep_geometry
    (walkableHeight walkableClimb : Z) (SlopeThreshold : Q) (RuggedAreaID : Z)
    (hf : rcHeightfield) (r : spanRef) :
  let passes :=
    [rcFilterLowHangingWalkableObstacles walkableClimb hf;
     rcFilterLedgeSpans walkableHeight walkableClimb hf;
     rcFilterWalkableLowHeightSpans walkableHeight hf;
     rcFilterRuggedAreaSpans walkableHeight walkableClimb SlopeThreshold RuggedAreaID hf] in
  Forall (fun hf' =>
    width hf' = width hf /\ height hf' = height hf /\
    length (spans hf') = length (spans hf) /\
    length (column_at hf' r.1) = length (column_at hf r.1) /\
    forall s', span_at hf' r = Some s' ->
      exists s, span_at hf r = Some s /\ smin s' = smin s /\ smax s' = smax s) passes.
Proof.
  intros passes.
  assert (H : forall hf', geometry hf' = geometry hf ->
    width hf' = width hf /\ height hf' = height hf /\
    length (spans hf') = length (spans hf) /\
    length (column_at hf' r.1) = length (column_at hf r.1) /\
    forall s', span_at hf' r = Some s' ->
      exists s, span_at hf r = Some s /\ smin s' = smin s /\ smax s' = smax s).
  { intros hf' Hg. split_and!.
    - by apply geometry_width.
    - by apply geometry_height.
    - unfold geometry in Hg. injection Hg as _ _ Hs.
      apply (f_equal length) in Hs. by rewrite !length_fmap in Hs.
    - by apply geometry_column_length.
    - intros s' Hs'. pose proof (geometry_span_at hf' hf r Hg) as Hr. rewrite Hs' in Hr.
      destruct (span_at hf r) as [s|]; [|done]. simpl in Hr. injection Hr as Hmin Hmax.
      by exists s. }
  subst passes.
  constructor; [apply H, rcFilterLowHangingWalkableObstacles_geometry|].
  constructor; [apply H, rcFilterLedgeSpans_geometry|].
  constructor; [apply H, rcFilterWalkableLowHeightSpans_geometry|].
  constructor; [apply H, rcFilterRuggedAreaSpans_geometry|].
  constructor.
Qed.

Lemma relabelled_only_refl A hf : relabelled_only A hf hf.
Proof. intros r. by left. Qed.

Lemma with_area_with_area a b (s : rcSpan) : with_area a (with_area b s) = with_area a s.
Proof. done. Qed.

Lemma relabelled_only_trans A hf1 hf2 hf3 :
  relabelled_only A hf1 hf2 -> relabelled_only A hf2 hf3 -> relabelled_only A hf1 hf3.
Proof.
  intros H12 H23 r. destruct (H23 r) as [H|(s2 & Hs2 & Ha2 & Hs3)].
  - rewrite H. apply H12.
  - destruct (H12 r) as [H|(s1 & Hs1 & Ha1 & Hs2')].
    + right. exists s2. rewrite <- H. done.
    + right. exists s1. split_and!; [done..|].
      rewrite Hs3. rewrite Hs2' in Hs2. injection Hs2 as <-. done.
Qed.

Lemma relabel_safe_step A hf hf' r :
  relabelled_only A hf hf' -> relabel_safe A hf r -> relabel_safe A hf' r.
Proof.
  intros HR Hok s Hs. destruct (HR r) as [H|(s0 & Hs0 & Ha0 & Hs')].
  - apply Hok. by rewrite <- H.
  - rewrite Hs' in Hs. injection Hs as <-. by right.
Qed.

Lemma walkable_ref_safe A hf r : walkable_ref hf r -> relabel_safe A hf r.
Proof. intros (s & Hs & Ha) s' Hs'. left. congruence. Qed.

Lemma mark_chain_relabelled_only id hf chain :
  Forall (relabel_safe (area_of_int id) hf) chain ->
  relabelled_only (area_of_int id) hf (mark_chain id hf chain).
Proof.
  intros Hok r. rewrite span_at_mark_chain.
  destruct (decide (r ∈ chain)) as [Hin|_]; [|by left].
  rewrite list.Forall_forall in Hok. specialize (Hok r Hin).
  destruct (span_at hf r) as [s|] eqn:Hs; [|by left].
  destruct (Hok s Hs) as [Ha|Ha]; rewrite ?Hs.
  - right. by exists s.
  - left. simpl. rewrite <- Ha. by rewrite with_area_same.
Qed.

Lemma evaluate_chain_relabelled_only thr id hf chain :
  Forall (relabel_safe (area_of_int id) hf) (tail chain) ->
  relabelled_only (area_of_int id) hf (evaluate_chain thr id hf chain).
Proof.
  intros Hok. unfold evaluate_chain.
  destruct chain as [|start rest]; [apply relabelled_only_refl|].
  destruct (ref_area hf start =? RC_WALKABLE_AREA) eqn:Ha; cbn [negb];
    [|apply relabelled_only_refl].
  cbv zeta.
  destruct (_ >? 0); [|apply relabelled_only_refl].
  destruct (Qle_bool _ _); [|apply relabelled_only_refl].
  apply mark_chain_relabelled_only. constructor; [|done].
  apply Z.eqb_eq in Ha. unfold ref_area in Ha.
  intros s Hs. rewrite Hs in Ha. simpl in Ha. left. rewrite Ha. done.
Qed.

Lemma EvaluateRuggedArea_relabelled_only chains thr id hf :
  Forall (fun chain => Forall (relabel_safe (area_of_int id) hf) (tail chain)) chains ->
  relabelled_only (area_of_int id) hf (_EvaluateRuggedArea chains thr id hf).
Proof.
  unfold _EvaluateRuggedArea.
  assert (H : forall hf', relabelled_only (area_of_int id) hf hf' ->
    Forall (fun chain => Forall (relabel_safe (area_of_int id) hf') (tail chain)) chains ->
    relabelled_only (area_of_int id) hf
      (foldl (evaluate_chain thr id) hf' chains)).
  { induction chains as [|chain chains IH]; intros hf' HR Hok; [done|].
    apply list.Forall_cons in Hok as [Hc Hok]. cbn [foldl].
    pose proof (evaluate_chain_relabelled_only thr id hf' chain Hc) as Hstep.
    apply IH.
    - by eapply relabelled_only_trans.
    - eapply list.Forall_impl; [exact Hok|]. intros ch Hch.
      eapply list.Forall_impl; [exact Hch|]. intros r. by apply relabel_safe_step. }
  intros Hok. apply H; [apply relabelled_only_refl | done].
Qed.

(** Chain building appends walkable spans only. *)
Lemma extend_first_chain_walkable hf cur nb chains :
  walkable_ref hf nb ->
  Forall (fun chain => Forall (walkable_ref hf) (tail chain)) chains ->
  Forall (fun chain => Forall (walkable_ref hf) (tail chain))
    (extend_first_chain cur nb chains).
Proof.
  intros Hnb H. induction H as [|ch chains Hch H IH]; [constructor|].
  simpl. case_decide as Hl.
  - constructor; [|done]. destruct ch as [|a ch]; [done|]. simpl.
    apply list.Forall_app. split; [done|]. by constructor.
  - by constructor.
Qed.

Lemma neighbor_span_loop_walkable hf wc floor cur nc neighbor :
  forall k chains,
  (forall m n, neighbor !! m = Some n -> column_at hf nc !! (k + m)%nat = Some n) ->
  Forall (fun chain => Forall (walkable_ref hf) (tail chain)) chains ->
  Forall (fun chain => Forall (walkable_ref hf) (tail chain))
    (neighbor_span_loop wc floor cur nc k neighbor chains).
Proof.
  induction neighbor as [|n rest IH]; intros k chains Hcol H; [done|].
  assert (Hrest : forall m n', rest !! m = Some n' ->
                    column_at hf nc !! (S k + m)%nat = Some n').
  { intros m n' Hm. specialize (Hcol (S m) n' Hm).
    by replace (k + S m)%nat with (S k + m)%nat in Hcol by lia. }
  simpl. destruct (area n =? RC_NULL_AREA) eqn:Ha; [by apply IH|].
  apply IH; [done|]. destruct (_ <=? wc); [|done].
  apply extend_first_chain_walkable; [|done].
  exists n. split.
  - unfold span_at. simpl. specialize (Hcol 0%nat n eq_refl).
    by rewrite Nat.add_0_r in Hcol.
  - by apply Z.eqb_neq.
Qed.

Lemma sample_step_walkable hf wc cc nc chains :
  Forall (fun chain => Forall (walkable_ref hf) (tail chain)) chains ->
  Forall (fun chain => Forall (walkable_ref hf) (tail chain))
    (sample_step hf wc cc nc chains).
Proof.
  unfold sample_step. generalize 0%nat. generalize (column_at hf cc).
  intros current. revert chains.
  induction current as [|s rest IH]; intros chains j H; [done|].
  simpl. destruct (area s =? RC_NULL_AREA); [done|].
  apply IH. apply neighbor_span_loop_walkable; [|done]. by intros m n Hm.
Qed.

Lemma sample_steps_walkable hf wc cell size n :
  forall cur nb chains,
  Forall (fun chain => Forall (walkable_ref hf) (tail chain)) chains ->
  Forall (fun chain => Forall (walkable_ref hf) (tail chain))
    (sample_steps hf wc cell size n cur nb chains).
Proof.
  induction n as [|n IH]; intros cur nb chains H; [done|].
  simpl. destruct (_ || _); [done|]. apply IH. by apply sample_step_walkable.
Qed.

Lemma InitSpanListInColume_tails hf span (P : spanRef -> Prop) :
  Forall (fun chain => Forall P (tail chain)) (_InitSpanListInColume hf span).
Proof.
  unfold _InitSpanListInColume. apply list.Forall_fmap, list.Forall_forall.
  intros j _. simpl. constructor.
Qed.

Lemma rugged_axis_relabelled_only hf wc thr id cell size start span :
  relabelled_only (area_of_int id) hf (rugged_axis hf wc thr id cell size start span).
Proof.
  unfold rugged_axis. apply EvaluateRuggedArea_relabelled_only.
  eapply list.Forall_impl.
  - apply sample_steps_walkable, InitSpanListInColume_tails.
  - intros ch Hch. eapply list.Forall_impl; [exact Hch|]. intros r. apply walkable_ref_safe.
Qed.

Lemma rugged_span_relabelled_only xSize zSize wc thr id hf x z i :
  relabelled_only (area_of_int id) hf (rugged_span xSize zSize wc thr id hf x z i).
Proof.
  unfold rugged_span. destruct (span_at hf _) as [s|]; [|apply relabelled_only_refl].
  destruct (area s =? RC_NULL_AREA); [apply relabelled_only_refl|].
  destruct (negb _).
  - eapply relabelled_only_trans; apply rugged_axis_relabelled_only.
  - apply rugged_axis_relabelled_only.
Qed.

Lemma rcFilterRuggedAreaSpans_relabelled_only wh wc thr id hf :
  relabelled_only (area_of_int id) hf (rcFilterRuggedAreaSpans wh wc thr id hf).
Proof.
  unfold rcFilterRuggedAreaSpans.
  destruct (for_each_span_flat (rugged_span (width hf) (height hf) wc thr id)) with (hf := hf)
    as [-> _].
  { intros. apply geometry_rugged_span. }
  generalize (all_spans hf). intros L.
  assert (H : forall a, relabelled_only (area_of_int id) hf a ->
    relabelled_only (area_of_int id) hf
      (foldl (fun hf0 k => rugged_span (width hf) (height hf) wc thr id hf0 k.1.1 k.1.2 k.2) a L)).
  { induction L as [|k L IH]; intros a Ha; [done|]. cbn [foldl]. apply IH.
    eapply relabelled_only_trans; [exact Ha|]. apply rugged_span_relabelled_only. }
  apply H, relabelled_only_refl.
Qed.

(** X9.  [rcFilterRuggedAreaSpans] writes walkable spans only, and writes
    nothing but the area id: every span keeps its heights; a span that
    differs afterwards was walkable and now carries [RuggedAreaID], cut to
    the width of the area field; an unwalkable span is returned
    unchanged. *)
Theorem rcFilterRuggedAreaSpans_writes_walkable_only
    (walkableHeight walkableClimb : Z) (SlopeThreshold : Q) (RuggedAreaID : Z)
    (hf : rcHeightfield) (r : spanRef) (span : rcSpan) :
  span_at hf r = Some span ->
  exists span',
    span_at (rcFilterRuggedAreaSpans walkableHeight walkableClimb SlopeThreshold RuggedAreaID hf) r
      = Some span' /\
    smin span' = smin span /\ smax span' = smax span /\
    (span' = span \/
     area span <> RC_NULL_AREA /\ area span' = area_of_int RuggedAreaID) /\
    (area span = RC_NULL_AREA -> span' = span).
Proof.
  intros Hs.
  destruct (rcFilterRuggedAreaSpans_relabelled_only walkableHeight walkableClimb
              SlopeThreshold RuggedAreaID hf r) as [H|(s & Hs0 & Ha & Hs')].
  - exists span. rewrite H. split_and!; auto.
  - rewrite Hs in Hs0. injection Hs0 as <-.
    exists (with_area (area_of_int RuggedAreaID) span). split_and!; auto.
    intros Hn. done.
Qed.

Section chain_building.
Variables (hf : rcHeightfield) (wc : Z) (cell : Z -> nat) (size start : Z).
Hypothesis Hstart : 0 <= start.
Hypothesis Hcell : forall p q, 0 <= p -> 0 <= q -> cell p = cell q -> p = q.

Lemma chain_invariant_mono t seed chain : (chain_invariant hf wc cell size start) t seed chain -> (chain_invariant hf wc cell size start) (S t) seed chain.
Proof. intros (H1 & H2 & H3 & H4). split_and!; [done|lia|done..]. Qed.

Lemma chain_invariant_seed j : (chain_invariant hf wc cell size start) 0 [(cell start, j)] [(cell start, j)].
Proof.
  split_and!; [done|simpl; lia| |].
  - intros [|m] r Hr; [|done]. injection Hr as <-. simpl.
    split; [f_equal; lia|lia].
  - intros [|m] a b _ Hb; done.
Qed.

Lemma extend_first_chain_invariant t j k seeds chains :
  start + Z.of_nat t + 1 < size ->
  (forall j', (j' <= j)%nat -> walkable_ref hf (cell (start + Z.of_nat t), j')) ->
  walkable_ref hf (cell (start + Z.of_nat t + 1), k) ->
  Z.abs (ref_smax hf (cell (start + Z.of_nat t), j) -
         ref_smax hf (cell (start + Z.of_nat t + 1), k)) <= wc ->
  Forall2 ((chain_invariant hf wc cell size start) (S t)) seeds chains ->
  Forall2 ((chain_invariant hf wc cell size start) (S t)) seeds
    (extend_first_chain (cell (start + Z.of_nat t), j)
       (cell (start + Z.of_nat t + 1), k) chains).
Proof.
  intros Hsize Hbelow Hnb Hdiff H.
  induction H as [|seed ch seeds chains Hinv H IH]; [constructor|].
  simpl. case_decide as Hl; [|by constructor].
  constructor; [|done].
  destruct Hinv as (Hpre & Hlen & Hcells & Hsteps).
  apply last_Some in Hl as (ch' & ->).
  assert (Hlast : (ch' ++ [(cell (start + Z.of_nat t), j)]) !! length ch'
                  = Some (cell (start + Z.of_nat t), j)).
  { by apply list_lookup_middle. }
  assert (Ht : length ch' = t).
  { destruct (Hcells _ _ Hlast) as [Hc _]. simpl in Hc.
    apply Hcell in Hc; lia. }
  split_and!.
  - etrans; [exact Hpre|]. by apply prefix_app_r.
  - rewrite !length_app. simpl. lia.
  - intros m r Hr. apply lookup_app_Some in Hr as [Hr|[Hm Hr]]; [by apply Hcells|].
    rewrite length_app in Hm, Hr. simpl in Hm, Hr.
    apply list_lookup_singleton_Some in Hr as [Hm' <-].
    assert (m = S t) as -> by lia. simpl.
    split; [f_equal; lia | intros _; lia].
  - intros m a b Ha Hb.
    apply lookup_app_Some in Hb as [Hb|[Hm Hb]].
    + pose proof (lookup_lt_Some _ _ _ Hb) as Hlt.
      rewrite lookup_app_l in Ha by lia. by apply (Hsteps m a b).
    + rewrite length_app in Hm, Hb. simpl in Hm, Hb.
      apply list_lookup_singleton_Some in Hb as [Hm' <-].
      assert (m = length ch') as -> by lia.
      rewrite lookup_app_l in Ha by (rewrite length_app; simpl; lia).
      assert (a = (cell (start + Z.of_nat t), j)) as ->
        by (apply (inj Some); rewrite <- Ha; exact Hlast).
      done.
Qed.

Lemma neighbor_span_loop_invariant t j seeds neighbor :
  start + Z.of_nat t + 1 < size ->
  (forall j', (j' <= j)%nat -> walkable_ref hf (cell (start + Z.of_nat t), j')) ->
  forall k chains,
  (forall m n, neighbor !! m = Some n ->
     column_at hf (cell (start + Z.of_nat t + 1)) !! (k + m)%nat = Some n) ->
  Forall2 ((chain_invariant hf wc cell size start) (S t)) seeds chains ->
  Forall2 ((chain_invariant hf wc cell size start) (S t)) seeds
    (neighbor_span_loop wc (ref_smax hf (cell (start + Z.of_nat t), j))
       (cell (start + Z.of_nat t), j) (cell (start + Z.of_nat t + 1)) k neighbor chains).
Proof.
  intros Hsize Hbelow.
  induction neighbor as [|n rest IH]; intros k chains Hcol H; [done|].
  assert (Hrest : forall m n', rest !! m = Some n' ->
            column_at hf (cell (start + Z.of_nat t + 1)) !! (S k + m)%nat = Some n').
  { intros m n' Hm. specialize (Hcol (S m) n' Hm).
    by replace (k + S m)%nat with (S k + m)%nat in Hcol by lia. }
  assert (Hn : span_at hf (cell (start + Z.of_nat t + 1), k) = Some n).
  { unfold span_at. simpl. specialize (Hcol 0%nat n eq_refl).
    by rewrite Nat.add_0_r in Hcol. }
  simpl. destruct (area n =? RC_NULL_AREA) eqn:Ha; [by apply IH|].
  apply IH; [done|]. destruct (_ <=? wc) eqn:Hd; [|done].
  apply extend_first_chain_invariant; [done..| | |done].
  - exists n. split; [done|]. by apply Z.eqb_neq.
  - apply Z.leb_le in Hd. unfold ref_smax at 2. rewrite Hn. done.
Qed.

Lemma current_span_loop_invariant t seeds neighborColumn :
  start + Z.of_nat t + 1 < size ->
  neighborColumn = column_at hf (cell (start + Z.of_nat t + 1)) ->
  forall current j chains,
  (forall m s, current !! m = Some s ->
     column_at hf (cell (start + Z.of_nat t)) !! (j + m)%nat = Some s) ->
  (forall j', (j' < j)%nat -> walkable_ref hf (cell (start + Z.of_nat t), j')) ->
  Forall2 ((chain_invariant hf wc cell size start) (S t)) seeds chains ->
  Forall2 ((chain_invariant hf wc cell size start) (S t)) seeds
    (current_span_loop wc (cell (start + Z.of_nat t)) (cell (start + Z.of_nat t + 1))
       neighborColumn j current chains).
Proof.
  intros Hsize ->.
  induction current as [|s rest IH]; intros j chains Hcol Hbelow H; [done|].
  assert (Hs : span_at hf (cell (start + Z.of_nat t), j) = Some s).
  { unfold span_at. simpl. specialize (Hcol 0%nat s eq_refl).
    by rewrite Nat.add_0_r in Hcol. }
  simpl. destruct (area s =? RC_NULL_AREA) eqn:Ha; [done|].
  assert (Hbelow' : forall j', (j' <= j)%nat ->
            walkable_ref hf (cell (start + Z.of_nat t), j')).
  { intros j' Hj'. destruct (decide (j' = j)) as [->|Hne].
    - exists s. split; [done|]. by apply Z.eqb_neq.
    - apply Hbelow. lia. }
  apply IH.
  - intros m s' Hm. specialize (Hcol (S m) s' Hm).
    by replace (j + S m)%nat with (S j + m)%nat in Hcol by lia.
  - intros j' Hj'. apply Hbelow'. lia.
  - replace (smax s) with (ref_smax hf (cell (start + Z.of_nat t), j))
      by (unfold ref_smax; by rewrite Hs).
    apply neighbor_span_loop_invariant; [done..| |done].
    by intros m n Hm.
Qed.

Lemma sample_step_invariant t seeds chains :
  start + Z.of_nat t + 1 < size ->
  Forall2 ((chain_invariant hf wc cell size start) t) seeds chains ->
  Forall2 ((chain_invariant hf wc cell size start) (S t)) seeds
    (sample_step hf wc (cell (start + Z.of_nat t)) (cell (start + Z.of_nat t + 1)) chains).
Proof.
  intros Hsize H. unfold sample_step.
  apply current_span_loop_invariant; [done..| | |].
  - by intros m s Hm.
  - intros j' Hj'. lia.
  - eapply list.Forall2_impl; [exact H|]. intros seed ch. apply chain_invariant_mono.
Qed.

Lemma sample_steps_invariant n :
  forall t seeds chains,
  Forall2 ((chain_invariant hf wc cell size start) t) seeds chains ->
  Forall2 ((chain_invariant hf wc cell size start) (t + n)) seeds
    (sample_steps hf wc cell size n (start + Z.of_nat t) (start + Z.of_nat t + 1) chains).
Proof.
  induction n as [|n IH]; intros t seeds chains H.
  - simpl. by rewrite Nat.add_0_r.
  - simpl. destruct (_ || _) eqn:Hb.
    + eapply list.Forall2_impl; [exact H|]. intros seed ch (H1 & H2 & H3 & H4).
      split_and!; [done|lia|done..].
    + apply orb_false_iff in Hb as [Hb Hb4]. apply orb_false_iff in Hb as [Hb Hb3].
      apply orb_false_iff in Hb as [Hb1 Hb2].
      assert (Hsize : start + Z.of_nat t + 1 < size) by lia.
      pose proof (sample_step_invariant t seeds chains Hsize H) as Hstep.
      specialize (IH (S t) seeds _ Hstep).
      replace (start + Z.of_nat (S t)) with (start + Z.of_nat t + 1) in IH by lia.
      replace (S t + n)%nat with (t + S n)%nat in IH by lia. exact IH.
Qed.

Lemma rugged_chains_invariant i :
  let seeds := _InitSpanListInColume hf (cell start, i) in
  Forall2 ((chain_invariant hf wc cell size start) MAX_SLOPE_SAMPLE_STEP) seeds
    (sample_steps hf wc cell size MAX_SLOPE_SAMPLE_STEP start (start + 1) seeds) /\
  forall seed, seed ∈ seeds -> exists j, (i <= j)%nat /\ seed = [(cell start, j)].
Proof.
  intros seeds. split.
  - pose proof (sample_steps_invariant MAX_SLOPE_SAMPLE_STEP 0 seeds seeds) as H.
    simpl Z.of_nat in H. rewrite Z.add_0_r in H. apply H.
    apply Forall2_same_length_lookup. split; [done|].
    intros m s1 s2 H1 H2. assert (s1 = s2) as <- by congruence.
    subst seeds. unfold _InitSpanListInColume in H1.
    apply list_lookup_fmap_Some in H1 as (j & -> & _). simpl.
    apply chain_invariant_seed.
  - intros seed Hin. subst seeds. unfold _InitSpanListInColume in Hin.
    apply list_elem_of_fmap in Hin as (j & -> & Hj). simpl in *.
    apply elem_of_seq in Hj. exists j. split; [lia|done].
Qed.

End chain_building.

Lemma cell_index_inj_x xSize z p q :
  0 < xSize -> 0 <= z -> 0 <= p -> 0 <= q ->
  cell_index xSize p z = cell_index xSize q z -> p = q.
Proof. unfold cell_index. intros Hx Hz Hp Hq H. apply Z2Nat.inj in H; nia. Qed.

Lemma cell_index_inj_z xSize x p q :
  0 < xSize -> 0 <= x -> 0 <= p -> 0 <= q ->
  cell_index xSize x p = cell_index xSize x q -> p = q.
Proof. unfold cell_index. intros Hx Hz Hp Hq H. apply Z2Nat.inj in H; nia. Qed.

(** X10.  The chains [rcFilterRuggedAreaSpans] builds from an origin span
    inside the grid, along either axis: there is one chain per seed of
    [_InitSpanListInColume], and it starts with that seed; it holds at most
    ten spans; its [m]-th span lies in the cell [m] steps from the origin
    along the axis, inside the grid; successive floors differ by at most
    [walkableClimb]; every appended span is walkable, and every span that
    has a successor is walkable together with all spans below it in its
    column. *)
Theorem rugged_chains_shape (hf : rcHeightfield) (walkableClimb xSize zSize x z : Z)
    (i : nat) :
  0 <= x < xSize -> 0 <= z ->
  let span := (cell_index xSize x z, i) in
  let seeds := _InitSpanListInColume hf span in
  let cellX := fun p => cell_index xSize p z in
  let cellZ := fun p => cell_index xSize x p in
  Forall2 (chain_invariant hf walkableClimb cellX xSize x MAX_SLOPE_SAMPLE_STEP) seeds
    (sample_steps hf walkableClimb cellX xSize MAX_SLOPE_SAMPLE_STEP x (x + 1) seeds) /\
  Forall2 (chain_invariant hf walkableClimb cellZ zSize z MAX_SLOPE_SAMPLE_STEP) seeds
    (sample_steps hf walkableClimb cellZ zSize MAX_SLOPE_SAMPLE_STEP z (z + 1) seeds).
Proof.
  intros Hx Hz span seeds cellX cellZ. split.
  - apply (rugged_chains_invariant hf walkableClimb cellX xSize x); [lia|].
    intros p q Hp Hq. apply cell_index_inj_x; lia.
  - apply (rugged_chains_invariant hf walkableClimb cellZ zSize z); [lia|].
    intros p q Hp Hq. apply cell_index_inj_z; lia.
Qed.

Lemma rugged_axis_fixed hf wc thr id cell size start i :
  0 <= start ->
  (forall p q, 0 <= p -> 0 <= q -> cell p = cell q -> p = q) ->
  (forall j chain, (i <= j)%nat ->
     chain_invariant hf wc cell size start MAX_SLOPE_SAMPLE_STEP [(cell start, j)] chain ->
     evaluate_chain thr id hf chain = hf) ->
  rugged_axis hf wc thr id cell size start (cell start, i) = hf.
Proof.
  intros Hstart Hcell Hev. unfold rugged_axis. apply EvaluateRuggedArea_fixed.
  intros chain Hin.
  destruct (rugged_chains_invariant hf wc cell size start Hstart Hcell i) as [Hinv Hseeds].
  apply list_elem_of_lookup in Hin as (n & Hn).
  destruct (Forall2_lookup_r _ _ _ _ _ Hinv Hn) as (seed & Hseed & Hch).
  destruct (Hseeds seed) as (j & Hj & ->).
  { by eapply list_elem_of_lookup_2. }
  by apply (Hev j).
Qed.

Lemma rugged_pass_fixed wh wc thr id hf :
  (forall cell size start j chain,
     chain_invariant hf wc cell size start MAX_SLOPE_SAMPLE_STEP [(cell start, j)] chain ->
     evaluate_chain thr id hf chain = hf) ->
  rcFilterRuggedAreaSpans wh wc thr id hf = hf.
Proof.
  intros Hev. unfold rcFilterRuggedAreaSpans. apply for_each_span_fixed.
  { intros. apply geometry_rugged_span. }
  intros [[x z] i] Hk. apply elem_of_all_spans in Hk as (Hz & Hx & _). simpl in *.
  assert (HX : forall h, rugged_axis hf wc thr id (fun p => cell_index (width hf) p z) h x
                 (cell_index (width hf) x z, i) = hf).
  { intros h.
    apply (rugged_axis_fixed hf wc thr id (fun p => cell_index (width hf) p z) h x i); [lia| |].
    - intros p q Hp Hq. apply cell_index_inj_x; lia.
    - intros j chain _. apply (Hev (fun p => cell_index (width hf) p z) h x). }
  assert (HZ : forall h, rugged_axis hf wc thr id (fun p => cell_index (width hf) x p) h z
                 (cell_index (width hf) x z, i) = hf).
  { intros h.
    apply (rugged_axis_fixed hf wc thr id (fun p => cell_index (width hf) x p) h z i); [lia| |].
    - intros p q Hp Hq. apply cell_index_inj_z; lia.
    - intros j chain _. apply (Hev (fun p => cell_index (width hf) x p) h z). }
  unfold rugged_span. destruct (span_at hf _) as [s|]; [|done].
  destruct (area s =? RC_NULL_AREA); [done|]. cbv zeta. rewrite !HX, HZ.
  by destruct (negb _).
Qed.

Lemma chain_total_diff_gentle hf wc chain :
  (forall m a b, chain !! m = Some a -> chain !! S m = Some b ->
     Z.abs (ref_smax hf a - ref_smax hf b) <= wc) ->
  chain_total_diff hf chain <= wc * Z.of_nat (pred (length chain)).
Proof.
  induction chain as [|a tl IH]; intros H; [simpl; lia|]. cbn [chain_total_diff].
  destruct tl as [|b tl']; [simpl; lia|].
  pose proof (H 0%nat a b eq_refl eq_refl) as H0.
  assert (IH' : chain_total_diff hf (b :: tl') <= wc * Z.of_nat (pred (length (b :: tl')))).
  { apply IH. intros m a' b' Ha' Hb'. by apply (H (S m)). }
  cbn [length pred] in *. lia.
Qed.

Lemma evaluate_chain_single thr id hf r : evaluate_chain thr id hf [r] = hf.
Proof.
  apply (evaluate_chain_cases thr id hf r []). intros (_ & H & _). simpl in H. lia.
Qed.

Lemma evaluate_chain_gentle hf wc thr id cell size start seed chain :
  wc < 2 ^ 20 ->
  (inject_Z wc * (1 + (1 # 16777216)) < thr)%Q ->
  chain_invariant hf wc cell size start MAX_SLOPE_SAMPLE_STEP seed chain ->
  evaluate_chain thr id hf chain = hf.
Proof.
  intros Hwc Hthr (_ & Hlen & _ & Hsteps).
  destruct chain as [|a rest]; [done|].
  apply (evaluate_chain_cases thr id hf a rest). intros (_ & Hpos & Hle).
  pose proof (chain_total_diff_gentle hf wc (a :: rest)) as Htot.
  pose proof (chain_total_diff_nonneg hf (a :: rest)) as Hnn.
  set (total := chain_total_diff hf (a :: rest)) in *.
  set (steps := Z.of_nat (length (a :: rest)) - 1) in *.
  assert (Htot' : total <= wc * steps).
  { replace steps with (Z.of_nat (pred (length (a :: rest))))
      by (subst steps; cbn [length pred]; lia).
    apply Htot. intros m a' b' Ha' Hb'. by apply (Hsteps m a' b'). }
  assert (Hs9 : steps <= 9).
  { subst steps. unfold MAX_SLOPE_SAMPLE_STEP in Hlen. lia. }
  assert (Hwc0 : 0 <= wc) by nia.
  assert (Ha : 0 <= total < 2 ^ 24) by nia.
  assert (Hb : 0 < steps < 2 ^ 24) by lia.
  destruct (avgSlope_threshold total steps thr Ha Hb) as [_ Hup].
  specialize (Hup Hle).
  assert (Hex : (inject_Z total / inject_Z steps <= inject_Z wc)%Q).
  { apply Qle_shift_div_r.
    - change (inject_Z 0 < inject_Z steps)%Q. by rewrite <- Zlt_Qlt.
    - rewrite <- inject_Z_mult. by rewrite <- Zle_Qle. }
  clearbody total steps. lra.
Qed.

(** X11.  Every step of a chain is at most [walkableClimb], so the average
    step is too: with [SlopeThreshold] above [walkableClimb], by more than
    the rounding error 2^-24 of the [float] division,
    [rcFilterRuggedAreaSpans] changes nothing. *)
Theorem rcFilterRuggedAreaSpans_threshold_above_climb
    (walkableHeight walkableClimb : Z) (SlopeThreshold : Q) (RuggedAreaID : Z)
    (hf : rcHeightfield) :
  walkableClimb < 2 ^ 20 ->
  (inject_Z walkableClimb * (1 + (1 # 16777216)) < SlopeThreshold)%Q ->
  rcFilterRuggedAreaSpans walkableHeight walkableClimb SlopeThreshold RuggedAreaID hf = hf.
Proof.
  intros Hwc Hthr. apply rugged_pass_fixed.
  intros cell size start j chain Hinv. by eapply evaluate_chain_gentle.
Qed.

(** X12.  The scan of the current column starts at its bottom span and
    stops at the first unwalkable span, so a chain grows only through spans
    with nothing unwalkable below them: on a heightfield whose columns all
    have an unwalkable bottom span, [rcFilterRuggedAreaSpans] changes
    nothing, however steep the walkable spans above are. *)
Theorem rcFilterRuggedAreaSpans_unwalkable_bottoms
    (walkableHeight walkableClimb : Z) (SlopeThreshold : Q) (RuggedAreaID : Z)
    (hf : rcHeightfield) :
  (forall c s, column_at hf c !! 0%nat = Some s -> area s = RC_NULL_AREA) ->
  rcFilterRuggedAreaSpans walkableHeight walkableClimb SlopeThreshold RuggedAreaID hf = hf.
Proof.
  intros Hbottom. apply rugged_pass_fixed.
  intros cell size start j chain (Hpre & _ & _ & Hsteps).
  destruct Hpre as [rest ->]. destruct rest as [|b rest]; [apply evaluate_chain_single|].
  destruct (Hsteps 0%nat (cell start, j) b eq_refl eq_refl) as (_ & Hbelow & _).
  destruct (Hbelow 0%nat) as (s & Hs & Ha); [lia|].
  unfold span_at in Hs. simpl in Hs. by apply Hbottom in Hs.
Qed.

Lemma evaluate_chain_level hf wc thr id cell size start seed chain h :
  (forall r s, span_at hf r = Some s -> smax s = h) ->
  (0 < thr)%Q ->
  chain_invariant hf wc cell size start MAX_SLOPE_SAMPLE_STEP seed chain ->
  evaluate_chain thr id hf chain = hf.
Proof.
  intros Hlevel Hthr (_ & Hlen & _ & Hsteps).
  destruct chain as [|a rest]; [done|].
  apply (evaluate_chain_cases thr id hf a rest). intros (_ & Hpos & Hle).
  assert (Hh : forall r, walkable_ref hf r -> ref_smax hf r = h).
  { intros r (s & Hs & _). unfold ref_smax. rewrite Hs. simpl. by apply (Hlevel r). }
  pose proof (chain_total_diff_gentle hf 0 (a :: rest)) as Htot.
  pose proof (chain_total_diff_nonneg hf (a :: rest)) as Hnn.
  set (total := chain_total_diff hf (a :: rest)) in *.
  set (steps := Z.of_nat (length (a :: rest)) - 1) in *.
  assert (Htot' : total = 0).
  { assert (total <= 0 * Z.of_nat (pred (length (a :: rest)))); [|lia].
    apply Htot. intros m [c j] b' Ha' Hb'.
    destruct (Hsteps m (c, j) b' Ha' Hb') as (_ & Hbelow & Hb).
    rewrite (Hh (c, j)) by (apply (Hbelow j); simpl; lia).
    rewrite (Hh b' Hb). lia. }
  assert (Hb : 0 < steps < 2 ^ 24).
  { subst steps. unfold MAX_SLOPE_SAMPLE_STEP in Hlen. lia. }
  rewrite Htot' in Hle.
  destruct (avgSlope_threshold 0 steps thr ltac:(lia) Hb) as [_ Hup].
  specialize (Hup Hle). cbv zeta in Hup.
  assert (H0 : (inject_Z 0 / inject_Z steps == 0)%Q)
    by (unfold Qdiv; by rewrite Qmult_0_l).
  rewrite H0 in Hup. lra.
Qed.

(** X13.  Level ground is never rugged: on a heightfield whose spans all
    have the same floor [h], every chain has total difference 0, so with a
    positive [SlopeThreshold] [rcFilterRuggedAreaSpans] changes nothing. *)
Theorem rcFilterRuggedAreaSpans_level_ground
    (walkableHeight walkableClimb : Z) (SlopeThreshold : Q) (RuggedAreaID : Z)
    (hf : rcHeightfield) (h : Z) :
  (forall r s, span_at hf r = Some s -> smax s = h) ->
  (0 < SlopeThreshold)%Q ->
  rcFilterRuggedAreaSpans walkableHeight walkableClimb SlopeThreshold RuggedAreaID hf = hf.
Proof.
  intros Hlevel Hthr. apply rugged_pass_fixed.
  intros cell size start j chain Hinv. by eapply evaluate_chain_level.
Qed.

(** ** The evaluation of the chains of an origin span *)

Lemma evaluate_chain_rugged thr id hf chain :
  (chain_is_rugged thr hf chain ->
     evaluate_chain thr id hf chain = mark_chain id hf chain) /\
  (~ chain_is_rugged thr hf chain -> evaluate_chain thr id hf chain = hf).
Proof.
  destruct chain as [|startSpan rest]; [by split|].
  pose proof (evaluate_chain_cases thr id hf startSpan rest) as H. cbv zeta in H.
  replace (Z.of_nat (length (startSpan :: rest)) - 1) with (Z.of_nat (length rest)) in H
    by (cbn [length]; lia).
  destruct H as [Hyes Hno]. split.
  - intros (Ha & Hl & Hq). apply Hyes. split_and!; [done|lia|done].
  - intros Hn. apply Hno. intros (Ha & Hl & Hq). apply Hn. split_and!; [done|lia|done].
Qed.

Lemma relabelled_only_area_kept A hf hf' r s :
  relabelled_only A hf hf' -> span_at hf r = Some s -> area s = A ->
  span_at hf' r = Some s.
Proof.
  intros HR Hs Ha. destruct (HR r) as [H|(s0 & Hs0 & _ & H)]; [congruence|].
  rewrite H. rewrite Hs in Hs0. injection Hs0 as <-. rewrite <- Ha.
  by rewrite with_area_same.
Qed.

(** C3.  For a walkable origin span, [rcFilterRuggedAreaSpans] evaluates
    the chains it built along X with [_EvaluateRuggedArea] and then, only
    when the area of the origin is not [RuggedAreaID] after that, the
    chains it builds along Z on the heightfield the X pass left.
    [_EvaluateRuggedArea] takes the chains in order, each on the heightfield
    the earlier ones left.  A chain whose first span does not carry
    [RC_WALKABLE_AREA] is skipped and so is a chain of one span.  Otherwise
    the sum of the absolute differences of successive floors ([smax]) along
    the chain and the number of steps (the length of the chain minus one)
    are converted to [float] and divided in [float]; when that quotient is
    at least [SlopeThreshold] every span of the chain takes the area
    [RuggedAreaID] (an id of the area field) and no other span changes, and
    when it is not nothing changes.  The [float] quotient is the exact
    average up to a relative error of [2 ^ -24].  The spans of a relabelled
    first chain of the X pass carry [RuggedAreaID] when the origin is
    done, and when no chain of the X pass is relabelled the X pass changes
    nothing. *)
Theorem EvaluateRuggedArea_relabels
    (SlopeThreshold : Q) (RuggedAreaID walkableClimb : Z) (hf : rcHeightfield)
    (x z : Z) (i : nat) (origin : rcSpan) :
  0 <= RuggedAreaID < 2 ^ RC_AREA_BITS ->
  span_at hf (cell_index (width hf) x z, i) = Some origin ->
  area origin <> RC_NULL_AREA ->
  let span := (cell_index (width hf) x z, i) in
  let chainsX :=
    sample_steps hf walkableClimb (fun p => cell_index (width hf) p z) (width hf)
      MAX_SLOPE_SAMPLE_STEP x (x + 1) (_InitSpanListInColume hf span) in
  let hfX := _EvaluateRuggedArea chainsX SlopeThreshold RuggedAreaID hf in
  let chainsZ :=
    sample_steps hfX walkableClimb (fun p => cell_index (width hf) x p) (height hf)
      MAX_SLOPE_SAMPLE_STEP z (z + 1) (_InitSpanListInColume hfX span) in
  let hfZ := _EvaluateRuggedArea chainsZ SlopeThreshold RuggedAreaID hfX in
  let after :=
    rugged_span (width hf) (height hf) walkableClimb SlopeThreshold RuggedAreaID hf x z i in
  (ref_area hfX span = RuggedAreaID -> after = hfX) /\
  (ref_area hfX span <> RuggedAreaID -> after = hfZ) /\
  (forall h, _EvaluateRuggedArea [] SlopeThreshold RuggedAreaID h = h) /\
  (forall h chain others,
     _EvaluateRuggedArea (chain :: others) SlopeThreshold RuggedAreaID h =
     _EvaluateRuggedArea others SlopeThreshold RuggedAreaID
       (evaluate_chain SlopeThreshold RuggedAreaID h chain)) /\
  (forall h chain,
     chain_is_rugged SlopeThreshold h chain ->
     forall r,
       span_at (evaluate_chain SlopeThreshold RuggedAreaID h chain) r =
       if decide (r ∈ chain) then with_area RuggedAreaID <$> span_at h r
       else span_at h r) /\
  (forall h chain,
     ~ chain_is_rugged SlopeThreshold h chain ->
     evaluate_chain SlopeThreshold RuggedAreaID h chain = h) /\
  (forall h startSpan rest,
     ref_area h startSpan <> RC_WALKABLE_AREA ->
     evaluate_chain SlopeThreshold RuggedAreaID h (startSpan :: rest) = h) /\
  (forall h startSpan,
     evaluate_chain SlopeThreshold RuggedAreaID h [startSpan] = h) /\
  (forall chain others,
     chainsX = chain :: others ->
     chain_is_rugged SlopeThreshold hf chain ->
     forall r s, r ∈ chain -> span_at hf r = Some s ->
       span_at after r = Some (with_area RuggedAreaID s)) /\
  ((forall chain, chain ∈ chainsX -> ~ chain_is_rugged SlopeThreshold hf chain) ->
   hfX = hf) /\
  (forall total steps,
     0 <= total < 2 ^ 24 -> 0 < steps < 2 ^ 24 ->
     let average := (inject_Z total / inject_Z steps)%Q in
     (Qabs (avgSlope total steps - average) <= average * (1 # 16777216))%Q /\
     ((SlopeThreshold <= average * (1 - (1 # 16777216)))%Q ->
        (SlopeThreshold <= avgSlope total steps)%Q) /\
     ((SlopeThreshold <= avgSlope total steps)%Q ->
        (SlopeThreshold <= average * (1 + (1 # 16777216)))%Q)).
Proof.
  intros Hid Ho Ha span chainsX hfX chainsZ hfZ after.
  assert (HA : area_of_int RuggedAreaID = RuggedAreaID) by by apply area_of_int_id.
  assert (Hafter : after = if ref_area hfX span =? RuggedAreaID then hfX else hfZ).
  { subst after. unfold rugged_span. rewrite Ho.
    apply Z.eqb_neq in Ha. rewrite Ha. cbv zeta.
    change (rugged_axis hf walkableClimb SlopeThreshold RuggedAreaID
              (fun p => cell_index (width hf) p z) (width hf) x
              (cell_index (width hf) x z, i)) with hfX.
    change (rugged_axis hfX walkableClimb SlopeThreshold RuggedAreaID
              (fun p => cell_index (width hf) x p) (height hf) z
              (cell_index (width hf) x z, i)) with hfZ.
    change (cell_index (width hf) x z, i) with span.
    by destruct (ref_area hfX span =? RuggedAreaID). }
  assert (HwalkX : Forall (fun chain => Forall (walkable_ref hf) (tail chain)) chainsX).
  { apply sample_steps_walkable, InitSpanListInColume_tails. }
  assert (HXZ : relabelled_only RuggedAreaID hfX after).
  { rewrite Hafter. destruct (_ =? _); [apply relabelled_only_refl|].
    pose proof (rugged_axis_relabelled_only hfX walkableClimb SlopeThreshold RuggedAreaID
                  (fun p => cell_index (width hf) x p) (height hf) z span) as H.
    by rewrite HA in H. }
  split_and!.
  - intros Hx. rewrite Hafter. apply Z.eqb_eq in Hx. by rewrite Hx.
  - intros Hx. rewrite Hafter. apply Z.eqb_neq in Hx. by rewrite Hx.
  - done.
  - done.
  - intros h chain Hr r.
    rewrite (proj1 (evaluate_chain_rugged SlopeThreshold RuggedAreaID h chain) Hr).
    rewrite span_at_mark_chain. by rewrite HA.
  - intros h chain Hn.
    by apply (proj2 (evaluate_chain_rugged SlopeThreshold RuggedAreaID h chain)).
  - intros h startSpan rest Hna.
    apply (proj2 (evaluate_chain_rugged SlopeThreshold RuggedAreaID h (startSpan :: rest))).
    by intros (Hw & _).
  - intros h startSpan.
    apply (proj2 (evaluate_chain_rugged SlopeThreshold RuggedAreaID h [startSpan])).
    intros (_ & Hl & _). simpl in Hl. lia.
  - intros chain others Hch Hr r s Hin Hs.
    apply (relabelled_only_area_kept RuggedAreaID hfX after); [done| |done].
    set (hf1 := evaluate_chain SlopeThreshold RuggedAreaID hf chain).
    assert (Hs1 : span_at hf1 r = Some (with_area RuggedAreaID s)).
    { subst hf1.
      rewrite (proj1 (evaluate_chain_rugged SlopeThreshold RuggedAreaID hf chain) Hr).
      rewrite span_at_mark_chain, decide_True by done. by rewrite Hs, HA. }
    rewrite Hch in HwalkX. apply list.Forall_cons in HwalkX as [Hw1 Hwo].
    assert (H01 : relabelled_only RuggedAreaID hf hf1).
    { pose proof (evaluate_chain_relabelled_only SlopeThreshold RuggedAreaID hf chain) as H.
      rewrite HA in H. apply H.
      eapply list.Forall_impl; [exact Hw1|]. intros r'. apply walkable_ref_safe. }
    assert (H1X : relabelled_only RuggedAreaID hf1 hfX).
    { pose proof (EvaluateRuggedArea_relabelled_only others SlopeThreshold RuggedAreaID hf1)
        as H.
      rewrite HA in H. subst hfX. rewrite Hch. apply H.
      eapply list.Forall_impl; [exact Hwo|]. intros ch Hchw.
      eapply list.Forall_impl; [exact Hchw|]. intros r' Hr'.
      apply (relabel_safe_step RuggedAreaID hf hf1); [done|].
      by apply walkable_ref_safe. }
    by apply (relabelled_only_area_kept RuggedAreaID hf1 hfX r _ H1X Hs1).
  - intros Hnone. subst hfX. apply EvaluateRuggedArea_fixed.
    intros chain Hin.
    apply (proj2 (evaluate_chain_rugged SlopeThreshold RuggedAreaID hf chain)).
    by apply Hnone.
  - intros total steps Ht Hs average. split.
    + by apply avgSlope_rel_error.
    + by apply avgSlope_threshold.
Qed.

(** The test is on the [float] quotient, not on the average.  On
    [gentle_rise], with [walkableClimb = 1], the chain of the first origin
    runs through the four cells: total difference 1 over 3 steps, average
    1/3.  The [float] nearest to 1/3 is 11184811 / 2^25, which is above
    1/3.  With that number as [SlopeThreshold] the average is below the
    threshold and the quotient the code computes is not: the chain is
    relabelled. *)
Lemma EvaluateRuggedArea_relabels_counterexample :
  sample_steps gentle_rise 1 (fun p => cell_index 4 p 0) 4 MAX_SLOPE_SAMPLE_STEP 0 1
    (_InitSpanListInColume gentle_rise (0%nat, 0%nat))
    = [[(0, 0); (1, 0); (2, 0); (3, 0)]%nat] /\
  ref_area gentle_rise (0%nat, 0%nat) = RC_WALKABLE_AREA /\
  chain_total_diff gentle_rise [(0, 0); (1, 0); (2, 0); (3, 0)]%nat = 1 /\
  (inject_Z 1 / inject_Z 3 < 11184811 # 33554432)%Q /\
  ~ (11184811 # 33554432 <= inject_Z 1 / inject_Z 3)%Q /\
  (avgSlope 1 3 == 11184811 # 33554432)%Q /\
  evaluate_chain (11184811 # 33554432) 5 gentle_rise [(0, 0); (1, 0); (2, 0); (3, 0)]%nat
    = mkHeightfield 4 1 [[mkSpan 0 0 5]; [mkSpan 0 1 5]; [mkSpan 0 1 5]; [mkSpan 0 1 5]] /\
  rcFilterRuggedAreaSpans 2 1 (11184811 # 33554432) 5 gentle_rise
    = mkHeightfield 4 1 [[mkSpan 0 0 5]; [mkSpan 0 1 5]; [mkSpan 0 1 5]; [mkSpan 0 1 5]] /\
  rcFilterRuggedAreaSpans 2 1 (11184811 # 33554432) 5 gentle_rise <> gentle_rise.
Proof.
  split_and!; try (vm_compute; reflexivity).
  - intros H. vm_compute in H. apply H. reflexivity.
  - vm_compute. discriminate.
Qed.

Lemma EvaluateRuggedArea_relabels_witness :
  (0 <= 5 < 2 ^ RC_AREA_BITS /\
   span_at slope_line (cell_index (width slope_line) 0 0, 0%nat)
     = Some (mkSpan 0 0 RC_WALKABLE_AREA) /\
   area (mkSpan 0 0 RC_WALKABLE_AREA) <> RC_NULL_AREA) /\
  (sample_steps slope_line 3 (fun p => cell_index 10 p 0) 10 MAX_SLOPE_SAMPLE_STEP 0 1
     (_InitSpanListInColume slope_line (0%nat, 0%nat))
     = [(fun c => (c, 0%nat)) <$> seq 0 10] /\
   chain_is_rugged (3 # 2) slope_line ((fun c => (c, 0%nat)) <$> seq 0 10) /\
   ref_area
     (_EvaluateRuggedArea
        (sample_steps slope_line 3 (fun p => cell_index 10 p 0) 10 MAX_SLOPE_SAMPLE_STEP 0 1
           (_InitSpanListInColume slope_line (0%nat, 0%nat)))
        (3 # 2) 5 slope_line) (0%nat, 0%nat) = 5 /\
   rugged_span 10 1 3 (3 # 2) 5 slope_line 0 0 0 = slope_line_relabelled 5) /\
  let SlopeThreshold := 3 # 2 in
  let RuggedAreaID := 5 in
  let walkableClimb := 3 in
  let hf := slope_line in
  let x := 0 in
  let z := 0 in
  let i := 0%nat in
  let span := (cell_index (width hf) x z, i) in
  let chainsX :=
    sample_steps hf walkableClimb (fun p => cell_index (width hf) p z) (width hf)
      MAX_SLOPE_SAMPLE_STEP x (x + 1) (_InitSpanListInColume hf span) in
  let hfX := _EvaluateRuggedArea chainsX SlopeThreshold RuggedAreaID hf in
  let chainsZ :=
    sample_steps hfX walkableClimb (fun p => cell_index (width hf) x p) (height hf)
      MAX_SLOPE_SAMPLE_STEP z (z + 1) (_InitSpanListInColume hfX span) in
  let hfZ := _EvaluateRuggedArea chainsZ SlopeThreshold RuggedAreaID hfX in
  let after :=
    rugged_span (width hf) (height hf) walkableClimb SlopeThreshold RuggedAreaID hf x z i in
  (ref_area hfX span = RuggedAreaID -> after = hfX) /\
  (ref_area hfX span <> RuggedAreaID -> after = hfZ) /\
  (forall h, _EvaluateRuggedArea [] SlopeThreshold RuggedAreaID h = h) /\
  (forall h chain others,
     _EvaluateRuggedArea (chain :: others) SlopeThreshold RuggedAreaID h =
     _EvaluateRuggedArea others SlopeThreshold RuggedAreaID
       (evaluate_chain SlopeThreshold RuggedAreaID h chain)) /\
  (forall h chain,
     chain_is_rugged SlopeThreshold h chain ->
     forall r,
       span_at (evaluate_chain SlopeThreshold RuggedAreaID h chain) r =
       if decide (r ∈ chain) then with_area RuggedAreaID <$> span_at h r
       else span_at h r) /\
  (forall h chain,
     ~ chain_is_rugged SlopeThreshold h chain ->
     evaluate_chain SlopeThreshold RuggedAreaID h chain = h) /\
  (forall h startSpan rest,
     ref_area h startSpan <> RC_WALKABLE_AREA ->
     evaluate_chain SlopeThreshold RuggedAreaID h (startSpan :: rest) = h) /\
  (forall h startSpan,
     evaluate_chain SlopeThreshold RuggedAreaID h [startSpan] = h) /\
  (forall chain others,
     chainsX = chain :: others ->
     chain_is_rugged SlopeThreshold hf chain ->
     forall r s, r ∈ chain -> span_at hf r = Some s ->
       span_at after r = Some (with_area RuggedAreaID s)) /\
  ((forall chain, chain ∈ chainsX -> ~ chain_is_rugged SlopeThreshold hf chain) ->
   hfX = hf) /\
  (forall total steps,
     0 <= total < 2 ^ 24 -> 0 < steps < 2 ^ 24 ->
     let average := (inject_Z total / inject_Z steps)%Q in
     (Qabs (avgSlope total steps - average) <= average * (1 # 16777216))%Q /\
     ((SlopeThreshold <= average * (1 - (1 # 16777216)))%Q ->
        (SlopeThreshold <= avgSlope total steps)%Q) /\
     ((SlopeThreshold <= avgSlope total steps)%Q ->
        (SlopeThreshold <= average * (1 + (1 # 16777216)))%Q)).
Proof.
  assert (H1 : 0 <= 5 < 2 ^ RC_AREA_BITS) by (unfold RC_AREA_BITS; lia).
  assert (H2 : span_at slope_line (cell_index (width slope_line) 0 0, 0%nat)
               = Some (mkSpan 0 0 RC_WALKABLE_AREA)) by reflexivity.
  assert (H3 : area (mkSpan 0 0 RC_WALKABLE_AREA) <> RC_NULL_AREA)
    by (simpl; unfold RC_WALKABLE_AREA, RC_NULL_AREA; lia).
  split; [exact (conj H1 (conj H2 H3))|].
  split.
  { split; [vm_compute; reflexivity|].
    split; [split_and!; [reflexivity|simpl; lia|vm_compute; discriminate]|].
    split; vm_compute; reflexivity. }
  exact (EvaluateRuggedArea_relabels (3 # 2) 5 3 slope_line 0 0 0
           (mkSpan 0 0 RC_WALKABLE_AREA) H1 H2 H3).
Defined.

(** ** The further properties at concrete heightfields *)


Lemma rcFilterLowHangingWalkableObstacles_only_promotes_witness :
  (span_at stacked_obstacles (0%nat, 0%nat) = Some (mkSpan 0 0 1) /\
   span_at stacked_obstacles (0%nat, 2%nat) = Some (mkSpan 2 2 RC_NULL_AREA)) /\
  (area (mkSpan 0 0 1) <> RC_NULL_AREA /\ (0%nat, 0%nat).2 = 0%nat /\
   span_at (rcFilterLowHangingWalkableObstacles 1 stacked_obstacles) (0%nat, 0%nat)
     = Some (mkSpan 0 0 1)) /\
  (exists span',
     span_at (rcFilterLowHangingWalkableObstacles 1 stacked_obstacles) (0%nat, 0%nat)
       = Some span' /\
     smin span' = smin (mkSpan 0 0 1) /\
     smax span' = smax (mkSpan 0 0 1) /\
     (area (mkSpan 0 0 1) <> RC_NULL_AREA -> span' = mkSpan 0 0 1) /\
     (area span' = RC_NULL_AREA -> span' = mkSpan 0 0 1) /\
     ((0%nat, 0%nat).2 = 0%nat -> span' = mkSpan 0 0 1)) /\
  (exists span',
     span_at (rcFilterLowHangingWalkableObstacles 1 stacked_obstacles) (0%nat, 2%nat)
       = Some span' /\
     smin span' = smin (mkSpan 2 2 RC_NULL_AREA) /\
     smax span' = smax (mkSpan 2 2 RC_NULL_AREA) /\
     (area (mkSpan 2 2 RC_NULL_AREA) <> RC_NULL_AREA -> span' = mkSpan 2 2 RC_NULL_AREA) /\
     (area span' = RC_NULL_AREA -> span' = mkSpan 2 2 RC_NULL_AREA) /\
     ((0%nat, 2%nat).2 = 0%nat -> span' = mkSpan 2 2 RC_NULL_AREA)) /\
  area (mkSpan 2 2 RC_NULL_AREA) = RC_NULL_AREA /\
  span_at (rcFilterLowHangingWalkableObstacles 1 stacked_obstacles) (0%nat, 2%nat)
    = Some (mkSpan 2 2 RC_NULL_AREA).
Proof.
  assert (H0 : span_at stacked_obstacles (0%nat, 0%nat) = Some (mkSpan 0 0 1))
    by reflexivity.
  assert (H2 : span_at stacked_obstacles (0%nat, 2%nat) = Some (mkSpan 2 2 RC_NULL_AREA))
    by reflexivity.
  assert (Ha : area (mkSpan 0 0 1) <> RC_NULL_AREA) by (simpl; unfold RC_NULL_AREA; lia).
  split; [exact (conj H0 H2)|].
  split.
  { split; [exact Ha|]. split; [reflexivity|].
    destruct (rcFilterLowHangingWalkableObstacles_only_promotes 1 stacked_obstacles
                (0%nat, 0%nat) _ H0) as (span' & Hs & _ & _ & Hsame & _ & _).
    rewrite Hs. f_equal. exact (Hsame Ha). }
  split.
  { exact (rcFilterLowHangingWalkableObstacles_only_promotes 1 stacked_obstacles
             (0%nat, 0%nat) _ H0). }
  split.
  { exact (rcFilterLowHangingWalkableObstacles_only_promotes 1 stacked_obstacles
             (0%nat, 2%nat) _ H2). }
  split; reflexivity.
Defined.


Lemma rcFilterRuggedAreaSpans_needs_walkable_area_witness :
  (forall r s, span_at custom_area_slope r = Some s -> area s <> RC_WALKABLE_AREA) /\
  rcFilterRuggedAreaSpans 2 3 (3 # 2) 7 custom_area_slope = custom_area_slope /\
  sample_steps custom_area_slope 3 (fun p => cell_index 3 p 0) 3 MAX_SLOPE_SAMPLE_STEP 0 1
    (_InitSpanListInColume custom_area_slope (0%nat, 0%nat))
    = [[(0, 0); (1, 0); (2, 0)]%nat] /\
  (avgSlope (chain_total_diff custom_area_slope [(0, 0); (1, 0); (2, 0)]%nat) 2 == 2)%Q /\
  ref_area custom_area_slope (0%nat, 0%nat) = 1 /\
  rcFilterRuggedAreaSpans 2 3 (3 # 2) 7
    (mkHeightfield 3 1 [[mkSpan 0 0 RC_WALKABLE_AREA]; [mkSpan 0 2 1]; [mkSpan 0 4 5]])
  = mkHeightfield 3 1 [[mkSpan 0 0 7]; [mkSpan 0 2 7]; [mkSpan 0 4 7]].
Proof.
  assert (H1 : forall r s, span_at custom_area_slope r = Some s ->
                 area s <> RC_WALKABLE_AREA).
  { intros [c i] s. destruct c as [|[|[|c]]]; destruct i as [|i];
      vm_compute; intros H; try discriminate H; injection H as <-; discriminate. }
  split; [exact H1|].
  split.
  { exact (rcFilterRuggedAreaSpans_needs_walkable_area 2 3 (3 # 2) 7 custom_area_slope H1). }
  split_and!; vm_compute; reflexivity.
Defined.

Lemma unwalkable_heightfield_fixed_witness :
  (forall r s, span_at unwalkable_stack r = Some s -> area s = RC_NULL_AREA) /\
  rcFilterLowHangingWalkableObstacles 1 unwalkable_stack = unwalkable_stack /\
  rcFilterLedgeSpans 2 1 unwalkable_stack = unwalkable_stack /\
  rcFilterWalkableLowHeightSpans 2 unwalkable_stack = unwalkable_stack /\
  rcFilterRuggedAreaSpans 2 1 (1 # 2) 5 unwalkable_stack = unwalkable_stack.
Proof.
  assert (H1 : forall r s, span_at unwalkable_stack r = Some s -> area s = RC_NULL_AREA).
  { intros [c i] s. destruct c as [|[|c]]; [destruct i as [|[|i]]|destruct i as [|i]|];
      vm_compute; intros H; try discriminate H; injection H as <-; reflexivity. }
  split; [exact H1|].
  exact (unwalkable_heightfield_fixed 2 1 (1 # 2) 5 unwalkable_stack H1).
Defined.

Lemma rcFilterRuggedAreaSpans_writes_walkable_only_witness :
  span_at single_step (0%nat, 0%nat) = Some (mkSpan 0 0 RC_WALKABLE_AREA) /\
  exists span',
    span_at (rcFilterRuggedAreaSpans 2 1 (1 # 2) 5 single_step) (0%nat, 0%nat)
      = Some span' /\
    smin span' = smin (mkSpan 0 0 RC_WALKABLE_AREA) /\
    smax span' = smax (mkSpan 0 0 RC_WALKABLE_AREA) /\
    (span' = mkSpan 0 0 RC_WALKABLE_AREA \/
     area (mkSpan 0 0 RC_WALKABLE_AREA) <> RC_NULL_AREA /\ area span' = area_of_int 5) /\
    (area (mkSpan 0 0 RC_WALKABLE_AREA) = RC_NULL_AREA ->
     span' = mkSpan 0 0 RC_WALKABLE_AREA).
Proof.
  assert (H1 : span_at single_step (0%nat, 0%nat) = Some (mkSpan 0 0 RC_WALKABLE_AREA))
    by reflexivity.
  split; [exact H1|].
  exact (rcFilterRuggedAreaSpans_writes_walkable_only 2 1 (1 # 2) 5 single_step
           (0%nat, 0%nat) _ H1).
Defined.

Lemma rugged_chains_shape_witness :
  (0 <= 0 < 3 /\ 0 <= 0) /\
  let hf := converging_chains in
  let span := (cell_index 3 0 0, 0%nat) in
  let seeds := _InitSpanListInColume hf span in
  let cellX := fun p => cell_index 3 p 0 in
  let cellZ := fun p => cell_index 3 0 p in
  Forall2 (chain_invariant hf 1 cellX 3 0 MAX_SLOPE_SAMPLE_STEP) seeds
    (sample_steps hf 1 cellX 3 MAX_SLOPE_SAMPLE_STEP 0 (0 + 1) seeds) /\
  Forall2 (chain_invariant hf 1 cellZ 1 0 MAX_SLOPE_SAMPLE_STEP) seeds
    (sample_steps hf 1 cellZ 1 MAX_SLOPE_SAMPLE_STEP 0 (0 + 1) seeds).
Proof.
  assert (H1 : 0 <= 0 < 3) by lia.
  assert (H2 : 0 <= 0) by lia.
  split; [exact (conj H1 H2)|].
  exact (rugged_chains_shape converging_chains 1 3 1 0 0 0 H1 H2).
Defined.

Lemma rcFilterRuggedAreaSpans_threshold_above_climb_witness :
  (2 < 2 ^ 20 /\ (inject_Z 2 * (1 + (1 # 16777216)) < 3)%Q) /\
  rcFilterRuggedAreaSpans 2 2 3 5 slope_line = slope_line.
Proof.
  assert (H1 : 2 < 2 ^ 20) by lia.
  assert (H2 : (inject_Z 2 * (1 + (1 # 16777216)) < 3)%Q) by reflexivity.
  split; [exact (conj H1 H2)|].
  exact (rcFilterRuggedAreaSpans_threshold_above_climb 2 2 3 5 slope_line H1 H2).
Defined.

Lemma rcFilterRuggedAreaSpans_unwalkable_bottoms_witness :
  (forall c s, column_at blocked_slope c !! 0%nat = Some s -> area s = RC_NULL_AREA) /\
  rcFilterRuggedAreaSpans 2 2 (1 # 2) 5 blocked_slope = blocked_slope.
Proof.
  assert (H1 : forall c s, column_at blocked_slope c !! 0%nat = Some s ->
                 area s = RC_NULL_AREA).
  { intros c s. destruct c as [|[|c]];
      vm_compute; intros H; try discriminate H; injection H as <-; reflexivity. }
  split; [exact H1|].
  exact (rcFilterRuggedAreaSpans_unwalkable_bottoms 2 2 (1 # 2) 5 blocked_slope H1).
Defined.

Lemma rcFilterRuggedAreaSpans_level_ground_witness :
  ((forall r s, span_at level_line r = Some s -> smax s = 1) /\ (0 < 1 # 2)%Q) /\
  rcFilterRuggedAreaSpans 2 1 (1 # 2) 5 level_line = level_line.
Proof.
  assert (H1 : forall r s, span_at level_line r = Some s -> smax s = 1).
  { intros [c i] s. destruct c as [|[|[|c]]]; destruct i as [|i];
      vm_compute; intros H; try discriminate H; injection H as <-; reflexivity. }
  assert (H2 : (0 < 1 # 2)%Q) by reflexivity.
  split; [exact (conj H1 H2)|].
  exact (rcFilterRuggedAreaSpans_level_ground 2 1 (1 # 2) 5 level_line 1 H1 H2).
Defined.
